(** * WhaleScanner: a shallow embedding of [whale_scanner.py]

    The development follows the source file section by section: the small
    helpers, the rate limiter and the retrying HTTP client, the adaptive
    batch fetcher, and the extraction / metrics / scoring / ranking
    pipeline.

    Number model.  Python [float] values are embedded as exact rationals
    ([Q]): the arithmetic is the one the source writes, without IEEE
    rounding, infinities or NaN, so [math.isfinite] holds of every value;
    where the source can raise on a float that is too large
    ([OverflowError] in [**] and in the conversion of a large [int]), the
    embedding tests the exact value against the largest finite float.
    Python [int] values are [Z] (or [nat] for lengths and indices).
    Equality of floats is [Qeq] ([==]).  A float division raises
    [ZeroDivisionError] on a zero divisor, which the embedding keeps as an
    explicit error result ([py_div]); a division by a non-zero literal
    cannot raise and is written [/]. *)

From Stdlib Require Import ZArith QArith Qminmax Qabs Qpower Lqa Lia List String Sorted.
From stdpp Require Import base option list gmap strings.

Local Open Scope Q_scope.

(* [set_solver] clears hypotheses that need not exist. *)
#[local] Set Warnings "-clear-no-such-hyp".

(** ** Python results: a value or a raised exception *)

Inductive exn : Type :=
  | ZeroDivisionError
  | ValueError
  | RecursionError
  | IndexError
  | OverflowError
  | TypeError.

Inductive res (A : Type) : Type :=
  | Ok (a : A)
  | Raise (e : exn).
Arguments Ok {A} a.
Arguments Raise {A} e.

#[global] Instance res_ret : MRet res := fun A a => Ok a.

#[global] Instance res_bind : MBind res := fun A B k m =>
  match m with
  | Ok a => k a
  | Raise e => Raise e
  end.

(** ** Float comparisons, [min], [max] and [/] *)

(** [x < y] on floats. *)
Definition Qltb (x y : Q) : bool :=
  match x ?= y with
  | Lt => true
  | _ => false
  end.

(** [x <= y] on floats. *)
Definition Qleb (x y : Q) : bool :=
  match x ?= y with
  | Gt => false
  | _ => true
  end.

(** The builtin [min(a, b)]: the first argument is kept unless the second
    is strictly smaller. *)
Definition py_min (a b : Q) : Q := if Qltb b a then b else a.

(** The builtin [max(a, b)]: the first argument is kept unless the second
    is strictly greater. *)
Definition py_max (a b : Q) : Q := if Qltb a b then b else a.

(** [x / y] on floats. *)
Definition py_div (x y : Q) : res Q :=
  if Qeq_bool y 0 then Raise ZeroDivisionError else Ok (x / y).

(** [abs(x)] on floats. *)
Definition py_abs (x : Q) : Q := if Qltb x 0 then - x else x.

(** The largest float, [sys.float_info.max]. *)
Definition float_max : Q := 2 ^ 1024 - 2 ^ 971.

(** [x ** 2] on floats: it raises [OverflowError] when the result is too
    large for a float. *)
Definition py_pow2 (x : Q) : res Q :=
  if Qltb float_max (x ^ 2) then Raise OverflowError else Ok (x ^ 2).

(** [sum(values)] on floats, from the integer start value [0]. *)
Definition py_sum (values : list Q) : Q := fold_left Qplus values 0.

(** ** Small helpers *)

(** [dedupe_keep_order]: the first occurrence of each item, in order.  The
    [seen] set is the accumulator of the source loop. *)
Fixpoint dedupe_loop (seen : gset string) (items : list string) : list string :=
  match items with
  | [] => []
  | x :: rest =>
      if decide (x ∈ seen) then dedupe_loop seen rest
      else x :: dedupe_loop ({[ x ]} ∪ seen) rest
  end.

Definition dedupe_keep_order (items : list string) : list string :=
  dedupe_loop ∅ items.

(** [max_drawdown]: one iteration of the loop over [series], on the pair
    [(peak, mdd)]. *)
Definition max_drawdown_step (st : Q * Q) (v : Q) : res (Q * Q) :=
  let '(peak, mdd) := st in
  let peak := if Qltb peak v then v else peak in
  dd ← (if negb (Qeq_bool peak 0) then py_div (peak - v) peak else Ok 0);
  Ok (peak, py_max mdd dd).

Fixpoint max_drawdown_loop (st : Q * Q) (series : list Q) : res (Q * Q) :=
  match series with
  | [] => Ok st
  | v :: rest => st' ← max_drawdown_step st v; max_drawdown_loop st' rest
  end.

Definition max_drawdown (series : list Q) : res (option Q) :=
  if (length series <? 2)%nat then Ok None
  else
    match series with
    | [] => Ok None
    | s0 :: _ =>
        '(_, mdd) ← max_drawdown_loop (s0, 0) series; Ok (Some mdd)
    end.

(** ** Rate limiter *)

Record RateLimiter : Type := mkRateLimiter {
  min_interval_s : Q;
  max_interval_s : Q;
  _last_ts : Q;
  _cooldown : Q
}.

(** [RateLimiter.__init__]. *)
Definition RateLimiter_init (min_interval max_interval : Q) : RateLimiter :=
  mkRateLimiter min_interval max_interval 0 0.

Definition note_error (rl : RateLimiter) : RateLimiter :=
  mkRateLimiter (min_interval_s rl) (max_interval_s rl) (_last_ts rl)
    (py_min (max_interval_s rl) (py_max (_cooldown rl * 1.6) (min_interval_s rl))).

Definition note_ok (rl : RateLimiter) : RateLimiter :=
  mkRateLimiter (min_interval_s rl) (max_interval_s rl) (_last_ts rl)
    (py_max 0 (_cooldown rl * 0.85 - 0.01)).

(** [wait]: [now] is the reading of [time.time()] on entry; the result is
    the limiter after the call and the clock reading on return (sleeping
    advances the clock to the target). *)
Definition wait (rl : RateLimiter) (now : Q) : RateLimiter * Q :=
  let target := _last_ts rl + min_interval_s rl + _cooldown rl in
  let now' := if Qltb now target then now + (target - now) else now in
  (mkRateLimiter (min_interval_s rl) (max_interval_s rl) now' (_cooldown rl), now').

(** A call made on the limiter by the transport. *)
Inductive limiter_call : Type :=
  | NoteError
  | NoteOk.

Definition limiter_apply (rl : RateLimiter) (c : limiter_call) : RateLimiter :=
  match c with
  | NoteError => note_error rl
  | NoteOk => note_ok rl
  end.

Definition limiter_run (rl : RateLimiter) (cs : list limiter_call) : RateLimiter :=
  fold_left limiter_apply cs rl.

(** ** Scoring *)

Inductive style : Type :=
  | aggressive
  | balanced
  | stable.

Definition style_label (risk : Q) (vol_pct_daily mdd_pct : option Q) : style :=
  let v := match vol_pct_daily with Some x => x | None => 0 end in
  let d := match mdd_pct with Some x => x | None => 0 end in
  if Qleb 70 risk || Qleb 5 v || Qleb 25 d then aggressive
  else if Qleb 40 risk || Qleb 2 v || Qleb 12 d then balanced
  else stable.

(** [max(iterable, default=d)] and [min(iterable, default=d)] on floats. *)
Definition py_max_list (d : Q) (l : list Q) : Q :=
  match l with
  | [] => d
  | x :: rest => fold_left py_max rest x
  end.

Definition py_min_list (d : Q) (l : list Q) : Q :=
  match l with
  | [] => d
  | x :: rest => fold_left py_min rest x
  end.

(** ** Data extraction / scoring *)

Inductive position_side : Type :=
  | LONG
  | SHORT.

Record PositionView : Type := mkPositionView {
  coin : string;
  side : position_side;
  size : Q;
  entry_px : Q;
  mid_px : option Q;
  position_value : Q;
  unrealized_pnl : Q;
  roe_pct : option Q;
  leverage : Q;
  liquidation_px : option Q;
  margin_used : Q;
  notional_pct_equity : option Q;
  liq_distance_pct : option Q;
  age_days : option Q
}.

(** The intermediate values of [risk_score], named as in the source. *)
Definition total_margin (positions : list PositionView) : Q :=
  py_sum (map margin_used positions).

Definition max_lev (positions : list PositionView) : Q :=
  py_max_list 0 (map leverage positions).

Definition liq_dists (positions : list PositionView) : list Q :=
  omap liq_distance_pct positions.

(** [closest]: [min(liq_dists)] when [liq_dists] is not empty. *)
Definition closest (positions : list PositionView) : option Q :=
  match liq_dists positions with
  | [] => None
  | d :: rest => Some (py_min_list 0 (d :: rest))
  end.

Definition risk_score (account_value : Q) (positions : list PositionView) : res Q :=
  if Qleb account_value 0 || bool_decide (positions = []) then Ok 0
  else
    r ← py_div (total_margin positions) account_value;
    let margin_ratio := py_min 1 r in
    let lev_score := py_min 1 (max_lev positions / 50) in
    let liq_score := match closest positions with
                     | None => 0.25
                     | Some c => 1 - py_min 1 (c / 50)
                     end in
    let score := 100 * (0.40 * margin_ratio + 0.30 * lev_score + 0.30 * liq_score) in
    Ok (py_max 0 (py_min 100 score)).

(** ** [sorted] *)

(** The builtin [sorted] is a stable sort.  [before x y] says that [x] has
    to come strictly before [y]: [key x < key y], or [key y < key x] under
    [reverse=True].  Items that neither come before the other keep their
    input order, which determines the result; it is computed here by
    insertion from the right. *)
Section py_sorted.
Context {A : Type} (before : A -> A -> bool).

Fixpoint sorted_insert (x : A) (l : list A) : list A :=
  match l with
  | [] => [x]
  | y :: rest => if before y x then y :: sorted_insert x rest else x :: y :: rest
  end.

Definition py_sorted (l : list A) : list A := foldr sorted_insert [] l.
End py_sorted.

(** [sorted(points, key=lambda x: x[0])] on [(timestamp, value)] pairs. *)
Definition sorted_by_ts (points : list (Z * Q)) : list (Z * Q) :=
  py_sorted (fun x y => (x.1 <? y.1)%Z) points.

(** ** Window metrics *)

(** [math.isfinite] on the floats of the number model.  The embedded
    values are the finite floats, and on them the test holds; inf and nan,
    which [json] and [to_float] let through and on which the test fails,
    are not values of the model: the statements about the window metrics
    are about finite account values. *)
Definition isfinite (v : Q) : bool := true.

Record Window : Type := mkWindow {
  account_values : list (Z * Q);
  pnls : list (Z * Q);
  volume : Q
}.

Record Metrics : Type := mkMetrics {
  growth_pct : option Q;
  pnl_pct : option Q;
  vol_pct_daily : option Q;
  max_drawdown_pct : option Q
}.

Definition baseline_eps_default : Q := 1e-9.

(** The scan for the first usable baseline: the index of the first value
    that is finite and exceeds [baseline_eps]; [i] is the index of the head
    of [vals]. *)
Fixpoint base_idx_from (baseline_eps : Q) (i : nat) (vals : list Q) : option nat :=
  match vals with
  | [] => None
  | v :: rest =>
      if isfinite v && Qltb baseline_eps v then Some i
      else base_idx_from baseline_eps (S i) rest
  end.

Definition base_idx (baseline_eps : Q) (av_vals : list Q) : option nat :=
  base_idx_from baseline_eps 0 av_vals.

(** The returns loop: one return per step whose previous value exceeds
    [baseline_eps]. *)
Fixpoint rets_loop (baseline_eps : Q) (av_slice : list Q) : res (list Q) :=
  match av_slice with
  | prev :: (cur :: _) as rest =>
      if Qltb baseline_eps prev then
        r ← py_div (cur - prev) prev;
        rs ← rets_loop baseline_eps rest;
        Ok (r :: rs)
      else rets_loop baseline_eps rest
  | _ => Ok []
  end.

(** The first PnL sample at or after the baseline time. *)
Fixpoint first_pnl_from (base_ts : Z) (pnls_sorted : list (Z * Q)) : option Q :=
  match pnls_sorted with
  | [] => None
  | (ts, pv) :: rest => if (base_ts <=? ts)%Z then Some pv else first_pnl_from base_ts rest
  end.

Section metrics.
(** [math.sqrt], from the Python standard library. *)
Variable sqrt : Q -> Q.

Definition stdev (values : list Q) : res (option Q) :=
  if (length values <? 2)%nat then Ok None
  else
    m ← py_div (py_sum values) (inject_Z (Z.of_nat (length values)));
    squares ← mapM (fun v => py_pow2 (v - m)) values;
    var ← py_div (py_sum squares) (inject_Z (Z.of_nat (length values) - 1));
    Ok (Some (sqrt var)).

(** The volatility block: the sample standard deviation of the returns
    of [av_slice], in percent. *)
Definition window_vol_pct_daily (baseline_eps : Q) (av_slice : list Q) : res (option Q) :=
  if (2 <=? length av_slice)%nat then
    rets ← rets_loop baseline_eps av_slice;
    vol ← (if (2 <=? length rets)%nat then stdev rets else Ok None);
    Ok (match vol with Some vol => Some (vol * 100) | None => None end)
  else Ok None.

(** The PnL block, entered once the growth has been computed. *)
Definition window_pnl_pct (pnls : list (Z * Q)) (base_ts : Z) (base_av : Q) : res (option Q) :=
  if (2 <=? length pnls)%nat then
    let pnls_sorted := sorted_by_ts pnls in
    match last pnls_sorted, pnls_sorted with
    | Some (_, end_pnl), (_, first_pnl) :: _ =>
        let base_pnl :=
          match first_pnl_from base_ts pnls_sorted with
          | Some pv => pv
          | None => first_pnl
          end in
        p ← py_div (end_pnl - base_pnl) base_av;
        Ok (Some (p * 100))
    | _, _ => Raise IndexError
    end
  else Ok None.

Definition window_return_metrics (win : Window) (baseline_eps : Q) : res Metrics :=
  let av := account_values win in
  if (length av <? 2)%nat then Ok (mkMetrics None None None None)
  else
    let av_sorted := sorted_by_ts av in
    let av_vals := map snd av_sorted in
    let bidx := base_idx baseline_eps av_vals in
    let slice_start := match bidx with Some i => i | None => O end in
    let av_slice := filter (fun v => isfinite v = true) (drop slice_start av_vals) in
    vol_pct_daily ← window_vol_pct_daily baseline_eps av_slice;
    mdd ← (if (2 <=? length av_slice)%nat then max_drawdown av_slice else Ok None);
    let max_drawdown_pct := match mdd with Some mdd => Some (mdd * 100) | None => None end in
    match bidx with
    | Some i =>
        if (Z.of_nat i <? Z.of_nat (length av_vals) - 1)%Z then
          match av_sorted !! i, last av_vals with
          | Some (base_ts, base_av), Some end_av =>
              if Qltb baseline_eps base_av then
                g ← py_div (end_av - base_av) base_av;
                let growth_pct := g * 100 in
                pnl_pct ← window_pnl_pct (pnls win) base_ts base_av;
                Ok (mkMetrics (Some growth_pct) pnl_pct vol_pct_daily max_drawdown_pct)
              else Ok (mkMetrics None None vol_pct_daily max_drawdown_pct)
          | _, _ => Raise IndexError
          end
        else Ok (mkMetrics None None vol_pct_daily max_drawdown_pct)
    | None => Ok (mkMetrics None None vol_pct_daily max_drawdown_pct)
    end.
End metrics.

(** ** Fills and position ages *)

(** The ["time"] field of a fill, by what the scanner can do with it: the
    key is absent, or its value is JSON null, or a value that [int()]
    converts (the integer the API sends), or a value on which [int()]
    raises [e] ([ValueError] for a string that is no number, [TypeError]
    for a list or a dict). *)
Inductive time_field : Type :=
  | TimeMissing
  | TimeNull
  | TimeInt (t_ms : Z)
  | TimeInvalid (e : exn).

(** One entry of the [userFills] response, with the fields the scanner
    reads: [fill_coin] is [f.get("coin")] when it is a string, [raw_time]
    is the ["time"] field (epoch milliseconds), [startPosition] and [sz] are
    the values of [to_float] on the fields of those names. *)
Record Fill : Type := mkFill {
  fill_coin : option string;
  raw_time : time_field;
  startPosition : Q;
  fill_side : string;
  sz : Q
}.

(** [int(f.get("time"))] when the field is there and converts. *)
Definition fill_time (f : Fill) : option Z :=
  match raw_time f with
  | TimeInt t_ms => Some t_ms
  | _ => None
  end.

(** The timestamps of [datetime.min] and [datetime.max] in UTC, in
    milliseconds. *)
Definition datetime_min_ms : Z := -62135596800000.
Definition datetime_max_ms : Z := 253402300799999.

(** [datetime.fromtimestamp(int(t_ms) / 1000, tz=timezone.utc)].  A
    datetime is kept as its epoch milliseconds.  Only the years 1 to 9999
    are representable: outside them the call raises ([ValueError]; for
    magnitudes beyond what the platform's [gmtime] or [time_t] takes Python
    raises [OSError] or [OverflowError] instead, which are not told apart
    here). *)
Definition fromtimestamp (t_ms : Z) : res Z :=
  if (datetime_min_ms <=? t_ms)%Z && (t_ms <=? datetime_max_ms)%Z then Ok t_ms
  else Raise ValueError.

Definition ages_eps : Q := 1e-10.

(** [end_pos]: the position after the fill. *)
Definition end_pos (f : Fill) : Q :=
  let delta := if String.eqb (fill_side f) "B" then sz f else - sz f in
  startPosition f + delta.

(** The three tests at the end of the loop body, for a fill at [ts]. *)
Definition open_time_update (open_time : option Z) (f : Fill) (ts : Z) : option Z :=
  let start_pos := startPosition f in
  let open_time :=
    if Qltb (py_abs start_pos) ages_eps && Qltb ages_eps (py_abs (end_pos f))
    then Some ts else open_time in
  let open_time :=
    if Qltb (py_abs (end_pos f)) ages_eps then None else open_time in
  if Qltb (start_pos * end_pos f) 0 then Some ts else open_time.

(** The body of the loop over [fs_sorted], on [open_time]: a fill without
    a time is skipped, the time of the others is converted first. *)
Definition open_time_step (open_time : option Z) (f : Fill) : res (option Z) :=
  match raw_time f with
  | TimeMissing | TimeNull => Ok open_time
  | TimeInvalid e => Raise e
  | TimeInt t_ms => ts ← fromtimestamp t_ms; Ok (open_time_update open_time f ts)
  end.

(** A loop whose body can raise. *)
Fixpoint fold_res {A B : Type} (f : A -> B -> res A) (l : list B) (a : A) : res A :=
  match l with
  | [] => Ok a
  | x :: rest => a' ← f a x; fold_res f rest a'
  end.

(** The sort key [int(x.get("time", 0))]: 0 for an absent key; on JSON
    null [int(None)] raises [TypeError]. *)
Definition time_key (f : Fill) : res Z :=
  match raw_time f with
  | TimeMissing => Ok 0%Z
  | TimeNull => Raise TypeError
  | TimeInt t_ms => Ok t_ms
  | TimeInvalid e => Raise e
  end.

(** [sorted(fs, key=lambda x: int(x.get("time", 0)))]: the keys are
    computed first, in the order of [fs], then the fills are sorted by
    key. *)
Definition sorted_by_time (fs : list Fill) : res (list Fill) :=
  keys ← mapM time_key fs;
  Ok (map snd (py_sorted (fun x y => (x.1 <? y.1)%Z) (zip keys fs))).

(** [by_coin.setdefault(coin, []).append(f)], on a dict kept in insertion
    order. *)
Fixpoint by_coin_append (coin : string) (f : Fill) (by_coin : list (string * list Fill))
    : list (string * list Fill) :=
  match by_coin with
  | [] => [(coin, [f])]
  | (c, fs) :: rest =>
      if String.eqb c coin then (c, fs ++ [f]) :: rest
      else (c, fs) :: by_coin_append coin f rest
  end.

Definition group_by_coin (needed : gset string) (fills : list Fill)
    : list (string * list Fill) :=
  fold_left
    (fun by_coin f =>
       match fill_coin f with
       | Some coin => if decide (coin ∈ needed) then by_coin_append coin f by_coin else by_coin
       | None => by_coin
       end)
    fills [].

(** [{p.coin: p.size for p in positions}]: a later position of a coin
    overwrites an earlier one. *)
Definition cur_by_coin (positions : list PositionView) : gmap string Q :=
  fold_left (fun m p => <[coin p := size p]> m) positions ∅.

(** The age in days of a position opened at [t_ms], [now] being the
    reading of [utcnow()] in epoch seconds.  The divisors are non-zero
    literals. *)
Definition age_from (now : Q) (t_ms : Z) : Q := (now - inject_Z t_ms / 1000) / 86400.

(** The fallback on the first fill of [fs_sorted] when the loop left no
    opening time. *)
Definition first_fill_time (fs_sorted : list Fill) : res (option Z) :=
  match fs_sorted with
  | f0 :: _ =>
      match raw_time f0 with
      | TimeMissing | TimeNull => Ok None
      | TimeInvalid e => Raise e
      | TimeInt t_ms => ts ← fromtimestamp t_ms; Ok (Some ts)
      end
  | [] => Ok None
  end.

(** The body of the loop over [by_coin.items()]: the age to record for
    [coin], if any. *)
Definition coin_age (now : Q) (cur : gmap string Q) (coin : string) (fs : list Fill)
    : res (option Q) :=
  fs_sorted ← sorted_by_time fs;
  open_time ← fold_res open_time_step fs_sorted None;
  let cur_size := default 0 (cur !! coin) in
  if Qltb (py_abs cur_size) ages_eps then Ok None
  else
    open_time ← match open_time with
                | None => first_fill_time fs_sorted
                | Some _ => Ok open_time
                end;
    Ok (match open_time with
        | Some t_ms => Some (age_from now t_ms)
        | None => None
        end).

Definition infer_position_ages_from_fills (now : Q) (fills : list Fill)
    (positions : list PositionView) : res (gmap string Q) :=
  let needed : gset string := list_to_set (map coin positions) in
  let cur := cur_by_coin positions in
  fold_res
    (fun ages '(coin, fs) =>
       age ← coin_age now cur coin fs;
       Ok (match age with
           | Some age => <[coin := age]> ages
           | None => ages
           end))
    (group_by_coin needed fills) ∅.

(** [last_trade_time_from_fills]: the body of the loop on [best]; a time
    that is absent, null or does not convert is skipped. *)
Definition last_trade_step (best : option Z) (f : Fill) : option Z :=
  match fill_time f with
  | None => best
  | Some t_int =>
      match best with
      | None => Some t_int
      | Some b => if (b <? t_int)%Z then Some t_int else best
      end
  end.

(** [last_trade_time_from_fills]: [fills] is [None] when the fills could
    not be fetched; the result is the time of the last trade, converted by
    [datetime.fromtimestamp]. *)
Definition last_trade_time_from_fills (fills : option (list Fill)) : res (option Z) :=
  match fills with
  | None => Ok None
  | Some [] => Ok None
  | Some fs =>
      match fold_left last_trade_step fs None with
      | None => Ok None
      | Some best => ts ← fromtimestamp best; Ok (Some ts)
      end
  end.

(** ** Rank scores and ranks *)

Inductive rank_key : Type :=
  | Risk
  | Pnl
  | Stability
  | Conviction.

Record RankScores : Type := mkRankScores {
  rs_risk : Q;
  rs_pnl : Q;
  rs_stability : Q;
  rs_conviction : Q
}.

(** The wallet dict built by [wallet_obj], with the keys the scoring and
    ranking read or write.  [wallet_positions] holds the position dicts,
    [portfolio_month], [portfolio_week] and [portfolio_allTime] the entries
    of the ["portfolio"] dict, [wallet_risk_score] the ["risk_score"] key. *)
Record Wallet : Type := mkWallet {
  address : string;
  wallet_account_value : Q;
  wallet_positions : list PositionView;
  exposure_pct : option Q;
  portfolio_month : option Metrics;
  portfolio_week : option Metrics;
  portfolio_allTime : option Metrics;
  wallet_risk_score : Q;
  wallet_style : option style;
  rank_scores : option RankScores;
  ranks : rank_key -> option nat
}.

(** [x or 0.0] on an optional float. *)
Definition or_zero (x : option Q) : Q := default 0 x.

Definition compute_rank_scores (wallet : Wallet) : res RankScores :=
  let r := wallet_risk_score wallet in
  let exposure := or_zero (exposure_pct wallet) in
  let m := portfolio_month wallet in
  let w := portfolio_week wallet in
  let a := portfolio_allTime wallet in
  let pnl_val := m ≫= pnl_pct in
  let pnl_val := match pnl_val with Some _ => pnl_val | None => w ≫= pnl_pct end in
  let pnl_val := match pnl_val with Some _ => pnl_val | None => a ≫= pnl_pct end in
  let pnl := or_zero pnl_val in
  let vol := or_zero (m ≫= vol_pct_daily) in
  let mdd := or_zero (m ≫= max_drawdown_pct) in
  let stability := py_max 0 (100 - vol * 10 - mdd * 2) in
  let ages := omap age_days (wallet_positions wallet) in
  avg_age ← match ages with
            | [] => Ok 0
            | _ => py_div (py_sum ages) (inject_Z (Z.of_nat (length ages)))
            end;
  let conviction := avg_age * 2 + exposure * 0.5 - r * 0.5 in
  Ok (mkRankScores r pnl stability conviction).

(** [float((x.get("rank_scores") or {}).get(key) or 0.0)], the sort key. *)
Definition rank_score (key : rank_key) (x : Wallet) : Q :=
  match rank_scores x with
  | Some s =>
      match key with
      | Risk => rs_risk s
      | Pnl => rs_pnl s
      | Stability => rs_stability s
      | Conviction => rs_conviction s
      end
  | None => 0
  end.

(** [sorted(wallets, key=..., reverse=True)]. *)
Definition sorted_by_score (key : rank_key) (wallets : list Wallet) : list Wallet :=
  py_sorted (fun x y => Qltb (rank_score key y) (rank_score key x)) wallets.

(** [for i, w in enumerate(ordered, i0): ranks[key][w["address"]] = i]. *)
Fixpoint assign_ranks (i : nat) (ordered : list Wallet) (m : gmap string nat)
    : gmap string nat :=
  match ordered with
  | [] => m
  | w :: rest => assign_ranks (S i) rest (<[address w := i]> m)
  end.

Definition set_rank_scores (w : Wallet) (s : RankScores) : Wallet :=
  mkWallet (address w) (wallet_account_value w) (wallet_positions w) (exposure_pct w)
    (portfolio_month w) (portfolio_week w) (portfolio_allTime w)
    (wallet_risk_score w) (wallet_style w) (Some s) (ranks w).

Definition set_ranks (w : Wallet) (r : rank_key -> option nat) : Wallet :=
  mkWallet (address w) (wallet_account_value w) (wallet_positions w) (exposure_pct w)
    (portfolio_month w) (portfolio_week w) (portfolio_allTime w)
    (wallet_risk_score w) (wallet_style w) (rank_scores w) r.

(** [apply_ranks] updates the wallets in place; the result is the list
    after the call. *)
Definition apply_ranks (wallets : list Wallet) : res (list Wallet) :=
  wallets ← mapM (fun w => s ← compute_rank_scores w; Ok (set_rank_scores w s)) wallets;
  let ranks := fun key => assign_ranks 1 (sorted_by_score key wallets) ∅ in
  Ok (map (fun w => set_ranks w (fun k => ranks k !! address w)) wallets).

(** ** Core client (retries and pacing) *)

Record RetryCfg : Type := mkRetryCfg {
  retries : Z;
  timeout_s : Z;
  backoff_base_s : Q;
  backoff_cap_s : Q;
  jitter_s : Q
}.

(** The defaults of the [RetryCfg] dataclass. *)
Definition RetryCfg_default : RetryCfg := mkRetryCfg 4 20 0.8 10 0.25.

(** A parsed JSON value.  [JNull] is Python's [None]. *)
#[local] Unset Elimination Schemes.
Inductive json : Type :=
  | JNull
  | JBool (b : bool)
  | JNum (x : Q)
  | JStr (s : string)
  | JList (items : list json)
  | JDict (fields : list (string * json)).
#[local] Set Elimination Schemes.

(** The payloads posted to the info endpoint. *)
Inductive payload : Type :=
  | AllMids
  | ClearinghouseState (user : string)
  | BatchClearinghouseStates (users : list string)
  | UserFills (user : string)
  | Portfolio (user : string).

(** What one [sess.post] does: it raises, or it returns a response with a
    status code and a body; [body] is the value of [r.json()], [None] when
    parsing raises. *)
Inductive http_result : Type :=
  | PostRaises
  | Response (status_code : Z) (body : option json).

(** The environment of a run: the outcome of the [n]-th post (counted from
    0) and the [n]-th reading of [random.random()]. *)
Record Env : Type := mkEnv {
  http_post : nat -> payload -> http_result;
  random : nat -> Q
}.

(** What the client does, in order. *)
Inductive event : Type :=
  | EvWait
  | EvPost (p : payload)
  | EvNoteOk
  | EvNoteError
  | EvSleep (seconds : Q).

(** The mutable state of an [HLClient]: its limiter, the clock, the number
    of posts and of random readings so far, and the log of its actions. *)
Record Client : Type := mkClient {
  limiter : RateLimiter;
  clock : Q;
  posts : nat;
  randoms : nat;
  log : list event
}.

(** [HLClient.__init__] with the default limiter, at clock reading [now]. *)
Definition HLClient_init (now : Q) : Client :=
  mkClient (RateLimiter_init 0.15 1) now 0 0 [].

Definition client_wait (c : Client) : Client :=
  let '(rl, now) := wait (limiter c) (clock c) in
  mkClient rl now (posts c) (randoms c) (log c ++ [EvWait]).

Definition client_note_ok (c : Client) : Client :=
  mkClient (note_ok (limiter c)) (clock c) (posts c) (randoms c) (log c ++ [EvNoteOk]).

Definition client_note_error (c : Client) : Client :=
  mkClient (note_error (limiter c)) (clock c) (posts c) (randoms c) (log c ++ [EvNoteError]).

Definition client_post (env : Env) (p : payload) (c : Client) : http_result * Client :=
  (http_post env (posts c) p,
   mkClient (limiter c) (clock c) (S (posts c)) (randoms c) (log c ++ [EvPost p])).

(** [_sleep_backoff] when it returns: the client after the sleep. *)
Definition _sleep_backoff (env : Env) (retry : RetryCfg) (attempt : Z) (c : Client) : Client :=
  let base := py_min (backoff_cap_s retry) (backoff_base_s retry * 2 ^ attempt) in
  let jitter := random env (randoms c) * jitter_s retry in
  mkClient (limiter c) (clock c + (base + jitter)) (posts c) (S (randoms c))
    (log c ++ [EvSleep (base + jitter)]).

(** The exception [_sleep_backoff] raises instead of returning, if any:
    [2 ** attempt] is an int, and its product with the float
    [backoff_base_s] raises [OverflowError] when the int is too large for a
    float, from [2 ** 1024] on; [time.sleep] raises [ValueError] on a
    negative length.  The retry loop below is the run in which no sleep
    raises, as is the case for at most 1024 retries, non-negative backoff
    settings and random readings in [[0, 1)]. *)
Definition sleep_backoff_error (env : Env) (retry : RetryCfg) (attempt : Z) (c : Client)
    : option exn :=
  if (1024 <=? attempt)%Z then Some OverflowError
  else
    let base := py_min (backoff_cap_s retry) (backoff_base_s retry * 2 ^ attempt) in
    let jitter := random env (randoms c) * jitter_s retry in
    if Qltb (base + jitter) 0 then Some ValueError else None.

(** How one iteration of the retry loop ends: with [return out], or with
    [continue]. *)
Inductive attempt_result : Type :=
  | Returned (out : json)
  | Continue.

(** The shared tail of the retryable branches. *)
Definition retry_or_give_up (env : Env) (retry : RetryCfg) (attempt : Z) (c : Client)
    : attempt_result * Client :=
  if (attempt <? retries retry)%Z then (Continue, _sleep_backoff env retry attempt c)
  else (Returned JNull, c).

(** [r.status_code in (429, 500, 502, 503, 504)]. *)
Definition retryable_status (status_code : Z) : bool :=
  bool_decide (status_code ∈ [429; 500; 502; 503; 504]%Z).

(** The body of the loop of [_post_json]. *)
Definition post_attempt (env : Env) (retry : RetryCfg) (p : payload) (attempt : Z)
    (c : Client) : attempt_result * Client :=
  let c := client_wait c in
  let '(r, c) := client_post env p c in
  match r with
  | PostRaises => retry_or_give_up env retry attempt (client_note_error c)
  | Response status_code body =>
      if (status_code =? 200)%Z then
        match body with
        | Some out => (Returned out, client_note_ok c)
        | None => retry_or_give_up env retry attempt (client_note_error c)
        end
      else if retryable_status status_code then
        retry_or_give_up env retry attempt (client_note_error c)
      else (Returned JNull, client_note_ok c)
  end.

(** The loop of [_post_json] from [attempt] on, with [n] iterations left. *)
Fixpoint post_loop (env : Env) (retry : RetryCfg) (p : payload) (n : nat) (attempt : Z)
    (c : Client) : json * Client :=
  match n with
  | O => (JNull, c)
  | S n' =>
      match post_attempt env retry p attempt c with
      | (Returned out, c') => (out, c')
      | (Continue, c') => post_loop env retry p n' (attempt + 1) c'
      end
  end.

Definition _post_json (env : Env) (retry : RetryCfg) (p : payload) (c : Client)
    : json * Client :=
  post_loop env retry p (Z.to_nat (retries retry + 1)) 0 c.

(** [clearinghouse_state]: the response when it is a dict, else [None]. *)
Definition clearinghouse_state (env : Env) (retry : RetryCfg) (user : string) (c : Client)
    : json * Client :=
  let '(data, c) := _post_json env retry (ClearinghouseState user) c in
  (match data with JDict _ => data | _ => JNull end, c).

(** ** Adaptive batch fetcher *)

(** [chunks(lst, n)] for [n > 0]: consecutive slices of length [n]; the
    fuel bounds the number of slices. *)
Fixpoint chunks_from (fuel n : nat) (lst : list string) : list (list string) :=
  match fuel with
  | O => []
  | S fuel' =>
      match lst with
      | [] => []
      | _ => take n lst :: chunks_from fuel' n (drop n lst)
      end
  end.

(** [list(chunks(lst, n))]: [range(0, len(lst), n)] raises [ValueError]
    for a zero step and is empty for a negative one. *)
Definition chunks (lst : list string) (n : Z) : res (list (list string)) :=
  if (n =? 0)%Z then Raise ValueError
  else if (n <? 0)%Z then Ok []
  else Ok (chunks_from (length lst) (Z.to_nat n) lst).

(** The accumulators of the fetcher: the [states] dict and the [failed]
    list. *)
Definition fetched : Type := gmap string json * list string.

(** A computation on the client that can raise. *)
Definition fetch (A : Type) : Type := Client -> res (A * Client).

(** [isinstance(st, dict)]. *)
Definition is_dict (st : json) : bool :=
  match st with
  | JDict _ => true
  | _ => false
  end.

(** The truth value of the result of [clearinghouse_state]: a dict that is
    not empty. *)
Definition truthy_state (st : json) : bool :=
  match st with
  | JDict (_ :: _) => true
  | _ => false
  end.

(** [for addr, st in zip(part, resp)]. *)
Fixpoint pair_states (part : list string) (resp : list json) (acc : fetched) : fetched :=
  match part, resp with
  | addr :: part', st :: resp' =>
      let '(states, failed) := acc in
      pair_states part' resp'
        (if is_dict st then (<[addr := st]> states, failed) else (states, failed ++ [addr]))
  | _, _ => acc
  end.

(** The per-user fallback loop over [part]. *)
Fixpoint fallback_states (env : Env) (retry : RetryCfg) (part : list string)
    (acc : fetched) (c : Client) : fetched * Client :=
  match part with
  | [] => (acc, c)
  | addr :: part' =>
      let '(states, failed) := acc in
      let '(st, c) := clearinghouse_state env retry addr c in
      fallback_states env retry part'
        (if truthy_state st then (<[addr := st]> states, failed) else (states, failed ++ [addr]))
        c
  end.

(** [states.update(sub_states); failed.extend(sub_failed)]. *)
Definition merge_fetched (acc sub : fetched) : fetched :=
  (sub.1 ∪ acc.1, acc.2 ++ sub.2).

(** The response is a list with one entry per user of [part]. *)
Definition resp_items (resp : json) (part : list string) : option (list json) :=
  match resp with
  | JList items => if (length items =? length part)%nat then Some items else None
  | _ => None
  end.

Section fetch_parts.
Variables (env : Env) (retry : RetryCfg).
Variables (min_batch_size : Z) (fallback_per_user : bool).

(** The recursive call of the fetcher on a half, at a given batch size. *)
Variable recurse : list string -> Z -> fetch fetched.

(** The body of the loop over [parts]. *)
Definition fetch_part (part : list string) (acc : fetched) : fetch fetched :=
  fun c =>
    let '(resp, c) := _post_json env retry (BatchClearinghouseStates part) c in
    match resp_items resp part with
    | Some items => Ok (pair_states part items acc, c)
    | None =>
        if (min_batch_size <? Z.of_nat (length part))%Z then
          let mid := (length part / 2)%nat in
          let left := take mid part in
          let right := drop mid part in
          '(sub, c) ← recurse left (Z.max min_batch_size (Z.of_nat (length left))) c;
          let acc := merge_fetched acc sub in
          '(sub, c) ← recurse right (Z.max min_batch_size (Z.of_nat (length right))) c;
          Ok (merge_fetched acc sub, c)
        else if fallback_per_user then Ok (fallback_states env retry part acc c)
        else Ok ((acc.1, acc.2 ++ part), c)
    end.

Fixpoint fetch_parts (parts : list (list string)) (acc : fetched) : fetch fetched :=
  fun c =>
    match parts with
    | [] => Ok (acc, c)
    | part :: rest => '(acc, c) ← fetch_part part acc c; fetch_parts rest acc c
    end.
End fetch_parts.

(** [batch_clearinghouse_states_adaptive].  The fuel is the depth of
    recursion the interpreter still allows. *)
Fixpoint batch_clearinghouse_states_adaptive (fuel : nat) (env : Env) (retry : RetryCfg)
    (users : list string) (batch_size min_batch_size : Z) (fallback_per_user : bool)
    : fetch fetched :=
  fun c =>
    match fuel with
    | O => Raise RecursionError
    | S fuel' =>
        parts ← chunks users batch_size;
        '((states, failed), c) ←
          fetch_parts env retry min_batch_size fallback_per_user
            (fun half size =>
               batch_clearinghouse_states_adaptive fuel' env retry half size
                 min_batch_size fallback_per_user)
            parts (∅, []) c;
        Ok ((states, filter (fun a => states !! a = None) (dedupe_keep_order failed)), c)
    end.

(** ** Output order *)

(** The four rank keys, as the strings [sort_wallets] accepts. *)
Definition rank_key_of (by_ : string) : option rank_key :=
  if String.eqb by_ "risk" then Some Risk
  else if String.eqb by_ "pnl" then Some Pnl
  else if String.eqb by_ "stability" then Some Stability
  else if String.eqb by_ "conviction" then Some Conviction
  else None.

(** [sorted(wallets, key=lambda w: float(w.get("account_value") or 0.0),
    reverse=True)]. *)
Definition sorted_by_account_value (wallets : list Wallet) : list Wallet :=
  py_sorted (fun x y => Qltb (wallet_account_value y) (wallet_account_value x)) wallets.

Section sort_wallets.
(** [str.lower], from the Python standard library. *)
Variable lower : string -> string.

Definition sort_wallets (wallets : list Wallet) (by_ : string) : list Wallet :=
  let by_ := lower by_ in
  match rank_key_of by_ with
  | Some key => sorted_by_score key wallets
  | None =>
      if String.eqb by_ "account_value" then sorted_by_account_value wallets
      else wallets
  end.
End sort_wallets.

(** ** Risk and style of the wallets *)

Definition set_risk_style (w : Wallet) (r : Q) (s : style) : Wallet :=
  mkWallet (address w) (wallet_account_value w) (wallet_positions w) (exposure_pct w)
    (portfolio_month w) (portfolio_week w) (portfolio_allTime w)
    r (Some s) (rank_scores w) (ranks w).

(** The body of the loop of [finalize_wallets], local to [main]. *)
Definition finalize_wallet (w : Wallet) : res Wallet :=
  let av := wallet_account_value w in
  r ← risk_score av (wallet_positions w);
  let m := portfolio_month w in
  let v := m ≫= vol_pct_daily in
  let d := m ≫= max_drawdown_pct in
  Ok (set_risk_style w r (style_label r v d)).

Definition finalize_wallets (wallets : list Wallet) : res (list Wallet) :=
  mapM finalize_wallet wallets.

(** ** [extract_positions] *)

(** One entry of [assetPositions] whose ["position"] is a dict, with the
    fields the scanner reads: [szi], [entryPx], [positionValue],
    [unrealizedPnl] and [marginUsed] are the values of [to_float] on the
    fields of those names, [raw_coin] is [str(pos.get("coin") or "Unknown")],
    [returnOnEquity] is [None] when the field is null, [raw_leverage] is
    [to_float] of the ["value"] of the leverage dict (0.0 without one), and
    [liquidationPx] is [None] when the field is null or the empty string. *)
Record RawPosition : Type := mkRawPosition {
  szi : Q;
  raw_coin : string;
  entryPx : Q;
  positionValue : Q;
  unrealizedPnl : Q;
  returnOnEquity : option Q;
  raw_leverage : Q;
  liquidationPx : option Q;
  marginUsed : Q
}.

(** The truth value of a float. *)
Definition truthy (x : Q) : bool := negb (Qeq_bool x 0).

Definition szi_eps : Q := 1e-12.

(** The body of the loop, for an entry that is not skipped for its type;
    [None] when the entry is skipped for its size. *)
Definition extract_position (account_value : Q) (mids : gmap string Q) (pos : RawPosition)
    : res (option PositionView) :=
  if Qltb (py_abs (szi pos)) szi_eps then Ok None
  else
    let roe_pct := match returnOnEquity pos with Some r => Some (r * 100) | None => None end in
    let liq_px := liquidationPx pos in
    let side := if Qltb 0 (szi pos) then LONG else SHORT in
    let mid_px := match mids !! raw_coin pos with
                  | Some mid => if truthy mid && Qltb 0 mid then Some mid else None
                  | None => None
                  end in
    notional_pct_equity ←
      (if Qltb 0 account_value then
         x ← py_div (py_abs (positionValue pos)) account_value; Ok (Some (x * 100))
       else Ok None);
    liq_distance_pct ←
      match mid_px, liq_px with
      | Some m, Some l =>
          if truthy m && truthy l && Qltb 0 m then
            x ← py_div (py_abs (m - l)) m; Ok (Some (x * 100))
          else Ok None
      | _, _ => Ok None
      end;
    Ok (Some (mkPositionView (raw_coin pos) side (szi pos) (entryPx pos) mid_px
                (positionValue pos) (unrealizedPnl pos) roe_pct (raw_leverage pos) liq_px
                (marginUsed pos) notional_pct_equity liq_distance_pct None)).

(** [aps] is [state.get("assetPositions") or []] when that is a list; an
    entry that is not a dict, or whose ["position"] is not one, is [None]
    and is skipped. *)
Fixpoint extract_positions (aps : list (option RawPosition)) (account_value : Q)
    (mids : gmap string Q) : res (list PositionView) :=
  match aps with
  | [] => Ok []
  | None :: rest => extract_positions rest account_value mids
  | Some pos :: rest =>
      p ← extract_position account_value mids pos;
      out ← extract_positions rest account_value mids;
      Ok (match p with Some p => p :: out | None => out end)
  end.

(** ** Notions used in the statements *)

(** The limiter is well formed and its cooldown is within bounds. *)
Definition limiter_inv (rl : RateLimiter) : Prop :=
  0 <= min_interval_s rl /\ min_interval_s rl <= max_interval_s rl
  /\ 0 <= _cooldown rl /\ _cooldown rl <= max_interval_s rl.

(** The score as a function of the three ratios the source computes. *)
Definition risk_blend (r l : Q) (c : option Q) : Q :=
  py_max 0 (py_min 100
    (100 * (0.40 * py_min 1 r + 0.30 * py_min 1 l
            + 0.30 * match c with None => 0.25 | Some c => 1 - py_min 1 (c / 50) end))).

(** The other inputs of a comparison are held fixed. *)
Definition same_closest (ps ps' : list PositionView) : Prop :=
  match closest ps, closest ps' with
  | Some d, Some d' => d == d'
  | None, None => True
  | _, _ => False
  end.

(** In [l] no item has to come before its predecessor. *)
Fixpoint in_order {A : Type} (before : A -> A -> bool) (l : list A) : Prop :=
  match l with
  | x :: (y :: _) as rest => before y x = false /\ in_order before rest
  | _ => True
  end.

(** [x] occurs in [l] at a position before an occurrence of [y]. *)
Fixpoint precedes {A : Type} (x y : A) (l : list A) : Prop :=
  match l with
  | [] => False
  | a :: rest => (a = x /\ y ∈ rest) \/ precedes x y rest
  end.

(** The fill opens a position: it starts from (about) zero and ends away
    from zero. *)
Definition opens (f : Fill) : Prop :=
  py_abs (startPosition f) < ages_eps /\ ages_eps < py_abs (end_pos f).

(** The fill closes the position: it ends at (about) zero. *)
Definition closes (f : Fill) : Prop := py_abs (end_pos f) < ages_eps.

(** The identifiers accounted for by the accumulators of the fetcher. *)
Definition covered (acc : fetched) : gset string := dom acc.1 ∪ list_to_set acc.2.

(** The result splits [users]: every user is a key of the states or in the
    failed list, no failed user has a state, and no user fails twice. *)
Definition partitioned (users : list string) (r : fetched) : Prop :=
  covered r = list_to_set users
  /\ (forall a, a ∈ r.2 -> r.1 !! a = None)
  /\ NoDup r.2.

(** The fill flips the position: before and after have opposite signs. *)
Definition flips (f : Fill) : Prop := startPosition f * end_pos f < 0.

(** [by_coin.get(c)] on the grouped fills. *)
Fixpoint by_coin_get (c : string) (by_coin : list (string * list Fill))
    : option (list Fill) :=
  match by_coin with
  | [] => None
  | (c0, fs) :: rest => if String.eqb c0 c then Some fs else by_coin_get c rest
  end.

(** The fills of instrument [c], in the order of the log. *)
Definition fills_of (c : string) (fills : list Fill) : list Fill :=
  base.filter (fun f => fill_coin f = Some c) fills.

(** The labels in increasing order of aggressiveness. *)
Definition severity (s : style) : nat :=
  match s with
  | stable => 0
  | balanced => 1
  | aggressive => 2
  end.

(** What [extract_positions] guarantees of a position it reports. *)
Definition position_ok (account_value : Q) (mids : gmap string Q) (p : PositionView) : Prop :=
  szi_eps <= py_abs (size p)
  /\ (side p = LONG <-> 0 < size p)
  /\ (forall m, mid_px p = Some m -> 0 < m /\ mids !! coin p = Some m)
  /\ (forall x, notional_pct_equity p = Some x -> 0 < account_value /\ 0 <= x)
  /\ (forall x, liq_distance_pct p = Some x ->
        0 <= x /\ exists m l, mid_px p = Some m /\ liquidation_px p = Some l /\ ~ l == 0)
  /\ age_days p = None.

(** The time of the fill can be sorted and converted: the key is absent,
    or an integer within the range of datetime. *)
Definition sound_time (f : Fill) : Prop :=
  match raw_time f with
  | TimeMissing => True
  | TimeInt t_ms => (datetime_min_ms <= t_ms <= datetime_max_ms)%Z
  | TimeNull | TimeInvalid _ => False
  end.

(** The order of the sort by time when every key is defined. *)
Definition by_time (x y : Fill) : bool :=
  (default 0 (fill_time x) <? default 0 (fill_time y))%Z.

(** The loop body on a fill whose time converts. *)
Definition open_time_next (open_time : option Z) (f : Fill) : option Z :=
  match fill_time f with
  | None => open_time
  | Some ts => open_time_update open_time f ts
  end.

(** The age [coin_age] records on fills with sound times. *)
Definition sound_coin_age (now : Q) (cur : gmap string Q) (coin : string) (fs : list Fill)
    : option Q :=
  let fs_sorted := py_sorted by_time fs in
  let open_time := fold_left open_time_next fs_sorted None in
  if Qltb (py_abs (default 0 (cur !! coin))) ages_eps then None
  else
    let open_time :=
      match open_time, fs_sorted with
      | None, f0 :: _ => fill_time f0
      | _, _ => open_time
      end in
    match open_time with
    | Some t_ms => Some (age_from now t_ms)
    | None => None
    end.

(** * Properties *)

Lemma Qltb_lt (x y : Q) : Qltb x y = true <-> x < y.
Proof.
  unfold Qltb. destruct (Qcompare_spec x y); split; (congruence || lra).
Qed.

Lemma Qltb_ge (x y : Q) : Qltb x y = false <-> y <= x.
Proof.
  unfold Qltb. destruct (Qcompare_spec x y); split; (congruence || lra).
Qed.

Lemma Qleb_le (x y : Q) : Qleb x y = true <-> x <= y.
Proof.
  unfold Qleb. destruct (Qcompare_spec x y); split; (congruence || lra).
Qed.

Lemma Qleb_gt (x y : Q) : Qleb x y = false <-> y < x.
Proof.
  unfold Qleb. destruct (Qcompare_spec x y); split; (congruence || lra).
Qed.

Lemma py_min_spec (a b : Q) :
  (b < a /\ py_min a b = b) \/ (a <= b /\ py_min a b = a).
Proof.
  unfold py_min. destruct (Qltb b a) eqn:E.
  - left. split; [now apply Qltb_lt | reflexivity].
  - right. split; [now apply Qltb_ge | reflexivity].
Qed.

Lemma py_max_spec (a b : Q) :
  (a < b /\ py_max a b = b) \/ (b <= a /\ py_max a b = a).
Proof.
  unfold py_max. destruct (Qltb a b) eqn:E.
  - left. split; [now apply Qltb_lt | reflexivity].
  - right. split; [now apply Qltb_ge | reflexivity].
Qed.

Lemma py_min_Qmin (a b : Q) : py_min a b == Qmin a b.
Proof.
  destruct (py_min_spec a b) as [[H ->] | [H ->]].
  - symmetry. apply Q.min_r. lra.
  - symmetry. now apply Q.min_l.
Qed.

Lemma py_max_Qmax (a b : Q) : py_max a b == Qmax a b.
Proof.
  destruct (py_max_spec a b) as [[H ->] | [H ->]].
  - symmetry. apply Q.max_r. lra.
  - symmetry. now apply Q.max_l.
Qed.

Ltac py_case spec a b t :=
  let x := fresh "x" in
  let Hx := fresh "Hx" in
  let H := fresh "Hm" in
  pose proof (spec a b) as H;
  remember t as x eqn:Hx; clear Hx;
  destruct H as [[H ->] | [H ->]].

(** Case analysis on every [py_min] and [py_max] of the goal and context. *)
Ltac py_minmax :=
  repeat match goal with
    | |- context [py_min ?a ?b] => py_case py_min_spec a b (py_min a b)
    | |- context [py_max ?a ?b] => py_case py_max_spec a b (py_max a b)
    | _ : context [py_min ?a ?b] |- _ => py_case py_min_spec a b (py_min a b)
    | _ : context [py_max ?a ?b] |- _ => py_case py_max_spec a b (py_max a b)
    end.

(** ** [max_drawdown] *)

Lemma py_div_ok (x y : Q) : ~ y == 0 -> py_div x y = Ok (x / y).
Proof.
  intros H. unfold py_div. destruct (Qeq_bool y 0) eqn:E; [|reflexivity].
  apply Qeq_bool_iff in E. contradiction.
Qed.

Lemma max_drawdown_step_ok (peak mdd v : Q) :
  exists peak' mdd',
    max_drawdown_step (peak, mdd) v = Ok (peak', mdd')
    /\ (0 <= mdd -> 0 <= mdd')
    /\ (0 <= v -> 0 <= mdd -> mdd <= 1 -> mdd' <= 1).
Proof.
  unfold max_drawdown_step.
  set (p := if Qltb peak v then v else peak).
  assert (Hp : v <= p).
  { subst p. destruct (Qltb peak v) eqn:E; [lra|]. now apply Qltb_ge in E. }
  destruct (Qeq_bool p 0) eqn:E; simpl.
  - exists p, (py_max mdd 0). split; [reflexivity|].
    split; intros; py_minmax; lra.
  - assert (Hp0 : ~ p == 0) by (intros Hc; apply Qeq_bool_iff in Hc; congruence).
    rewrite (py_div_ok _ _ Hp0). simpl.
    exists p, (py_max mdd ((p - v) / p)). split; [reflexivity|].
    split; intros; py_minmax; try lra.
    apply Qle_shift_div_r; lra.
Qed.

Lemma max_drawdown_loop_ok (series : list Q) : forall peak mdd,
  exists peak' mdd',
    max_drawdown_loop (peak, mdd) series = Ok (peak', mdd')
    /\ (0 <= mdd -> 0 <= mdd')
    /\ (Forall (fun v => 0 <= v) series -> 0 <= mdd -> mdd <= 1 -> mdd' <= 1).
Proof.
  induction series as [|v rest IH]; intros peak mdd; cbn [max_drawdown_loop].
  - exists peak, mdd. auto.
  - destruct (max_drawdown_step_ok peak mdd v) as (p1 & m1 & -> & Hlo & Hhi).
    cbn [mbind res_bind]. destruct (IH p1 m1) as (p2 & m2 & -> & Hlo2 & Hhi2).
    exists p2, m2. split; [reflexivity|]. split; [auto|].
    intros Hall H0 H1. inversion Hall; subst. auto.
Qed.

Lemma max_drawdown_some (series : list Q) :
  (2 <= length series)%nat ->
  exists mdd, max_drawdown series = Ok (Some mdd)
    /\ 0 <= mdd
    /\ (Forall (fun v => 0 <= v) series -> mdd <= 1).
Proof.
  intros Hlen. unfold max_drawdown.
  assert (E : (length series <? 2)%nat = false) by (apply Nat.ltb_ge; lia).
  rewrite E. destruct series as [|s0 rest]; [simpl in Hlen; lia|].
  destruct (max_drawdown_loop_ok (s0 :: rest) s0 0) as (p & m & -> & Hlo & Hhi).
  exists m. split; [reflexivity|]. split; [apply Hlo; lra|].
  intros Hall. apply Hhi; [assumption | lra | lra].
Qed.

(** C10: [max_drawdown] never raises; below two elements it returns [None],
    otherwise a non-negative value, which is at most 1 when no element of
    the series is negative; a step whose running peak is 0 divides nothing
    and contributes a drawdown of 0.0. *)
Theorem max_drawdown_total (series : list Q) :
  ((length series < 2)%nat -> max_drawdown series = Ok None)
  /\ ((2 <= length series)%nat ->
      exists mdd, max_drawdown series = Ok (Some mdd)
        /\ 0 <= mdd
        /\ (Forall (fun v => 0 <= v) series -> mdd <= 1))
  /\ (forall peak mdd v,
        (if Qltb peak v then v else peak) == 0 ->
        max_drawdown_step (peak, mdd) v
        = Ok (if Qltb peak v then v else peak, py_max mdd 0)).
Proof.
  split; [|split].
  - intros Hlen. unfold max_drawdown. apply Nat.ltb_lt in Hlen. now rewrite Hlen.
  - apply max_drawdown_some.
  - intros peak mdd v Hz. unfold max_drawdown_step.
    apply Qeq_bool_iff in Hz. now rewrite Hz.
Qed.

Lemma max_drawdown_total_witness :
  exists mdd, max_drawdown [100; 50; 75] = Ok (Some mdd) /\ 0 <= mdd /\ mdd <= 1.
Proof.
  destruct (max_drawdown_total [100; 50; 75]) as (_ & H & _).
  destruct H as (m & Hm & H0 & H1); [simpl; lia|].
  exists m. split; [exact Hm|]. split; [exact H0|].
  apply H1. repeat constructor; discriminate.
Defined.

(** ** Rate limiter *)

Lemma note_error_inv (rl : RateLimiter) : limiter_inv rl -> limiter_inv (note_error rl).
Proof.
  unfold limiter_inv, note_error. destruct rl as [lo hi ts c]; simpl.
  intros (H1 & H2 & H3 & H4). repeat split; try assumption; py_minmax; lra.
Qed.

Lemma note_ok_inv (rl : RateLimiter) : limiter_inv rl -> limiter_inv (note_ok rl).
Proof.
  unfold limiter_inv, note_ok. destruct rl as [lo hi ts c]; simpl.
  intros (H1 & H2 & H3 & H4). repeat split; try assumption; py_minmax; lra.
Qed.

Lemma limiter_run_inv (cs : list limiter_call) :
  forall rl, limiter_inv rl -> limiter_inv (limiter_run rl cs).
Proof.
  unfold limiter_run.
  induction cs as [|c cs IH]; intros rl H; simpl; [assumption|].
  apply IH. destruct c; simpl; [now apply note_error_inv | now apply note_ok_inv].
Qed.

Lemma limiter_run_max (cs : list limiter_call) :
  forall rl, max_interval_s (limiter_run rl cs) = max_interval_s rl.
Proof.
  unfold limiter_run.
  induction cs as [|c cs IH]; intros rl; simpl; [reflexivity|].
  rewrite IH. now destruct c.
Qed.

(** C8: from a fresh limiter with [0 <= min_interval <= max_interval], any
    sequence of [note_error] / [note_ok] calls leaves the cooldown within
    [[0, max_interval]]; each call sets the cooldown by the stated formula. *)
Theorem limiter_cooldown_bounded (lo hi : Q) (cs : list limiter_call) :
  0 <= lo -> lo <= hi ->
  (0 <= _cooldown (limiter_run (RateLimiter_init lo hi) cs)
   /\ _cooldown (limiter_run (RateLimiter_init lo hi) cs) <= hi)
  /\ (forall rl,
        _cooldown (note_error rl)
          == Qmin (max_interval_s rl) (Qmax (_cooldown rl * 1.6) (min_interval_s rl))
        /\ _cooldown (note_ok rl) == Qmax 0 (_cooldown rl * 0.85 - 0.01)).
Proof.
  intros Hlo Hhi. split.
  - assert (Hinit : limiter_inv (RateLimiter_init lo hi)).
    { unfold limiter_inv; simpl. repeat split; lra. }
    pose proof (limiter_run_inv cs _ Hinit) as (_ & _ & H3 & H4).
    rewrite limiter_run_max in H4. simpl in H4. split; assumption.
  - intros rl. simpl. split.
    + rewrite py_min_Qmin. apply Q.min_compat; [reflexivity | apply py_max_Qmax].
    + apply py_max_Qmax.
Qed.

Lemma limiter_cooldown_bounded_witness :
  0 <= _cooldown (limiter_run (RateLimiter_init 0.15 1)
                    [NoteError; NoteError; NoteOk; NoteError])
  /\ _cooldown (limiter_run (RateLimiter_init 0.15 1)
                  [NoteError; NoteError; NoteOk; NoteError]) <= 1.
Proof.
  apply (limiter_cooldown_bounded 0.15 1 [NoteError; NoteError; NoteOk; NoteError]);
    discriminate.
Defined.

(** ** [style_label] *)

(** C9: with both monthly inputs null, [style_label] reads them as 0.0 and
    the label is decided by the risk score alone. *)
Theorem style_label_null_inputs (risk : Q) :
  style_label risk None None = style_label risk (Some 0) (Some 0)
  /\ (style_label risk None None = aggressive <-> 70 <= risk)
  /\ (style_label risk None None = balanced <-> 40 <= risk /\ risk < 70)
  /\ (style_label risk None None = stable <-> risk < 40).
Proof.
  unfold style_label.
  change (Qleb 5 0) with false. change (Qleb 25 0) with false.
  change (Qleb 2 0) with false. change (Qleb 12 0) with false.
  rewrite !orb_false_r.
  split; [reflexivity|].
  destruct (Qleb 70 risk) eqn:E70; destruct (Qleb 40 risk) eqn:E40;
    try apply Qleb_le in E70; try apply Qleb_gt in E70;
    try apply Qleb_le in E40; try apply Qleb_gt in E40;
    repeat split; intros; try discriminate; try lra; try reflexivity.
Qed.

(** ** [risk_score] *)

Lemma risk_score_unfold (av : Q) (ps : list PositionView) :
  0 < av -> ps <> [] ->
  risk_score av ps = Ok (risk_blend (total_margin ps / av) (max_lev ps / 50) (closest ps)).
Proof.
  intros Hav Hps. unfold risk_score.
  assert (E1 : Qleb av 0 = false) by now apply Qleb_gt.
  rewrite E1, bool_decide_eq_false_2 by assumption. simpl orb. cbv iota.
  rewrite py_div_ok by lra. reflexivity.
Qed.

Lemma risk_blend_range (r l : Q) (c : option Q) :
  0 <= risk_blend r l c /\ risk_blend r l c <= 100.
Proof.
  unfold risk_blend. split; py_minmax; lra.
Qed.

Lemma risk_blend_mono (r r' l l' : Q) (c c' : option Q) :
  r <= r' -> l <= l' ->
  match c, c' with
  | Some d, Some d' => d' <= d
  | None, None => True
  | _, _ => False
  end ->
  risk_blend r l c <= risk_blend r' l' c'.
Proof.
  intros Hr Hl Hc. unfold risk_blend.
  destruct c as [d|], c' as [d'|]; try contradiction.
  - assert (Hd : d' / 50 <= d / 50) by (apply Qmult_le_compat_r; [assumption | discriminate]).
    revert Hd. generalize (d / 50), (d' / 50). intros q q' Hq.
    py_minmax; lra.
  - py_minmax; lra.
Qed.

Lemma Qdiv_le_compat_pos (x y d : Q) : 0 < d -> x <= y -> x / d <= y / d.
Proof.
  intros Hd Hxy. apply Qmult_le_compat_r; [assumption|].
  apply Qlt_le_weak, Qinv_lt_0_compat, Hd.
Qed.

(** C6: [risk_score] always returns a score in [[0, 100]]; for positive
    equity and at least one position it does not decrease when the total
    margin used grows, when the maximum leverage grows, or when the nearest
    known liquidation distance shrinks, the other two being fixed. *)
Theorem risk_score_bounded_monotone :
  (forall av ps, exists s, risk_score av ps = Ok s /\ 0 <= s /\ s <= 100)
  /\ (forall av ps ps' s s',
        0 < av -> ps <> [] -> ps' <> [] ->
        risk_score av ps = Ok s -> risk_score av ps' = Ok s' ->
        (total_margin ps <= total_margin ps' ->
         max_lev ps == max_lev ps' -> same_closest ps ps' -> s <= s')
        /\ (max_lev ps <= max_lev ps' ->
            total_margin ps == total_margin ps' -> same_closest ps ps' -> s <= s')
        /\ (forall d d', closest ps = Some d -> closest ps' = Some d' -> d' <= d ->
            total_margin ps == total_margin ps' -> max_lev ps == max_lev ps' ->
            s <= s')).
Proof.
  split.
  - intros av ps. unfold risk_score.
    destruct (Qleb av 0 || bool_decide (ps = [])) eqn:E.
    + exists 0. split; [reflexivity|]. split; discriminate.
    + apply orb_false_iff in E as [E1 E2].
      apply Qleb_gt in E1. apply bool_decide_eq_false in E2.
      pose proof (risk_score_unfold av ps E1 E2) as H. unfold risk_score in H.
      assert (E1' : Qleb av 0 = false) by now apply Qleb_gt.
      rewrite E1', bool_decide_eq_false_2 in H by assumption. simpl orb in H.
      cbv iota in H. rewrite H.
      eexists. split; [reflexivity|]. apply risk_blend_range.
  - intros av ps ps' s s' Hav Hps Hps' Hs Hs'.
    rewrite risk_score_unfold in Hs, Hs' by assumption.
    injection Hs as <-. injection Hs' as <-.
    unfold same_closest.
    split; [|split].
    + intros Hm Hl Hc. apply risk_blend_mono.
      * now apply Qdiv_le_compat_pos.
      * apply Qdiv_le_compat_pos; [reflexivity | rewrite Hl; apply Qle_refl].
      * destruct (closest ps), (closest ps'); try assumption. rewrite Hc. apply Qle_refl.
    + intros Hl Hm Hc. apply risk_blend_mono.
      * apply Qdiv_le_compat_pos; [assumption | rewrite Hm; apply Qle_refl].
      * now apply Qdiv_le_compat_pos.
      * destruct (closest ps), (closest ps'); try assumption. rewrite Hc. apply Qle_refl.
    + intros d d' -> -> Hd Hm Hl. apply risk_blend_mono.
      * apply Qdiv_le_compat_pos; [assumption | rewrite Hm; apply Qle_refl].
      * apply Qdiv_le_compat_pos; [reflexivity | rewrite Hl; apply Qle_refl].
      * assumption.
Qed.

Lemma risk_score_bounded_monotone_witness :
  let p m := mkPositionView "BTC" LONG 1 50000 (Some 50000) 50000 0 None 10 (Some 40000)
               m (Some 50) (Some 20) None in
  exists s s',
    risk_score 100000 [p 5000] = Ok s /\ risk_score 100000 [p 9000] = Ok s' /\ s <= s'.
Proof.
  intros p.
  destruct risk_score_bounded_monotone as [Hr Hm].
  destruct (Hr 100000 [p 5000]) as (s & Hs & _).
  destruct (Hr 100000 [p 9000]) as (s' & Hs' & _).
  exists s, s'. split; [exact Hs|]. split; [exact Hs'|].
  destruct (Hm 100000 [p 5000] [p 9000] s s') as [H _];
    [reflexivity | discriminate | discriminate | exact Hs | exact Hs' |].
  apply H; vm_compute; (reflexivity || discriminate).
Defined.

(** ** [sorted] *)

Section py_sorted_facts.
Context {A : Type} (before : A -> A -> bool).

Lemma py_sorted_in_order (l : list A) :
  in_order before l -> py_sorted before l = l.
Proof.
  induction l as [|x [|y rest] IH]; intros H; [reflexivity | reflexivity |].
  destruct H as [Hyx Hrest].
  change (py_sorted before (x :: y :: rest))
    with (sorted_insert before x (py_sorted before (y :: rest))).
  rewrite IH by assumption. simpl. now rewrite Hyx.
Qed.

Lemma sorted_insert_length (x : A) (l : list A) :
  length (sorted_insert before x l) = S (length l).
Proof.
  induction l as [|y rest IH]; simpl; [reflexivity|].
  destruct (before y x); simpl; [now rewrite IH | reflexivity].
Qed.

Lemma py_sorted_length (l : list A) : length (py_sorted before l) = length l.
Proof.
  induction l as [|x rest IH]; simpl; [reflexivity|].
  now rewrite sorted_insert_length, IH.
Qed.
End py_sorted_facts.

(** ** [window_return_metrics] *)

Lemma window_pnl_pct_ok (pnl_points : list (Z * Q)) (base_ts : Z) (base_av : Q) :
  ~ base_av == 0 -> exists p, window_pnl_pct pnl_points base_ts base_av = Ok p.
Proof.
  intros Hav. unfold window_pnl_pct.
  destruct (2 <=? length pnl_points)%nat eqn:E; [|now exists None].
  apply Nat.leb_le in E.
  pose proof (py_sorted_length (fun x y => (x.1 <? y.1)%Z) pnl_points) as Hlen.
  fold (sorted_by_ts pnl_points) in Hlen.
  destruct (sorted_by_ts pnl_points) as [|[ts0 p0] rest] eqn:Es; [simpl in Hlen; lia|].
  destruct (last ((ts0, p0) :: rest)) as [[tsn pn]|] eqn:El.
  - cbv zeta. rewrite py_div_ok by assumption. eexists. reflexivity.
  - apply last_None in El. discriminate.
Qed.

(** C5: on the account values 0, 0, 100, 110 at increasing timestamps the
    baseline index is 2 and the growth is (110 - 100) / 100 * 100 = 10. *)
Theorem window_growth_example (sqrt : Q -> Q) (t0 t1 t2 t3 : Z)
    (pnl_points : list (Z * Q)) (vlm : Q) :
  (t0 < t1)%Z -> (t1 < t2)%Z -> (t2 < t3)%Z ->
  let av := [(t0, 0); (t1, 0); (t2, 100); (t3, 110)] in
  base_idx baseline_eps_default (map snd (sorted_by_ts av)) = Some 2%nat
  /\ exists m g,
       window_return_metrics sqrt (mkWindow av pnl_points vlm) baseline_eps_default = Ok m
       /\ growth_pct m = Some g
       /\ g == (110 - 100) / 100 * 100
       /\ g == 10.
Proof.
  intros H01 H12 H23 av.
  assert (Hs : sorted_by_ts av = av).
  { apply py_sorted_in_order. simpl. repeat split; apply Z.ltb_ge; lia. }
  split; [rewrite Hs; reflexivity|].
  unfold window_return_metrics. cbn [account_values pnls].
  rewrite Hs.
  change (length av <? 2)%nat with false. cbv iota zeta.
  change (base_idx baseline_eps_default (map snd av)) with (Some 2%nat).
  cbv iota.
  change (filter (fun v => isfinite v = true) (drop 2 (map snd av))) with [100; 110].
  change (window_vol_pct_daily sqrt baseline_eps_default [100; 110]) with (@Ok (option Q) None).
  change (max_drawdown [100; 110]) with (Ok (Some (py_max (py_max 0 ((100 - 100) / 100)) ((110 - 110) / 110)))).
  cbn -[py_div window_pnl_pct Qmult py_max Qdiv Qminus].
  rewrite py_div_ok by lra. cbn [mbind res_bind].
  destruct (window_pnl_pct_ok pnl_points t2 100) as [p ->]; [lra|].
  cbn [mbind res_bind].
  eexists _, _. split; [reflexivity|]. split; [reflexivity|]. split; [reflexivity|].
  reflexivity.
Qed.

Lemma window_growth_example_witness :
  exists m g,
    window_return_metrics (fun x => x)
      (mkWindow [(1%Z, 0); (2%Z, 0); (3%Z, 100); (4%Z, 110)] [] 0)
      baseline_eps_default = Ok m
    /\ growth_pct m = Some g /\ g == 10.
Proof.
  destruct (window_growth_example (fun x => x) 1 2 3 4 [] 0) as (_ & m & g & Hm & Hg & _ & H10);
    [reflexivity | reflexivity | reflexivity |].
  exists m, g. split; [exact Hm|]. split; [exact Hg | exact H10].
Defined.

Section py_sorted_perm.
Context {A : Type} (before : A -> A -> bool).

Lemma sorted_insert_perm (x : A) (l : list A) : sorted_insert before x l ≡ₚ x :: l.
Proof.
  induction l as [|y rest IH]; simpl; [reflexivity|].
  destruct (before y x); [|reflexivity].
  rewrite IH. apply Permutation_swap.
Qed.

Lemma py_sorted_perm (l : list A) : py_sorted before l ≡ₚ l.
Proof.
  induction l as [|x rest IH]; simpl; [reflexivity|].
  now rewrite sorted_insert_perm, IH.
Qed.
End py_sorted_perm.

Lemma filter_isfinite (l : list Q) : filter (fun v => isfinite v = true) l = l.
Proof.
  induction l as [|v rest IH]; [reflexivity|].
  rewrite filter_cons_True by reflexivity. now rewrite IH.
Qed.

(** C2: on the account values 0.0, 0.0, neither of which exceeds the
    baseline epsilon, the code reports growth, PnL and volatility as null
    but a drawdown of 0.0: without a baseline the slice starts at index 0
    and [max_drawdown] runs over the whole series, where the claim has all
    four metrics null.  Neither the square root nor the PnL history is
    reached on this input. *)
Theorem window_no_baseline_drawdown (sqrt : Q -> Q) (pnl_points : list (Z * Q)) (vlm : Q) :
  Forall (fun p => p.2 <= baseline_eps_default) [(1%Z, 0); (2%Z, 0)]
  /\ window_return_metrics sqrt (mkWindow [(1%Z, 0); (2%Z, 0)] pnl_points vlm)
       baseline_eps_default
     = Ok (mkMetrics None None None (Some 0))
  /\ window_return_metrics sqrt (mkWindow [(1%Z, 0); (2%Z, 0)] pnl_points vlm)
       baseline_eps_default
     <> Ok (mkMetrics None None None None).
Proof.
  split; [repeat constructor; discriminate|].
  split; [reflexivity | discriminate].
Qed.

(** ** [sorted] is a stable sort *)

Section py_sorted_stable.
Context {A : Type} (before : A -> A -> bool).
Hypothesis before_asym : forall x y, before x y = true -> before y x = false.
Hypothesis before_negtrans :
  forall x y z, before x y = false -> before y z = false -> before x z = false.

Let le (x y : A) : Prop := before y x = false.

Lemma sorted_insert_elem (z x : A) (l : list A) :
  z ∈ sorted_insert before x l <-> z = x \/ z ∈ l.
Proof. now rewrite sorted_insert_perm, elem_of_cons. Qed.

Lemma py_sorted_elem (z : A) (l : list A) : z ∈ py_sorted before l <-> z ∈ l.
Proof. now rewrite py_sorted_perm. Qed.

Lemma sorted_insert_sorted (x : A) (l : list A) :
  StronglySorted le l -> StronglySorted le (sorted_insert before x l).
Proof.
  induction 1 as [|y rest Hrest IH Hy]; simpl.
  - constructor; [constructor | constructor].
  - destruct (before y x) eqn:E.
    + constructor; [exact IH|].
      apply Forall_forall. intros z Hz. apply sorted_insert_elem in Hz as [-> | Hz].
      * unfold le. now apply before_asym.
      * rewrite Forall_forall in Hy. now apply Hy.
    + constructor; [now constructor|].
      constructor; [exact E|].
      apply Forall_forall. intros z Hz. rewrite Forall_forall in Hy.
      unfold le. apply (before_negtrans z y x); [now apply Hy | exact E].
Qed.

Lemma py_sorted_sorted (l : list A) : StronglySorted le (py_sorted before l).
Proof.
  induction l as [|x rest IH]; simpl; [constructor|].
  now apply sorted_insert_sorted.
Qed.

Lemma precedes_elem (x y : A) (l : list A) : precedes x y l -> x ∈ l /\ y ∈ l.
Proof.
  induction l as [|a rest IH]; simpl; [tauto|].
  intros [[-> Hy] | H].
  - split; [left | now right].
  - destruct (IH H). split; now right.
Qed.

Lemma sorted_insert_precedes (a x y : A) (l : list A) :
  precedes x y l -> precedes x y (sorted_insert before a l).
Proof.
  induction l as [|b rest IH]; simpl; [tauto|].
  intros H. destruct (before b a); simpl.
  - destruct H as [[-> Hy] | H].
    + left. split; [reflexivity|]. apply sorted_insert_elem. now right.
    + right. now apply IH.
  - right. exact H.
Qed.

Lemma sorted_insert_first (a y : A) (l : list A) :
  y ∈ l -> before y a = false -> precedes a y (sorted_insert before a l).
Proof.
  induction l as [|b rest IH]; intros Hy E; [inversion Hy|]. simpl.
  destruct (before b a) eqn:Eb; simpl.
  - right. apply IH; [|exact E].
    apply elem_of_cons in Hy as [-> | Hy]; [congruence | exact Hy].
  - left. split; [reflexivity | exact Hy].
Qed.

Lemma sorted_insert_last (a y : A) (l : list A) :
  StronglySorted le l -> y ∈ l -> before y a = true ->
  precedes y a (sorted_insert before a l).
Proof.
  induction 1 as [|b rest Hrest IH Hb]; intros Hy E; [inversion Hy|]. simpl.
  destruct (before b a) eqn:Eb; simpl.
  - apply elem_of_cons in Hy as [-> | Hy].
    + left. split; [reflexivity|]. apply sorted_insert_elem. now left.
    + right. now apply IH.
  - apply elem_of_cons in Hy as [-> | Hy]; [congruence|].
    rewrite Forall_forall in Hb. pose proof (Hb y Hy) as Hby. unfold le in Hby.
    rewrite (before_negtrans y b a Hby Eb) in E. discriminate.
Qed.

(** Two items keep their input order unless the later one has to come
    before the earlier one. *)
Lemma py_sorted_stable (x y : A) (l : list A) :
  precedes x y l ->
  (before y x = false -> precedes x y (py_sorted before l))
  /\ (before y x = true -> precedes y x (py_sorted before l)).
Proof.
  induction l as [|a rest IH]; simpl; [tauto|].
  intros [[-> Hy] | H].
  - split; intros E.
    + apply sorted_insert_first; [now apply py_sorted_elem | exact E].
    + apply sorted_insert_last;
        [apply py_sorted_sorted | now apply py_sorted_elem | exact E].
  - destruct (IH H) as [H1 H2].
    split; intros E; apply sorted_insert_precedes; auto.
Qed.

(** A strictly ordered list is the result of sorting any of its
    permutations. *)
Lemma sorted_perm_unique (s l : list A) :
  StronglySorted le s ->
  StronglySorted (fun x y => before x y = true) l ->
  s ≡ₚ l -> s = l.
Proof.
  intros Hs Hl. revert s Hs.
  induction Hl as [|x l2 Hl2 IH Hx]; intros s Hs Hp.
  - now apply Permutation_nil_r in Hp.
  - destruct s as [|y s2]; [now apply Permutation_nil_cons in Hp|].
    assert (Hxy : x = y).
    { assert (Hx_in : x ∈ y :: s2) by (rewrite Hp; left).
      apply elem_of_cons in Hx_in as [-> | Hx_in]; [reflexivity|].
      assert (Hy_in : y ∈ x :: l2) by (rewrite <- Hp; left).
      apply elem_of_cons in Hy_in as [-> | Hy_in]; [reflexivity|].
      rewrite Forall_forall in Hx. pose proof (Hx y Hy_in) as Hlt.
      apply StronglySorted_inv in Hs as [_ Hy].
      rewrite Forall_forall in Hy. pose proof (Hy x Hx_in) as Hle.
      unfold le in Hle. congruence. }
    subst y. f_equal. apply IH.
    + now apply StronglySorted_inv in Hs as [Hs _].
    + now apply Permutation_cons_inv in Hp.
Qed.

Lemma py_sorted_of_perm (l' l : list A) :
  StronglySorted (fun x y => before x y = true) l ->
  l' ≡ₚ l -> py_sorted before l' = l.
Proof.
  intros Hl Hp. apply sorted_perm_unique; [apply py_sorted_sorted | exact Hl |].
  now rewrite py_sorted_perm.
Qed.
End py_sorted_stable.

(** ** [infer_position_ages_from_fills] *)

Lemma cur_by_coin_needed (positions : list PositionView) (c : string) (v : Q) :
  cur_by_coin positions !! c = Some v ->
  c ∈ (list_to_set (map coin positions) : gset string).
Proof.
  unfold cur_by_coin.
  assert (H : forall (m : gmap string Q),
             fold_left (fun m p => <[coin p := size p]> m) positions m !! c = Some v ->
             c ∈ (list_to_set (map coin positions) : gset string) \/ m !! c = Some v).
  { induction positions as [|p rest IH]; intros m Hm; [now right|].
    cbn [fold_left] in Hm. rewrite elem_of_list_to_set. cbn [map]. rewrite elem_of_cons.
    destruct (IH _ Hm) as [Hin | Hin].
    { left. right. now apply elem_of_list_to_set in Hin. }
    destruct (decide (coin p = c)) as [Heq | Hne]; [now left; left|].
    rewrite lookup_insert_ne in Hin by assumption. now right. }
  intros Hm. destruct (H ∅ Hm) as [Hin | Hin]; [exact Hin|].
  rewrite lookup_empty in Hin. discriminate.
Qed.

Lemma cur_by_coin_not_needed (positions : list PositionView) (c : string) :
  c ∉ (list_to_set (map coin positions) : gset string) ->
  cur_by_coin positions !! c = None.
Proof.
  intros Hc. destruct (cur_by_coin positions !! c) as [v|] eqn:E; [|reflexivity].
  exfalso. apply Hc. eapply cur_by_coin_needed, E.
Qed.

(** *** The sort by time *)

Lemma mapM_res_Forall {A B : Type} (f : A -> res B) (g : A -> B) (l : list A) :
  Forall (fun x => f x = Ok (g x)) l -> mapM f l = Ok (map g l).
Proof.
  induction 1 as [|x rest Hx _ IH]; [reflexivity|].
  cbn [mapM map]. rewrite Hx. cbn [mbind res_bind]. rewrite IH. reflexivity.
Qed.

Lemma mapM_res_length {A B : Type} (f : A -> res B) (l : list A) : forall r,
  mapM f l = Ok r -> length r = length l.
Proof.
  induction l as [|x rest IH]; intros r; cbn [mapM].
  - intros [= <-]. reflexivity.
  - destruct (f x) as [y|e]; [|discriminate]. cbn [mbind res_bind].
    destruct (mapM f rest) as [ys|e]; [|discriminate]. cbn [mbind res_bind].
    intros [= <-]. cbn [length]. now rewrite (IH ys eq_refl).
Qed.

Lemma sorted_insert_map {A B : Type} (f : A -> B) (before : A -> A -> bool)
    (before' : B -> B -> bool) (x : A) (l : list A) :
  (forall x y, before' (f x) (f y) = before x y) ->
  sorted_insert before' (f x) (map f l) = map f (sorted_insert before x l).
Proof.
  intros Hf. induction l as [|y rest IH]; [reflexivity|].
  cbn [map sorted_insert]. rewrite Hf. destruct (before y x); [|reflexivity].
  cbn [map]. now rewrite IH.
Qed.

Lemma py_sorted_map {A B : Type} (f : A -> B) (before : A -> A -> bool)
    (before' : B -> B -> bool) (l : list A) :
  (forall x y, before' (f x) (f y) = before x y) ->
  py_sorted before' (map f l) = map f (py_sorted before l).
Proof.
  intros Hf. induction l as [|x rest IH]; [reflexivity|].
  cbn [map py_sorted foldr]. fold (py_sorted before' (map f rest)).
  fold (py_sorted before rest). rewrite IH. now apply sorted_insert_map.
Qed.

Lemma time_key_sound (f : Fill) :
  sound_time f -> time_key f = Ok (default 0%Z (fill_time f)).
Proof.
  unfold sound_time, time_key, fill_time. now destruct (raw_time f).
Qed.

Lemma zip_keys {A K : Type} (k : A -> K) (l : list A) :
  zip (map k l) l = map (fun x => (k x, x)) l.
Proof. induction l as [|x rest IH]; [reflexivity|]. cbn [map zip zip_with]. now rewrite IH. Qed.

Lemma sorted_by_time_sound (fs : list Fill) :
  Forall sound_time fs -> sorted_by_time fs = Ok (py_sorted by_time fs).
Proof.
  intros Hall. unfold sorted_by_time.
  rewrite (mapM_res_Forall _ (fun f => default 0%Z (fill_time f))).
  2:{ eapply Forall_impl; [exact Hall|]. intros f Hf. now apply time_key_sound. }
  cbn [mbind res_bind]. rewrite zip_keys.
  rewrite (py_sorted_map (fun f => (default 0%Z (fill_time f), f)) by_time) by reflexivity.
  rewrite map_map. cbn [snd]. now rewrite map_id.
Qed.

Lemma sorted_by_time_perm (fs s : list Fill) : sorted_by_time fs = Ok s -> s ≡ₚ fs.
Proof.
  unfold sorted_by_time. destruct (mapM time_key fs) as [keys|e] eqn:E; [|discriminate].
  cbn [mbind res_bind]. intros [= <-].
  apply mapM_res_length in E.
  assert (Hp : map snd (py_sorted (fun x y => (x.1 <? y.1)%Z) (zip keys fs))
               ≡ₚ map snd (zip keys fs)) by apply Permutation_map, py_sorted_perm.
  rewrite Hp. change (map snd (zip keys fs)) with ((zip keys fs).*2).
  rewrite snd_zip by lia. reflexivity.
Qed.

Lemma by_time_asym (x y : Fill) : by_time x y = true -> by_time y x = false.
Proof. unfold by_time. rewrite Z.ltb_lt, Z.ltb_ge. lia. Qed.

Lemma by_time_negtrans (x y z : Fill) :
  by_time x y = false -> by_time y z = false -> by_time x z = false.
Proof. unfold by_time. rewrite !Z.ltb_ge. lia. Qed.

Lemma by_time_sorted (fs : list Fill) :
  StronglySorted (fun x y => by_time y x = false) (py_sorted by_time fs).
Proof. apply py_sorted_sorted; [apply by_time_asym | apply by_time_negtrans]. Qed.

(** *** The loop on the opening time *)

Lemma fromtimestamp_ok (t_ms : Z) :
  (datetime_min_ms <= t_ms <= datetime_max_ms)%Z -> fromtimestamp t_ms = Ok t_ms.
Proof.
  intros [H1 H2]. unfold fromtimestamp.
  apply Z.leb_le in H1, H2. now rewrite H1, H2.
Qed.

Lemma fromtimestamp_inv (t_ms ts : Z) : fromtimestamp t_ms = Ok ts -> ts = t_ms.
Proof.
  unfold fromtimestamp.
  destruct ((datetime_min_ms <=? t_ms)%Z && (t_ms <=? datetime_max_ms)%Z); [|discriminate].
  now intros [= <-].
Qed.

Lemma open_time_step_sound (o : option Z) (f : Fill) :
  sound_time f -> open_time_step o f = Ok (open_time_next o f).
Proof.
  unfold sound_time, open_time_step, open_time_next, fill_time.
  destruct (raw_time f) as [| |t|e]; try easy.
  intros Ht. now rewrite fromtimestamp_ok.
Qed.

Lemma open_time_fold_sound (l : list Fill) : forall o,
  Forall sound_time l -> fold_res open_time_step l o = Ok (fold_left open_time_next l o).
Proof.
  induction l as [|f l IH]; intros o Hall; [reflexivity|].
  inversion Hall as [|? ? Hf Hl]; subst. cbn [fold_res fold_left].
  rewrite open_time_step_sound by exact Hf. cbn [mbind res_bind]. now apply IH.
Qed.

Lemma first_fill_time_sound (s : list Fill) :
  Forall sound_time s ->
  first_fill_time s = Ok match s with f0 :: _ => fill_time f0 | [] => None end.
Proof.
  intros Hall. destruct s as [|f0 rest]; [reflexivity|].
  inversion Hall as [|? ? Hf _]; subst.
  unfold first_fill_time, fill_time. unfold sound_time in Hf.
  destruct (raw_time f0) as [| |t|e]; try easy.
  now rewrite fromtimestamp_ok.
Qed.

Lemma coin_age_sound (now : Q) (cur : gmap string Q) (c : string) (fs : list Fill) :
  Forall sound_time fs -> coin_age now cur c fs = Ok (sound_coin_age now cur c fs).
Proof.
  intros Hall. unfold coin_age, sound_coin_age.
  rewrite sorted_by_time_sound by exact Hall. cbn [mbind res_bind].
  assert (Hs : Forall sound_time (py_sorted by_time fs)).
  { eapply Permutation_Forall; [symmetry; apply py_sorted_perm | exact Hall]. }
  rewrite open_time_fold_sound by exact Hs. cbn [mbind res_bind]. cbv zeta.
  destruct (Qltb (py_abs (default 0 (cur !! c))) ages_eps); [reflexivity|].
  destruct (fold_left open_time_next (py_sorted by_time fs) None) as [t|].
  - cbn [mbind res_bind]. now destruct (py_sorted by_time fs).
  - rewrite first_fill_time_sound by exact Hs. cbn [mbind res_bind].
    now destruct (py_sorted by_time fs).
Qed.

(** *** The grouping by instrument *)

Lemma by_coin_append_entries (coin : string) (f : Fill) (G : list (string * list Fill)) :
  forall c fs, (c, fs) ∈ by_coin_append coin f G ->
    (c, fs) ∈ G
    \/ (c = coin /\ (fs = [f] \/ exists fs0, (coin, fs0) ∈ G /\ fs = fs0 ++ [f])).
Proof.
  induction G as [|[c0 fs0] rest IH]; intros c fs; cbn [by_coin_append].
  - intros H. apply list_elem_of_singleton in H. injection H as -> ->. right. auto.
  - destruct (String.eqb c0 coin) eqn:E.
    + apply String.eqb_eq in E. subst c0. intros H.
      apply elem_of_cons in H as [H | H].
      * injection H as -> ->. right. split; [reflexivity|]. right.
        exists fs0. split; [left | reflexivity].
      * left. now right.
    + intros H. apply elem_of_cons in H as [H | H].
      * left. rewrite H. left.
      * destruct (IH c fs H) as [Hin | (-> & [-> | (fs1 & Hin & ->)])].
        -- left. now right.
        -- right. auto.
        -- right. split; [reflexivity|]. right. exists fs1. split; [now right | reflexivity].
Qed.

Lemma group_by_coin_entries (needed : gset string) (fills : list Fill) :
  forall c fs, (c, fs) ∈ group_by_coin needed fills ->
    c ∈ needed /\ fs <> []
    /\ forall f, f ∈ fs -> f ∈ fills /\ fill_coin f = Some c.
Proof.
  unfold group_by_coin.
  set (step := fun by_coin f =>
       match fill_coin f with
       | Some coin => if decide (coin ∈ needed) then by_coin_append coin f by_coin else by_coin
       | None => by_coin
       end).
  assert (Hgo : forall l G,
             (forall c fs, (c, fs) ∈ G ->
                c ∈ needed /\ fs <> []
                /\ forall f, f ∈ fs -> f ∈ fills /\ fill_coin f = Some c) ->
             (forall f, f ∈ l -> f ∈ fills) ->
             forall c fs, (c, fs) ∈ fold_left step l G ->
               c ∈ needed /\ fs <> []
               /\ forall f, f ∈ fs -> f ∈ fills /\ fill_coin f = Some c).
  { induction l as [|f l IH]; intros G HG Hl; [exact HG|].
    cbn [fold_left]. apply IH; [|intros g Hg; apply Hl; now right].
    intros c fs Hin. unfold step in Hin.
    destruct (fill_coin f) as [coin|] eqn:Ef; [|now apply HG].
    destruct (decide (coin ∈ needed)) as [Hn | Hn]; [|now apply HG].
    apply by_coin_append_entries in Hin
      as [Hin | (-> & [-> | (fs0 & Hin & ->)])]; [now apply HG | |].
    - split; [exact Hn|]. split; [discriminate|].
      intros g Hg. apply list_elem_of_singleton in Hg as ->.
      split; [apply Hl; left | exact Ef].
    - destruct (HG _ _ Hin) as (_ & _ & Hfs0).
      split; [exact Hn|]. split; [now destruct fs0|].
      intros g Hg. apply elem_of_app in Hg as [Hg | Hg]; [now apply Hfs0|].
      apply list_elem_of_singleton in Hg as ->.
      split; [apply Hl; left | exact Ef]. }
  apply Hgo; [|auto].
  intros c fs H. inversion H.
Qed.

Lemma by_coin_get_append (c coin : string) (f : Fill) (G : list (string * list Fill)) :
  by_coin_get c (by_coin_append coin f G)
  = if String.eqb coin c then Some (default [] (by_coin_get coin G) ++ [f])
    else by_coin_get c G.
Proof.
  induction G as [|[c0 fs0] rest IH]; cbn [by_coin_append by_coin_get].
  - destruct (String.eqb coin c); reflexivity.
  - destruct (String.eqb c0 coin) eqn:E0; cbn [by_coin_get].
    + apply String.eqb_eq in E0. subst c0. rewrite ?String.eqb_refl.
      destruct (String.eqb coin c); reflexivity.
    + rewrite IH, ?E0. destruct (String.eqb coin c) eqn:E1; [|reflexivity].
      apply String.eqb_eq in E1. subst c. now rewrite E0.
Qed.

Lemma by_coin_append_keys (coin : string) (f : Fill) (G : list (string * list Fill))
    (x : string) :
  x ∈ (by_coin_append coin f G).*1 -> x = coin \/ x ∈ G.*1.
Proof.
  induction G as [|[c0 fs0] rest IH]; cbn [by_coin_append].
  - intros H. apply list_elem_of_singleton in H. now left.
  - destruct (String.eqb c0 coin) eqn:E0; [now right|].
    cbn [fmap list_fmap fst]. rewrite !elem_of_cons.
    intros [-> | H]; [right; now left|].
    destruct (IH H) as [-> | Hin]; [now left | right; now right].
Qed.

Lemma by_coin_append_NoDup (coin : string) (f : Fill) (G : list (string * list Fill)) :
  NoDup G.*1 -> NoDup (by_coin_append coin f G).*1.
Proof.
  induction G as [|[c0 fs0] rest IH]; cbn [by_coin_append].
  - intros _. apply NoDup_singleton.
  - destruct (String.eqb c0 coin) eqn:E0; [auto|].
    cbn [fmap list_fmap fst]. rewrite !NoDup_cons. intros [Hc0 Hrest].
    split; [|now apply IH].
    intros Hin. apply by_coin_append_keys in Hin as [-> | Hin]; [|contradiction].
    now rewrite String.eqb_refl in E0.
Qed.

Lemma by_coin_get_None (c : string) (G : list (string * list Fill)) :
  c ∉ G.*1 -> by_coin_get c G = None.
Proof.
  induction G as [|[c0 fs0] rest IH]; [reflexivity|].
  cbn [fmap list_fmap fst by_coin_get]. rewrite not_elem_of_cons. intros [Hne Hrest].
  destruct (String.eqb c0 c) eqn:E; [|now apply IH].
  apply String.eqb_eq in E. congruence.
Qed.

Lemma group_by_coin_get (needed : gset string) (fills : list Fill) (c : string) :
  NoDup (group_by_coin needed fills).*1
  /\ by_coin_get c (group_by_coin needed fills)
     = if decide (c ∈ needed)
       then match fills_of c fills with [] => None | fs => Some fs end
       else None.
Proof.
  unfold group_by_coin.
  set (step := fun by_coin f =>
       match fill_coin f with
       | Some coin => if decide (coin ∈ needed) then by_coin_append coin f by_coin else by_coin
       | None => by_coin
       end).
  assert (Hgo : forall l G, NoDup G.*1 ->
             NoDup (fold_left step l G).*1
             /\ by_coin_get c (fold_left step l G)
                = if decide (c ∈ needed)
                  then match fills_of c l with
                       | [] => by_coin_get c G
                       | fs => Some (default [] (by_coin_get c G) ++ fs)
                       end
                  else by_coin_get c G).
  { induction l as [|f l IH]; intros G HG; cbn [fold_left].
    - split; [exact HG|]. now destruct (decide (c ∈ needed)).
    - assert (HG' : NoDup (step G f).*1).
      { unfold step. destruct (fill_coin f) as [coin|]; [|exact HG].
        destruct (decide (coin ∈ needed)); [now apply by_coin_append_NoDup | exact HG]. }
      destruct (IH _ HG') as [Hnd Hget]. split; [exact Hnd|]. rewrite Hget.
      destruct (decide (c ∈ needed)) as [Hc | Hc].
      + unfold fills_of. unfold step.
        destruct (fill_coin f) as [coin|] eqn:Ef.
        * destruct (decide (coin = c)) as [-> | Hne].
          -- rewrite decide_True by exact Hc.
             rewrite (filter_cons_True _ f l) by exact Ef.
             rewrite by_coin_get_append, String.eqb_refl. cbn [default].
             destruct (base.filter _ l) as [|g fs]; [reflexivity|].
             unfold id. now rewrite <- app_assoc.
          -- rewrite (filter_cons_False _ f l) by congruence.
             destruct (decide (coin ∈ needed)); [|reflexivity].
             rewrite by_coin_get_append.
             assert (E : String.eqb coin c = false) by now apply String.eqb_neq.
             now rewrite E.
        * rewrite (filter_cons_False _ f l) by congruence. reflexivity.
      + unfold step. destruct (fill_coin f) as [coin|]; [|reflexivity].
        destruct (decide (coin ∈ needed)) as [Hn | Hn]; [|reflexivity].
        rewrite by_coin_get_append.
        assert (E : String.eqb coin c = false) by (apply String.eqb_neq; congruence).
        now rewrite E. }
  destruct (Hgo fills [] (NoDup_nil_2)) as [Hnd Hget]. split; [exact Hnd|].
  rewrite Hget. cbn [by_coin_get default app].
  destruct (decide (c ∈ needed)); [|reflexivity]. now destruct (fills_of c fills).
Qed.

(** *** The loop over the instruments *)

Lemma ages_fold_sound (now : Q) (cur : gmap string Q) (G : list (string * list Fill)) :
  forall (m : gmap string Q),
  Forall (fun g => Forall sound_time g.2) G ->
  fold_res
    (fun ages '(coin, fs) =>
       age ← coin_age now cur coin fs;
       Ok (match age with
           | Some age => <[coin := age]> ages
           | None => ages
           end)) G m
  = Ok (fold_left
          (fun ages '(coin, fs) =>
             match sound_coin_age now cur coin fs with
             | Some age => <[coin := age]> ages
             | None => ages
             end) G m).
Proof.
  induction G as [|[c0 fs0] G IH]; intros m Hall; [reflexivity|].
  inversion Hall as [|? ? H0 HG]; subst. cbn [snd] in H0.
  cbn [fold_res fold_left]. rewrite coin_age_sound by exact H0.
  cbn [mbind res_bind]. now apply IH.
Qed.

Lemma ages_fold_lookup (now : Q) (cur : gmap string Q) (c : string)
    (G : list (string * list Fill)) : forall (m : gmap string Q),
  NoDup G.*1 ->
  fold_left
    (fun ages '(coin, fs) =>
       match sound_coin_age now cur coin fs with
       | Some age => <[coin := age]> ages
       | None => ages
       end) G m !! c
  = match by_coin_get c G ≫= sound_coin_age now cur c with
    | Some a => Some a
    | None => m !! c
    end.
Proof.
  induction G as [|[c0 fs0] G IH]; intros m Hnd; [reflexivity|].
  cbn [fmap list_fmap fst] in Hnd. apply NoDup_cons in Hnd as [Hc0 Hnd].
  cbn [fold_left by_coin_get]. rewrite IH by exact Hnd.
  destruct (String.eqb c0 c) eqn:E.
  - apply String.eqb_eq in E. subst c0.
    rewrite (by_coin_get_None c G Hc0). cbn [mbind option_bind].
    destruct (sound_coin_age now cur c fs0) as [a|]; [apply lookup_insert_eq | reflexivity].
  - apply String.eqb_neq in E.
    destruct (by_coin_get c G ≫= sound_coin_age now cur c) as [a|]; [reflexivity|].
    destruct (sound_coin_age now cur c0 fs0) as [a0|]; [|reflexivity].
    now apply lookup_insert_ne.
Qed.

Lemma sound_coin_age_no_position (now : Q) (cur : gmap string Q) (c : string)
    (fs : list Fill) :
  cur !! c = None -> sound_coin_age now cur c fs = None.
Proof. intros E. unfold sound_coin_age. rewrite E. reflexivity. Qed.

Lemma sound_coin_age_no_fills (now : Q) (cur : gmap string Q) (c : string) :
  sound_coin_age now cur c [] = None.
Proof.
  unfold sound_coin_age. cbn. now destruct (Qltb (py_abs (default 0 (cur !! c))) ages_eps).
Qed.

(** On a log with sound times the call returns, and the age of an
    instrument is the one the loop body computes from that instrument's own
    fills, taken in the order of the log. *)
Lemma ages_lookup (now : Q) (fills : list Fill) (positions : list PositionView) :
  Forall sound_time fills ->
  exists ages,
    infer_position_ages_from_fills now fills positions = Ok ages
    /\ forall c, ages !! c = sound_coin_age now (cur_by_coin positions) c (fills_of c fills).
Proof.
  intros Hall. unfold infer_position_ages_from_fills. cbv zeta.
  rewrite ages_fold_sound.
  2:{ apply Forall_forall. intros [c0 fs0] Hin. cbn [snd].
      apply group_by_coin_entries in Hin as (_ & _ & Hfs).
      apply Forall_forall. intros f Hf. rewrite Forall_forall in Hall.
      apply Hall. now apply Hfs. }
  eexists. split; [reflexivity|]. intros c.
  destruct (group_by_coin_get (list_to_set (map coin positions)) fills c) as [Hnd Hget].
  rewrite ages_fold_lookup by exact Hnd. rewrite Hget, lookup_empty.
  destruct (decide (c ∈ (list_to_set (map coin positions) : gset string))) as [Hc | Hc].
  - destruct (fills_of c fills) as [|f fs] eqn:E.
    + cbn [mbind option_bind]. now rewrite sound_coin_age_no_fills.
    + cbn [mbind option_bind]. now destruct (sound_coin_age _ _ _ _).
  - cbn [mbind option_bind].
    now rewrite sound_coin_age_no_position by now apply cur_by_coin_not_needed.
Qed.

(** *** The opening time *)

Lemma open_time_next_opens (o : option Z) (f : Fill) (ts : Z) :
  fill_time f = Some ts -> opens f -> open_time_next o f = Some ts.
Proof.
  intros Ht [Hs He]. unfold open_time_next, open_time_update. rewrite Ht. cbv zeta.
  apply Qltb_lt in Hs. apply Qltb_lt in He as He'. rewrite Hs, He'. simpl andb. cbv iota.
  assert (E : Qltb (py_abs (end_pos f)) ages_eps = false) by (apply Qltb_ge; lra).
  rewrite E. now destruct (Qltb _ 0).
Qed.

Lemma open_time_next_flips (o : option Z) (f : Fill) (ts : Z) :
  fill_time f = Some ts -> flips f -> open_time_next o f = Some ts.
Proof.
  intros Ht Hf. unfold open_time_next, open_time_update. rewrite Ht. cbv zeta.
  apply Qltb_lt in Hf. now rewrite Hf.
Qed.

Lemma open_time_next_keeps (o : option Z) (f : Fill) :
  ~ opens f -> ~ closes f -> ~ flips f -> open_time_next o f = o.
Proof.
  intros Ho Hc Hf. unfold open_time_next. destruct (fill_time f) as [ts|]; [|reflexivity].
  unfold open_time_update. cbv zeta.
  destruct (Qltb (startPosition f * end_pos f) 0) eqn:E.
  { apply Qltb_lt in E. contradiction. }
  destruct (Qltb (py_abs (end_pos f)) ages_eps) eqn:E0.
  { apply Qltb_lt in E0. contradiction. }
  destruct (Qltb (py_abs (startPosition f)) ages_eps) eqn:E1; [|reflexivity].
  destruct (Qltb ages_eps (py_abs (end_pos f))) eqn:E2; [|reflexivity].
  apply Qltb_lt in E1, E2. exfalso. apply Ho. now split.
Qed.

Lemma open_time_next_idle (f : Fill) :
  ~ opens f -> ~ flips f -> open_time_next None f = None.
Proof.
  intros Ho Hf. unfold open_time_next. destruct (fill_time f) as [ts|]; [|reflexivity].
  unfold open_time_update. cbv zeta.
  destruct (Qltb (startPosition f * end_pos f) 0) eqn:E.
  { apply Qltb_lt in E. contradiction. }
  destruct (Qltb (py_abs (end_pos f)) ages_eps); [reflexivity|].
  destruct (Qltb (py_abs (startPosition f)) ages_eps) eqn:E1; [|reflexivity].
  destruct (Qltb ages_eps (py_abs (end_pos f))) eqn:E2; [|reflexivity].
  apply Qltb_lt in E1, E2. exfalso. apply Ho. now split.
Qed.

Lemma open_time_fold_idle (l : list Fill) :
  Forall (fun f => ~ opens f /\ ~ flips f) l ->
  fold_left open_time_next l None = None.
Proof.
  induction 1 as [|f l [Ho Hf] _ IH]; [reflexivity|].
  cbn [fold_left]. now rewrite open_time_next_idle.
Qed.

Lemma open_time_fold_keeps (l : list Fill) : forall o,
  Forall (fun f => fill_time f = None \/ (~ opens f /\ ~ closes f /\ ~ flips f)) l ->
  fold_left open_time_next l o = o.
Proof.
  induction l as [|f l IH]; intros o Hall; [reflexivity|].
  inversion Hall as [|? ? Hf Hl]; subst. cbn [fold_left].
  assert (E : open_time_next o f = o).
  { destruct Hf as [Hf | (Ho & Hc & Hf)]; [|now apply open_time_next_keeps].
    unfold open_time_next. now rewrite Hf. }
  rewrite E. now apply IH.
Qed.

(** The loop ends on the time of the last fill that opens or flips the
    position when no later fill opens, closes or flips it. *)
Lemma open_time_fold_latest (l : list Fill) (t : Z) : forall o,
  StronglySorted (fun x y => by_time y x = false) l ->
  (exists f, f ∈ l /\ fill_time f = Some t) ->
  (forall g t', g ∈ l -> fill_time g = Some t' ->
     (t' = t -> opens g \/ flips g)
     /\ ((t < t')%Z -> ~ opens g /\ ~ closes g /\ ~ flips g)) ->
  fold_left open_time_next l o = Some t.
Proof.
  induction l as [|a rest IH]; intros o Hs Hex Hall.
  { destruct Hex as (f & Hf & _). inversion Hf. }
  apply StronglySorted_inv in Hs as [Hs Ha]. cbn [fold_left].
  destruct (decide (Exists (fun g => fill_time g = Some t) rest)) as [Hlater | Hlater].
  - apply IH; [exact Hs | |].
    + apply Exists_exists in Hlater as (g & Hg & Hgt). exists g.
      split; [exact Hg | exact Hgt].
    + intros g t' Hg. apply Hall. now right.
  - assert (Hat : fill_time a = Some t).
    { destruct Hex as (f & Hf & Hft). apply elem_of_cons in Hf as [-> | Hf]; [exact Hft|].
      exfalso. apply Hlater, Exists_exists. exists f.
      split; [exact Hf | exact Hft]. }
    assert (Hstep : open_time_next o a = Some t).
    { destruct (Hall a t (list_elem_of_here _ _) Hat) as [Hopen _].
      destruct (Hopen eq_refl) as [Ho | Hf];
        [now apply open_time_next_opens | now apply open_time_next_flips]. }
    rewrite Hstep. apply open_time_fold_keeps.
    apply Forall_forall. intros g Hg.
    destruct (fill_time g) as [t'|] eqn:Eg; [right | now left].
    destruct (Hall g t' (list_elem_of_further _ _ _ Hg) Eg) as [_ Hidle].
    apply Hidle.
    rewrite Forall_forall in Ha. specialize (Ha g Hg). cbv beta in Ha.
    unfold by_time in Ha. rewrite Hat, Eg in Ha. simpl in Ha. apply Z.ltb_ge in Ha.
    destruct (decide (t' = t)) as [-> | Hne]; [|lia].
    exfalso. apply Hlater, Exists_exists. exists g. split; [exact Hg | exact Eg].
Qed.

Lemma age_from_inj (now : Q) (t t' : Z) : age_from now t == age_from now t' -> t = t'.
Proof.
  unfold age_from. intros Heq.
  apply Qmult_inj_r in Heq; [|discriminate].
  assert (Hz : inject_Z t / 1000 == inject_Z t' / 1000) by lra.
  apply Qmult_inj_r in Hz; [|discriminate].
  unfold Qeq in Hz. simpl in Hz. lia.
Qed.

(** The age of a position that is not (about) zero when the loop ends on
    the time of the last fill that opens or flips the position. *)
Lemma sound_coin_age_latest (now : Q) (cur : gmap string Q) (c : string) (size : Q)
    (fs : list Fill) (t : Z) :
  cur !! c = Some size -> ages_eps <= py_abs size ->
  (exists f, f ∈ fs /\ fill_time f = Some t) ->
  (forall g t', g ∈ fs -> fill_time g = Some t' ->
     (t' = t -> opens g \/ flips g)
     /\ ((t < t')%Z -> ~ opens g /\ ~ closes g /\ ~ flips g)) ->
  sound_coin_age now cur c fs = Some (age_from now t).
Proof.
  intros Hcur Hsz (f & Hf & Hft) Hall.
  unfold sound_coin_age. cbv zeta. rewrite Hcur. simpl default.
  assert (E : Qltb (py_abs size) ages_eps = false) by now apply Qltb_ge.
  rewrite E.
  rewrite (open_time_fold_latest (py_sorted by_time fs) t).
  - reflexivity.
  - apply by_time_sorted.
  - exists f. split; [|exact Hft]. now rewrite py_sorted_perm.
  - intros g t' Hg. rewrite py_sorted_perm in Hg. now apply Hall.
Qed.

(** C7: on a log whose times are absent or integers in the range of
    datetime, for an instrument whose current size is at least 1e-10 in
    absolute value: when [t2] is the time of a fill of the instrument, every
    fill of the instrument at [t2] opens or flips the position and no fill
    of the instrument after [t2] opens, closes or flips it (as in a log that
    opens at [t0], closes at [t1] and reopens at [t2] with [t0 < t1 < t2]),
    the call returns and the age of the instrument is counted from [t2]; it
    is not the age counted from any other time [t0]. *)
Theorem age_from_reopen (now : Q) (fills : list Fill) (positions : list PositionView)
    (c : string) (cur : Q) (t0 t2 : Z) :
  Forall sound_time fills ->
  cur_by_coin positions !! c = Some cur -> ages_eps <= py_abs cur ->
  (exists f, f ∈ fills /\ fill_coin f = Some c /\ fill_time f = Some t2) ->
  (forall g t, g ∈ fills -> fill_coin g = Some c -> fill_time g = Some t ->
     (t = t2 -> opens g \/ flips g)
     /\ ((t2 < t)%Z -> ~ opens g /\ ~ closes g /\ ~ flips g)) ->
  t0 <> t2 ->
  exists ages,
    infer_position_ages_from_fills now fills positions = Ok ages
    /\ ages !! c = Some (age_from now t2)
    /\ ~ age_from now t2 == age_from now t0.
Proof.
  intros Hsound Hcur Hsz (f & Hf & Hfc & Hft) Hall Hne.
  destruct (ages_lookup now fills positions Hsound) as (ages & Hok & Hlk).
  exists ages. split; [exact Hok|]. split.
  - rewrite Hlk. apply (sound_coin_age_latest now _ c cur); [exact Hcur | exact Hsz | |].
    + exists f. split; [|exact Hft]. unfold fills_of. now apply list_elem_of_filter.
    + intros g t' Hg. unfold fills_of in Hg.
      apply list_elem_of_filter in Hg as [Hgc Hg]. now apply Hall.
  - intros Heq. apply age_from_inj in Heq. congruence.
Qed.

Lemma age_from_reopen_witness :
  exists ages,
    infer_position_ages_from_fills 1000000
      [mkFill (Some "BTC") (TimeInt 3000) 0 "B" 2;
       mkFill (Some "BTC") (TimeInt 1000) 0 "B" 1;
       mkFill (Some "BTC") (TimeInt 2000) 1 "A" 1]
      [mkPositionView "BTC" LONG 2 50000 (Some 50000) 100000 0 None 10 (Some 40000)
         5000 (Some 50) (Some 20) None]
    = Ok ages
    /\ ages !! "BTC" = Some (age_from 1000000 3000)
    /\ ~ age_from 1000000 3000 == age_from 1000000 1000.
Proof.
  apply (age_from_reopen 1000000 _ _ "BTC" 2 1000 3000).
  - repeat constructor; discriminate.
  - vm_compute. reflexivity.
  - vm_compute. discriminate.
  - exists (mkFill (Some "BTC") (TimeInt 3000) 0 "B" 2).
    split; [left | split; reflexivity].
  - intros g t Hg Hc Ht.
    repeat (apply elem_of_cons in Hg as [-> | Hg]); [| | | inversion Hg];
      injection Ht as <-; (split; [|lia]).
    + intros _. left. split; reflexivity.
    + discriminate.
    + discriminate.
  - discriminate.
Defined.

(** C7, as stated, fails in three ways.  A current size that is not zero
    but below 1e-10 in absolute value gets no age at all, on the log that
    opens at 1000, closes at 2000 and reopens at 3000.  A fill whose time is
    JSON null makes the call raise.  And when the close and the reopening
    carry the same time and the log lists the reopening first, the loop ends
    on the close and the age is counted from the first opening. *)
Lemma age_from_reopen_counterexample :
  (~ 5e-11 == 0
   /\ opens (mkFill (Some "BTC") (TimeInt 1000) 0 "B" 1)
   /\ closes (mkFill (Some "BTC") (TimeInt 2000) 1 "A" 1)
   /\ opens (mkFill (Some "BTC") (TimeInt 3000) 0 "B" 2)
   /\ infer_position_ages_from_fills 1000000
        [mkFill (Some "BTC") (TimeInt 1000) 0 "B" 1;
         mkFill (Some "BTC") (TimeInt 2000) 1 "A" 1;
         mkFill (Some "BTC") (TimeInt 3000) 0 "B" 2]
        [mkPositionView "BTC" LONG 5e-11 50000 (Some 50000) 0.0000025 0 None 10 None
           0 None None None]
      = Ok ∅)
  /\ infer_position_ages_from_fills 1000000
       [mkFill (Some "BTC") (TimeInt 1000) 0 "B" 1;
        mkFill (Some "BTC") TimeNull 1 "A" 1;
        mkFill (Some "BTC") (TimeInt 3000) 0 "B" 2]
       [mkPositionView "BTC" LONG 2 50000 (Some 50000) 100000 0 None 10 (Some 40000)
          5000 (Some 50) (Some 20) None]
     = Raise TypeError
  /\ (opens (mkFill (Some "BTC") (TimeInt 2000) 0 "B" 2)
      /\ closes (mkFill (Some "BTC") (TimeInt 2000) 1 "A" 1)
      /\ infer_position_ages_from_fills 1000000
           [mkFill (Some "BTC") (TimeInt 1000) 0 "B" 1;
            mkFill (Some "BTC") (TimeInt 2000) 0 "B" 2;
            mkFill (Some "BTC") (TimeInt 2000) 1 "A" 1]
           [mkPositionView "BTC" LONG 2 50000 (Some 50000) 100000 0 None 10 (Some 40000)
              5000 (Some 50) (Some 20) None]
         = Ok {[ "BTC" := age_from 1000000 1000 ]}).
Proof.
  split; [|split].
  - split; [discriminate|]. split; [split; reflexivity|]. split; [reflexivity|].
    split; [split; reflexivity|]. vm_compute. reflexivity.
  - vm_compute. reflexivity.
  - split; [split; reflexivity|]. split; [reflexivity|]. vm_compute. reflexivity.
Qed.

(** ** [apply_ranks] *)

Lemma compute_rank_scores_ok (w : Wallet) : exists s, compute_rank_scores w = Ok s.
Proof.
  unfold compute_rank_scores. cbv zeta.
  destruct (omap age_days (wallet_positions w)) as [|a ages] eqn:E.
  - eexists. reflexivity.
  - rewrite py_div_ok; [eexists; reflexivity|].
    unfold Qeq. simpl. lia.
Qed.

Lemma mapM_res_ok {A B : Type} (f : A -> res B) (g : A -> B) (l : list A) :
  (forall x, f x = Ok (g x)) -> mapM f l = Ok (map g l).
Proof.
  intros Hf. induction l as [|x rest IH]; [reflexivity|].
  cbn [mapM map]. rewrite Hf. cbn [mbind res_bind]. rewrite IH. reflexivity.
Qed.

Lemma assign_ranks_notin (o : list Wallet) : forall i m a,
  a ∉ map address o -> assign_ranks i o m !! a = m !! a.
Proof.
  induction o as [|w rest IH]; intros i m a Ha; [reflexivity|].
  cbn [assign_ranks]. cbn [map] in Ha. apply not_elem_of_cons in Ha as [Hne Ha].
  rewrite IH by assumption. now rewrite lookup_insert_ne.
Qed.

Lemma assign_ranks_lookup (o : list Wallet) : forall i m n w,
  NoDup (map address o) -> o !! n = Some w ->
  assign_ranks i o m !! address w = Some (i + n)%nat.
Proof.
  induction o as [|a rest IH]; intros i m n w Hnd Hn; [discriminate|].
  cbn [map] in Hnd. apply NoDup_cons in Hnd as [Ha Hnd]. cbn [assign_ranks].
  destruct n as [|n]; simpl in Hn.
  - injection Hn as ->. rewrite assign_ranks_notin by assumption.
    rewrite lookup_insert_eq. f_equal. lia.
  - rewrite (IH _ _ n) by assumption. f_equal. lia.
Qed.

Lemma assign_ranks_seq (o : list Wallet) (i : nat) (m : gmap string nat) :
  NoDup (map address o) ->
  map (fun w => assign_ranks i o m !! address w) o = map Some (seq i (length o)).
Proof.
  intros Hnd. apply list_eq. intros n.
  rewrite !list_lookup_fmap.
  destruct (o !! n) as [w|] eqn:E; simpl.
  - rewrite (assign_ranks_lookup o i m n w Hnd E).
    apply lookup_lt_Some in E as Hlt.
    now rewrite lookup_seq_lt.
  - apply lookup_ge_None in E. now rewrite lookup_seq_ge.
Qed.

Lemma precedes_lookup {A : Type} (x y : A) (l : list A) :
  precedes x y l <->
  exists n1 n2, (n1 < n2)%nat /\ l !! n1 = Some x /\ l !! n2 = Some y.
Proof.
  induction l as [|a rest IH]; simpl.
  - split; [tauto | intros (n1 & n2 & _ & H & _); discriminate].
  - rewrite IH. split.
    + intros [[-> Hy] | (n1 & n2 & Hlt & H1 & H2)].
      * apply list_elem_of_lookup in Hy as [n Hn].
        exists O, (S n). split; [lia|]. split; [reflexivity | exact Hn].
      * exists (S n1), (S n2). split; [lia|]. split; assumption.
    + intros (n1 & n2 & Hlt & H1 & H2).
      destruct n2 as [|n2]; [lia|]. simpl in H2.
      destruct n1 as [|n1]; simpl in H1.
      * left. injection H1 as ->. split; [reflexivity|].
        eapply list_elem_of_lookup_2, H2.
      * right. exists n1, n2. split; [lia|]. split; assumption.
Qed.

Lemma by_score_asym (key : rank_key) (x y : Wallet) :
  Qltb (rank_score key y) (rank_score key x) = true ->
  Qltb (rank_score key x) (rank_score key y) = false.
Proof. rewrite Qltb_lt, Qltb_ge. lra. Qed.

Lemma by_score_negtrans (key : rank_key) (x y z : Wallet) :
  Qltb (rank_score key y) (rank_score key x) = false ->
  Qltb (rank_score key z) (rank_score key y) = false ->
  Qltb (rank_score key z) (rank_score key x) = false.
Proof. rewrite !Qltb_ge. lra. Qed.

(** The ranks of one key over wallets with distinct addresses: every wallet
    of the cohort gets the 1-based position it has in the sorted list, and
    of two wallets the one that comes first in the cohort ranks first unless
    the other has a strictly greater score. *)
Lemma assign_ranks_sorted (key : rank_key) (ws : list Wallet) :
  NoDup (map address ws) ->
  let rk := fun w => assign_ranks 1 (sorted_by_score key ws) ∅ !! address w in
  (forall w, w ∈ ws -> exists n, rk w = Some (S n))
  /\ (exists rs, map rk ws = map Some rs /\ rs ≡ₚ seq 1 (length ws))
  /\ (forall i j wi wj ri rj,
        ws !! i = Some wi -> ws !! j = Some wj -> (i < j)%nat ->
        rk wi = Some ri -> rk wj = Some rj ->
        (rank_score key wj <= rank_score key wi -> (ri < rj)%nat)
        /\ (rank_score key wi < rank_score key wj -> (rj < ri)%nat)).
Proof.
  intros Hnd rk.
  set (o := sorted_by_score key ws) in *.
  assert (Hperm : o ≡ₚ ws) by apply py_sorted_perm.
  assert (Hndo : NoDup (map address o)).
  { assert (Hp : map address o ≡ₚ map address ws) by now apply Permutation_map.
    now rewrite Hp. }
  assert (Hrk : forall n w, o !! n = Some w -> rk w = Some (S n)).
  { intros n w Hn. unfold rk. now rewrite (assign_ranks_lookup o 1 ∅ n w Hndo Hn). }
  assert (Hprec : forall x y, precedes x y o -> forall rx ry,
             rk x = Some rx -> rk y = Some ry -> (rx < ry)%nat).
  { intros x y Hxy rx ry Hx Hy.
    apply precedes_lookup in Hxy as (n1 & n2 & Hlt & H1 & H2).
    rewrite (Hrk _ _ H1) in Hx. rewrite (Hrk _ _ H2) in Hy.
    injection Hx as <-. injection Hy as <-. lia. }
  split; [|split].
  - intros w Hw. rewrite <- Hperm in Hw.
    apply list_elem_of_lookup in Hw as [n Hn]. exists n. now apply Hrk.
  - exists (map (fun w => default O (rk w)) ws). split.
    + rewrite map_map. apply map_ext_in. intros w Hw.
      apply list_elem_of_In in Hw. rewrite <- Hperm in Hw.
      apply list_elem_of_lookup in Hw as [n Hn]. now rewrite (Hrk _ _ Hn).
    + transitivity (map (fun w => default O (rk w)) o).
      { apply Permutation_map. now symmetry. }
      assert (Hseq : map Some (map (fun w => default O (rk w)) o)
                     = map Some (seq 1 (length o))).
      { rewrite <- (assign_ranks_seq o 1 ∅ Hndo). rewrite map_map.
        apply map_ext_in. intros w Hw. apply list_elem_of_In in Hw.
        apply list_elem_of_lookup in Hw as [n Hn].
        fold (rk w). now rewrite (Hrk _ _ Hn). }
      apply (inj (fmap Some)) in Hseq. rewrite Hseq.
      unfold o, sorted_by_score. now rewrite py_sorted_length.
  - intros i j wi wj ri rj Hi Hj Hlt Hri Hrj.
    assert (Hij : precedes wi wj ws).
    { apply precedes_lookup. exists i, j. auto. }
    destruct (py_sorted_stable _ (by_score_asym key) (by_score_negtrans key) wi wj ws Hij)
      as [Hkeep Hswap].
    fold (sorted_by_score key ws) in Hkeep, Hswap. fold o in Hkeep, Hswap.
    split; intros Hs.
    + apply (Hprec wi wj); [|assumption|assumption].
      apply Hkeep. now apply Qltb_ge.
    + apply (Hprec wj wi); [|assumption|assumption].
      apply Hswap. now apply Qltb_lt.
Qed.

(** C4: for a cohort with distinct addresses [apply_ranks] returns, and for
    each rank key the ranks are a permutation of 1..N, earlier wallets rank
    before later ones unless the later score is strictly greater (a stable
    descending sort), and the wallet of rank 1 has the maximum score, every
    wallet before it in the cohort having a strictly smaller one. *)
Theorem apply_ranks_stable_descending (wallets : list Wallet) :
  NoDup (map address wallets) ->
  exists ws,
    apply_ranks wallets = Ok ws
    /\ map address ws = map address wallets
    /\ Forall2 (fun w w' => exists s, compute_rank_scores w = Ok s /\ rank_scores w' = Some s)
         wallets ws
    /\ forall key,
         (exists rs, map (fun w => ranks w key) ws = map Some rs
                     /\ rs ≡ₚ seq 1 (length wallets))
         /\ (forall i j wi wj,
               ws !! i = Some wi -> ws !! j = Some wj -> (i < j)%nat ->
               exists ri rj,
                 ranks wi key = Some ri /\ ranks wj key = Some rj
                 /\ (rank_score key wj <= rank_score key wi -> (ri < rj)%nat)
                 /\ (rank_score key wi < rank_score key wj -> (rj < ri)%nat))
         /\ (forall i wi,
               ws !! i = Some wi -> ranks wi key = Some 1%nat ->
               forall j wj, ws !! j = Some wj ->
                 rank_score key wj <= rank_score key wi
                 /\ ((j < i)%nat -> rank_score key wj < rank_score key wi)).
Proof.
  intros Hnd.
  set (g := fun w => set_rank_scores w
              match compute_rank_scores w with Ok s => s | Raise _ => mkRankScores 0 0 0 0 end).
  set (ws1 := map g wallets).
  set (rk := fun key w => assign_ranks 1 (sorted_by_score key ws1) ∅ !! address w).
  set (h := fun w => set_ranks w (fun k => rk k w)).
  assert (Happ : apply_ranks wallets = Ok (map h ws1)).
  { unfold apply_ranks. rewrite (mapM_res_ok _ g); [reflexivity|].
    intros w. unfold g. now destruct (compute_rank_scores_ok w) as [s ->]. }
  assert (Haddr : map address ws1 = map address wallets).
  { unfold ws1. rewrite map_map. reflexivity. }
  assert (Hnd1 : NoDup (map address ws1)) by now rewrite Haddr.
  assert (Hlen : length ws1 = length wallets) by (unfold ws1; apply length_map).
  assert (Hlook : forall i wi, map h ws1 !! i = Some wi ->
            exists w1, ws1 !! i = Some w1 /\ (forall key, ranks wi key = rk key w1)
                       /\ (forall key, rank_score key wi = rank_score key w1)).
  { intros i wi Hi. rewrite list_lookup_fmap in Hi.
    destruct (ws1 !! i) as [w1|]; [|discriminate]. injection Hi as <-.
    exists w1. split; [reflexivity|]. split; intros key; reflexivity. }
  exists (map h ws1). split; [exact Happ|]. split; [|split].
  - rewrite map_map. exact Haddr.
  - unfold ws1. rewrite map_map. apply Forall2_fmap_r, Forall_Forall2_diag, Forall_forall.
    intros w _. destruct (compute_rank_scores_ok w) as [s Hs]. exists s.
    split; [exact Hs|]. unfold h, g. simpl. now rewrite Hs.
  - intros key.
    destruct (assign_ranks_sorted key ws1 Hnd1) as (Hpos & (rs & Hrs & Hperm) & Hord).
    fold (rk key) in Hpos, Hrs, Hord.
    split; [|split].
    + exists rs. split; [|now rewrite <- Hlen].
      rewrite map_map. exact Hrs.
    + intros i j wi wj Hi Hj Hlt.
      destruct (Hlook i wi Hi) as (w1i & H1i & Hri & Hsi).
      destruct (Hlook j wj Hj) as (w1j & H1j & Hrj & Hsj).
      destruct (Hpos w1i) as [ni Hni]; [eapply list_elem_of_lookup_2, H1i|].
      destruct (Hpos w1j) as [nj Hnj]; [eapply list_elem_of_lookup_2, H1j|].
      exists (S ni), (S nj). rewrite Hri, Hrj, Hsi, Hsj.
      split; [exact Hni|]. split; [exact Hnj|].
      exact (Hord i j w1i w1j (S ni) (S nj) H1i H1j Hlt Hni Hnj).
    + intros i wi Hi Hone j wj Hj.
      destruct (Hlook i wi Hi) as (w1i & H1i & Hri & Hsi).
      destruct (Hlook j wj Hj) as (w1j & H1j & Hrj & Hsj).
      rewrite Hri in Hone. rewrite Hsi, Hsj.
      destruct (Hpos w1j) as [nj Hnj]; [eapply list_elem_of_lookup_2, H1j|].
      destruct (lt_eq_lt_dec i j) as [[Hlt | Heq] | Hgt].
      * destruct (Hord i j w1i w1j 1%nat (S nj) H1i H1j Hlt Hone Hnj) as [_ Hsw].
        split; [|lia].
        destruct (Qlt_le_dec (rank_score key w1i) (rank_score key w1j)) as [Hs | Hs];
          [|exact Hs].
        specialize (Hsw Hs). lia.
      * subst j. rewrite H1i in H1j. injection H1j as <-.
        split; [apply Qle_refl | lia].
      * destruct (Hord j i w1j w1i (S nj) 1%nat H1j H1i Hgt Hnj Hone) as [Hkeep _].
        assert (Hs : rank_score key w1j < rank_score key w1i).
        { destruct (Qlt_le_dec (rank_score key w1j) (rank_score key w1i)) as [Hs | Hs];
            [exact Hs|].
          specialize (Hkeep Hs). lia. }
        split; [lra | intros _; exact Hs].
Qed.

Lemma apply_ranks_stable_descending_witness :
  let w a r := mkWallet a 100000 [] (Some 50) None None None r None None (fun _ => None) in
  exists ws, apply_ranks [w "0xaa" 10; w "0xbb" 30; w "0xcc" 30] = Ok ws.
Proof.
  intros w.
  destruct (apply_ranks_stable_descending [w "0xaa" 10; w "0xbb" 30; w "0xcc" 30])
    as (ws & Hws & _).
  - apply (bool_decide_unpack _). vm_compute. exact I.
  - exists ws. exact Hws.
Defined.

(** ** [_post_json] *)

Lemma retryable_status_iff (status_code : Z) :
  retryable_status status_code = true
  <-> status_code ∈ [429; 500; 502; 503; 504]%Z.
Proof. unfold retryable_status. apply bool_decide_eq_true. Qed.

Lemma client_wait_post (env : Env) (p : payload) (c : Client) :
  client_post env p (client_wait c)
  = (http_post env (posts c) p,
     mkClient (wait (limiter c) (clock c)).1 (wait (limiter c) (clock c)).2
       (S (posts c)) (randoms c) (log c ++ [EvWait; EvPost p])).
Proof.
  unfold client_post, client_wait. destruct (wait (limiter c) (clock c)) as [rl now].
  simpl. now rewrite <- app_assoc.
Qed.

(** C3: a response whose status is in the 500-599 range but not one of
    500, 502, 503, 504 (for instance 501) is not retried: the client calls
    [note_ok] and [_post_json] returns [None] after this one post, however
    many retries remain, where the claim (and the module's own description
    of its retries, 429/5xx) has it retried after [note_error]. *)
Theorem post_json_5xx_not_retried (env : Env) (retry : RetryCfg) (p : payload)
    (c : Client) (status_code : Z) (body : option json) :
  (0 <= retries retry)%Z ->
  http_post env (posts c) p = Response status_code body ->
  (500 <= status_code <= 599)%Z -> status_code ∉ [500; 502; 503; 504]%Z ->
  (_post_json env retry p c).1 = JNull
  /\ log (_post_json env retry p c).2 = log c ++ [EvWait; EvPost p; EvNoteOk]
  /\ limiter (_post_json env retry p c).2 = note_ok (wait (limiter c) (clock c)).1
  /\ posts (_post_json env retry p c).2 = S (posts c).
Proof.
  intros Hr Hresp Hrange Hst.
  assert (E200 : (status_code =? 200)%Z = false) by (apply Z.eqb_neq; lia).
  assert (E : retryable_status status_code = false).
  { destruct (retryable_status status_code) eqn:E; [|reflexivity].
    apply retryable_status_iff in E. exfalso.
    apply elem_of_cons in E as [-> | E]; [lia | contradiction]. }
  assert (Hatt : post_attempt env retry p 0 c
                 = (Returned JNull,
                    client_note_ok
                      (mkClient (wait (limiter c) (clock c)).1 (wait (limiter c) (clock c)).2
                         (S (posts c)) (randoms c) (log c ++ [EvWait; EvPost p])))).
  { unfold post_attempt. now rewrite client_wait_post, Hresp, E200, E. }
  unfold _post_json.
  destruct (Z.to_nat (retries retry + 1)) as [|n] eqn:En; [lia|].
  cbn [post_loop]. rewrite Hatt. simpl.
  split; [reflexivity|]. split; [now rewrite <- app_assoc|]. split; reflexivity.
Qed.

Lemma post_json_5xx_not_retried_witness :
  (_post_json (mkEnv (fun _ _ => Response 501 None) (fun _ => 0)) RetryCfg_default
     AllMids (HLClient_init 0)).1 = JNull
  /\ log (_post_json (mkEnv (fun _ _ => Response 501 None) (fun _ => 0)) RetryCfg_default
            AllMids (HLClient_init 0)).2
     = [EvWait; EvPost AllMids; EvNoteOk].
Proof.
  destruct (post_json_5xx_not_retried (mkEnv (fun _ _ => Response 501 None) (fun _ => 0))
              RetryCfg_default AllMids (HLClient_init 0) 501 None) as (H1 & H2 & _).
  - simpl. lia.
  - reflexivity.
  - lia.
  - apply (bool_decide_unpack _). vm_compute. exact I.
  - split; [exact H1 | exact H2].
Defined.

(** ** [batch_clearinghouse_states_adaptive] *)

Lemma dedupe_loop_elem (items : list string) : forall (seen : gset string) (x : string),
  x ∈ dedupe_loop seen items <-> x ∈ items /\ x ∉ seen.
Proof.
  induction items as [|y rest IH]; intros seen x; simpl.
  - split; [intros H; inversion H | intros [H _]; inversion H].
  - destruct (decide (y ∈ seen)) as [Hy | Hy].
    + rewrite IH, elem_of_cons. split.
      * intros [H1 H2]. auto.
      * intros [[-> | H1] H2]; [contradiction | auto].
    + rewrite !elem_of_cons, IH. split.
      * intros [-> | [H1 H2]]; [auto|]. split; [auto|]. set_solver.
      * intros [[-> | H1] H2]; [auto|].
        destruct (decide (x = y)) as [-> | Hne]; [auto|]. right. split; [auto|]. set_solver.
Qed.

Lemma dedupe_loop_NoDup (items : list string) : forall (seen : gset string),
  NoDup (dedupe_loop seen items).
Proof.
  induction items as [|y rest IH]; intros seen; simpl; [constructor|].
  destruct (decide (y ∈ seen)); [apply IH|].
  constructor; [|apply IH].
  rewrite dedupe_loop_elem. set_solver.
Qed.

Lemma dedupe_keep_order_elem (items : list string) (x : string) :
  x ∈ dedupe_keep_order items <-> x ∈ items.
Proof. unfold dedupe_keep_order. rewrite dedupe_loop_elem. set_solver. Qed.

Lemma chunks_from_spec (n : nat) : forall (fuel : nat) (lst : list string),
  (1 <= n)%nat -> (length lst <= fuel)%nat ->
  concat (chunks_from fuel n lst) = lst
  /\ Forall (fun part => (length part <= length lst)%nat) (chunks_from fuel n lst).
Proof.
  intros fuel. induction fuel as [|fuel IH]; intros lst Hn Hlen.
  - destruct lst; [split; [reflexivity | constructor] | simpl in Hlen; lia].
  - destruct lst as [|x rest]; [split; [reflexivity | constructor]|].
    cbn [chunks_from].
    assert (Hd : (length (drop n (x :: rest)) <= fuel)%nat).
    { rewrite length_drop. simpl in *. lia. }
    destruct (IH (drop n (x :: rest)) Hn Hd) as [Hc Hf].
    split.
    + cbn [concat]. rewrite Hc. apply take_drop.
    + constructor.
      * rewrite length_take. lia.
      * eapply Forall_impl; [exact Hf|]. intros part Hp. simpl in Hp.
        rewrite length_drop in Hp. lia.
Qed.

Lemma covered_insert (states : gmap string json) (failed : list string) (a : string) (st : json) :
  covered (<[a := st]> states, failed) = covered (states, failed) ∪ {[ a ]}.
Proof. unfold covered. simpl. rewrite dom_insert_L. set_solver. Qed.

Lemma covered_append (states : gmap string json) (failed more : list string) :
  covered (states, failed ++ more) = covered (states, failed) ∪ list_to_set more.
Proof. unfold covered. simpl. rewrite list_to_set_app_L. set_solver. Qed.

Lemma covered_merge (acc sub : fetched) :
  covered (merge_fetched acc sub) = covered acc ∪ covered sub.
Proof.
  unfold covered, merge_fetched. simpl. rewrite dom_union_L, list_to_set_app_L. set_solver.
Qed.

Lemma pair_states_covered (part : list string) : forall (resp : list json) (acc : fetched),
  length resp = length part ->
  covered (pair_states part resp acc) = covered acc ∪ list_to_set part.
Proof.
  induction part as [|a part IH]; intros resp acc Hlen.
  - destruct resp; simpl; set_solver.
  - destruct resp as [|st resp]; [discriminate|]. destruct acc as [states failed].
    cbn [pair_states]. rewrite IH by (simpl in Hlen; lia).
    destruct (is_dict st).
    + rewrite covered_insert. set_solver.
    + rewrite covered_append. set_solver.
Qed.

Lemma fallback_states_covered (env : Env) (retry : RetryCfg) (part : list string) :
  forall (acc : fetched) (c : Client),
    covered (fallback_states env retry part acc c).1 = covered acc ∪ list_to_set part.
Proof.
  induction part as [|a part IH]; intros acc c.
  - simpl. set_solver.
  - destruct acc as [states failed]. cbn [fallback_states].
    destruct (clearinghouse_state env retry a c) as [st c1].
    rewrite IH. destruct (truthy_state st).
    + rewrite covered_insert. set_solver.
    + rewrite covered_append. set_solver.
Qed.

Lemma resp_items_length (resp : json) (part : list string) (items : list json) :
  resp_items resp part = Some items -> length items = length part.
Proof.
  unfold resp_items. destruct resp; try discriminate.
  destruct (length items0 =? length part)%nat eqn:E; [|discriminate].
  intros [= <-]. now apply Nat.eqb_eq.
Qed.

Section fetch_parts_spec.
Variables (env : Env) (retry : RetryCfg).
Variables (min_batch_size : Z) (fallback_per_user : bool).
Variable recurse : list string -> Z -> fetch fetched.
Variable k : nat.
Hypothesis min_batch_size_pos : (1 <= min_batch_size)%Z.
Hypothesis recurse_spec : forall users size c,
  (length users < k)%nat -> (1 <= size)%Z ->
  exists r c', recurse users size c = Ok (r, c') /\ partitioned users r.

Lemma fetch_part_spec (part : list string) (acc : fetched) (c : Client) :
  (length part <= k)%nat ->
  exists acc' c',
    fetch_part env retry min_batch_size fallback_per_user recurse part acc c = Ok (acc', c')
    /\ covered acc' = covered acc ∪ list_to_set part.
Proof.
  intros Hlen. unfold fetch_part.
  destruct (_post_json env retry (BatchClearinghouseStates part) c) as [resp c1].
  destruct (resp_items resp part) as [items|] eqn:Eitems.
  - eexists _, _. split; [reflexivity|].
    apply pair_states_covered. eapply resp_items_length, Eitems.
  - destruct (min_batch_size <? Z.of_nat (length part))%Z eqn:Esplit.
    + apply Z.ltb_lt in Esplit. cbv zeta.
      set (mid := (length part / 2)%nat).
      assert (Hmid : (1 <= mid < length part)%nat).
      { subst mid. split.
        - apply Nat.div_le_lower_bound; lia.
        - apply Nat.div_lt; lia. }
      destruct (recurse_spec (take mid part)
                  (Z.max min_batch_size (Z.of_nat (length (take mid part)))) c1)
        as (r1 & c2 & -> & Hc1 & _).
      { rewrite length_take. lia. }
      { lia. }
      cbn [mbind res_bind].
      destruct (recurse_spec (drop mid part)
                  (Z.max min_batch_size (Z.of_nat (length (drop mid part)))) c2)
        as (r2 & c3 & -> & Hc2 & _).
      { rewrite length_drop. lia. }
      { lia. }
      cbn [mbind res_bind].
      eexists _, _. split; [reflexivity|].
      rewrite !covered_merge, Hc1, Hc2.
      rewrite <- (take_drop mid part) at 3. rewrite list_to_set_app_L. set_solver.
    + destruct fallback_per_user.
      * destruct (fallback_states env retry part acc c1) as [acc' c2] eqn:Ef.
        eexists _, _. split; [reflexivity|].
        pose proof (fallback_states_covered env retry part acc c1) as H.
        now rewrite Ef in H.
      * eexists _, _. split; [reflexivity|].
        destruct acc as [states failed]. apply covered_append.
Qed.

Lemma fetch_parts_spec (parts : list (list string)) :
  forall (acc : fetched) (c : Client),
    Forall (fun part => (length part <= k)%nat) parts ->
    exists acc' c',
      fetch_parts env retry min_batch_size fallback_per_user recurse parts acc c
      = Ok (acc', c')
      /\ covered acc' = covered acc ∪ list_to_set (concat parts).
Proof.
  induction parts as [|part rest IH]; intros acc c Hall.
  - eexists _, _. split; [reflexivity|]. simpl. set_solver.
  - inversion Hall as [|? ? Hpart Hrest]; subst. cbn [fetch_parts].
    destruct (fetch_part_spec part acc c Hpart) as (acc1 & c1 & -> & Hc1).
    cbn [mbind res_bind].
    destruct (IH acc1 c1 Hrest) as (acc2 & c2 & -> & Hc2).
    eexists _, _. split; [reflexivity|].
    rewrite Hc2, Hc1. cbn [concat]. rewrite list_to_set_app_L. set_solver.
Qed.
End fetch_parts_spec.

Lemma batch_partitioned (env : Env) (retry : RetryCfg) (min_batch_size : Z)
    (fallback_per_user : bool) :
  (1 <= min_batch_size)%Z ->
  forall (fuel : nat) (users : list string) (batch_size : Z) (c : Client),
    (length users < fuel)%nat -> (1 <= batch_size)%Z ->
    exists r c',
      batch_clearinghouse_states_adaptive fuel env retry users batch_size min_batch_size
        fallback_per_user c = Ok (r, c')
      /\ partitioned users r.
Proof.
  intros Hmin fuel. induction fuel as [|fuel IH]; intros users batch_size c Hfuel Hsize; [lia|].
  cbn [batch_clearinghouse_states_adaptive].
  unfold chunks.
  assert (E0 : (batch_size =? 0)%Z = false) by (apply Z.eqb_neq; lia).
  assert (E1 : (batch_size <? 0)%Z = false) by (apply Z.ltb_ge; lia).
  rewrite E0, E1. cbn [mbind res_bind].
  destruct (chunks_from_spec (Z.to_nat batch_size) (length users) users) as [Hcat Hparts];
    [lia | lia |].
  destruct (fetch_parts_spec env retry min_batch_size fallback_per_user
              (fun half size =>
                 batch_clearinghouse_states_adaptive fuel env retry half size
                   min_batch_size fallback_per_user)
              (length users) Hmin) with
    (parts := chunks_from (length users) (Z.to_nat batch_size) users)
    (acc := ((∅, []) : fetched)) (c := c)
    as ([states failed] & c' & -> & Hcov).
  { intros us size c0 Hus Hsz. apply IH; [lia | exact Hsz]. }
  { exact Hparts. }
  cbn [mbind res_bind].
  eexists _, _. split; [reflexivity|].
  rewrite Hcat in Hcov. unfold covered in Hcov. simpl in Hcov.
  unfold partitioned, covered. simpl. split; [|split].
  - apply set_eq. intros a.
    assert (Ha : a ∈ dom states ∪ list_to_set failed <-> a ∈ (list_to_set users : gset string))
      by (rewrite Hcov; set_solver).
    rewrite <- Ha. rewrite !elem_of_union, !elem_of_list_to_set, list_elem_of_filter,
      dedupe_keep_order_elem, elem_of_dom.
    destruct (states !! a) eqn:E; split.
    + intros _. left. eauto.
    + intros _. left. eauto.
    + intros [[x Hx] | [_ H]]; [discriminate | now right].
    + intros [[x Hx] | H]; [discriminate | right; auto].
  - intros a Ha. now apply list_elem_of_filter in Ha as [Ha _].
  - apply NoDup_filter. apply dedupe_loop_NoDup.
Qed.




(** * Further properties of the helpers *)

(** ** [dedupe_keep_order] *)

Lemma dedupe_loop_snoc (items : list string) : forall (seen : gset string) (x : string),
  dedupe_loop seen (items ++ [x])
  = dedupe_loop seen items
    ++ (if decide (x ∈ seen \/ x ∈ items) then [] else [x]).
Proof.
  induction items as [|y rest IH]; intros seen x; simpl.
  - destruct (decide (x ∈ seen)) as [Hs | Hs].
    + rewrite decide_True by auto. reflexivity.
    + rewrite decide_False; [reflexivity|]. intros [H | H]; [auto | inversion H].
  - destruct (decide (y ∈ seen)) as [Hy | Hy].
    + rewrite IH. f_equal. apply decide_ext. rewrite elem_of_cons. set_solver.
    + rewrite IH. simpl. f_equal. f_equal. apply decide_ext. rewrite elem_of_cons. set_solver.
Qed.

Lemma dedupe_loop_id (items : list string) : forall (seen : gset string),
  NoDup items -> (forall x, x ∈ items -> x ∉ seen) -> dedupe_loop seen items = items.
Proof.
  induction items as [|y rest IH]; intros seen Hnd Hseen; [reflexivity|].
  apply NoDup_cons in Hnd as [Hy Hnd]. simpl.
  rewrite decide_False by (apply Hseen; left).
  f_equal. apply IH; [exact Hnd|].
  intros x Hx. apply not_elem_of_union. split.
  - apply not_elem_of_singleton. intros ->. contradiction.
  - apply Hseen. now right.
Qed.

(** X1: [dedupe_keep_order] returns a duplicate-free list with the elements
    of its input; an item appended to the input is appended to the result
    exactly when it did not occur before, so each element stays at its
    first occurrence. *)
Theorem dedupe_keep_order_first_occurrences (items : list string) :
  NoDup (dedupe_keep_order items)
  /\ (forall x, x ∈ dedupe_keep_order items <-> x ∈ items)
  /\ dedupe_keep_order items `sublist_of` items
  /\ (forall x, dedupe_keep_order (items ++ [x])
                = dedupe_keep_order items ++ (if decide (x ∈ items) then [] else [x])).
Proof.
  split; [apply dedupe_loop_NoDup|].
  split; [apply dedupe_keep_order_elem|].
  split.
  - unfold dedupe_keep_order. generalize (∅ : gset string).
    induction items as [|y rest IH]; intros seen; simpl; [constructor|].
    destruct (decide (y ∈ seen)).
    + apply sublist_cons, IH.
    + apply sublist_skip, IH.
  - intros x. unfold dedupe_keep_order. rewrite dedupe_loop_snoc.
    f_equal. apply decide_ext. set_solver.
Qed.

(** X2: [dedupe_keep_order] leaves a duplicate-free list unchanged, hence
    applying it twice is the same as applying it once. *)
Theorem dedupe_keep_order_idempotent (items : list string) :
  (NoDup items -> dedupe_keep_order items = items)
  /\ dedupe_keep_order (dedupe_keep_order items) = dedupe_keep_order items.
Proof.
  assert (H : forall l, NoDup l -> dedupe_keep_order l = l).
  { intros l Hl. apply dedupe_loop_id; [exact Hl | set_solver]. }
  split; [apply H|]. apply H, dedupe_loop_NoDup.
Qed.

Lemma dedupe_keep_order_idempotent_witness :
  dedupe_keep_order ["0xaa"; "0xbb"] = ["0xaa"; "0xbb"].
Proof.
  destruct (dedupe_keep_order_idempotent ["0xaa"; "0xbb"]) as [H _].
  apply H. apply (bool_decide_unpack _). vm_compute. exact I.
Defined.

(** ** [chunks] *)

Lemma chunks_from_parts (n : nat) : forall (fuel : nat) (lst : list string),
  (1 <= n)%nat -> (length lst <= fuel)%nat ->
  Forall (fun part => part <> [] /\ (length part <= n)%nat) (chunks_from fuel n lst)
  /\ length (chunks_from fuel n lst) = ((length lst + n - 1) / n)%nat.
Proof.
  intros fuel. induction fuel as [|fuel IH]; intros lst Hn Hlen.
  - destruct lst; [|simpl in Hlen; lia]. simpl. split; [constructor|].
    symmetry. apply Nat.div_small. lia.
  - destruct lst as [|x rest].
    { simpl. split; [constructor|]. symmetry. apply Nat.div_small. lia. }
    cbn [chunks_from].
    assert (Hd : (length (drop n (x :: rest)) <= fuel)%nat).
    { rewrite length_drop. simpl in *. lia. }
    destruct (IH (drop n (x :: rest)) Hn Hd) as [Hf Hc].
    split.
    + constructor; [|exact Hf]. split.
      * destruct n; [lia|]. discriminate.
      * rewrite length_take. lia.
    + set (m := length (x :: rest)) in *.
      rewrite length_cons, Hc, length_drop. fold m.
      assert (Hm : (1 <= m)%nat) by (subst m; simpl; lia).
      destruct (Nat.le_gt_cases n m) as [Hge | Hlt].
      * replace (m + n - 1)%nat with ((m - n + n - 1) + 1 * n)%nat by lia.
        rewrite Nat.div_add by lia. lia.
      * replace (m - n + n - 1)%nat with (n - 1)%nat by lia.
        rewrite (Nat.div_small (n - 1) n) by lia.
        apply (Nat.div_unique _ _ 1 (m - 1)); lia.
Qed.

(** X3: [chunks] with a step of at least 1 cuts the list into consecutive
    non-empty slices of at most [n] items, ceil(len / n) of them, whose
    concatenation is the list; a zero step raises [ValueError] and a
    negative step yields no slice at all. *)
Theorem chunks_partition (lst : list string) (n : Z) :
  (n = 0%Z -> chunks lst n = Raise ValueError)
  /\ ((n < 0)%Z -> chunks lst n = Ok [])
  /\ ((1 <= n)%Z ->
      exists parts,
        chunks lst n = Ok parts
        /\ concat parts = lst
        /\ Forall (fun part => part <> [] /\ (Z.of_nat (length part) <= n)%Z) parts
        /\ length parts = ((length lst + Z.to_nat n - 1) / Z.to_nat n)%nat).
Proof.
  unfold chunks. split; [|split].
  - intros ->. reflexivity.
  - intros Hn. assert (E0 : (n =? 0)%Z = false) by (apply Z.eqb_neq; lia).
    apply Z.ltb_lt in Hn. now rewrite E0, Hn.
  - intros Hn. assert (E0 : (n =? 0)%Z = false) by (apply Z.eqb_neq; lia).
    assert (E1 : (n <? 0)%Z = false) by (apply Z.ltb_ge; lia).
    rewrite E0, E1. eexists. split; [reflexivity|].
    destruct (chunks_from_spec (Z.to_nat n) (length lst) lst) as [Hcat _]; [lia | lia |].
    destruct (chunks_from_parts (Z.to_nat n) (length lst) lst) as [Hparts Hcount];
      [lia | lia |].
    split; [exact Hcat|]. split; [|exact Hcount].
    eapply Forall_impl; [exact Hparts|]. intros part [Hne Hle]. split; [exact Hne | lia].
Qed.

Lemma chunks_partition_witness :
  exists parts,
    chunks ["a"; "b"; "c"; "d"; "e"] 2 = Ok parts
    /\ concat parts = ["a"; "b"; "c"; "d"; "e"]
    /\ length parts = 3%nat.
Proof.
  destruct (chunks_partition ["a"; "b"; "c"; "d"; "e"] 2) as (_ & _ & H).
  destruct H as (parts & Hp & Hc & _ & Hn); [lia|].
  exists parts. split; [exact Hp|]. split; [exact Hc | exact Hn].
Defined.

(** ** [stdev] and [max_drawdown] *)

Lemma fold_left_Qplus_ge (l : list Q) : forall acc,
  Forall (fun x => 0 <= x) l -> acc <= fold_left Qplus l acc.
Proof.
  induction l as [|x rest IH]; intros acc Hall; simpl; [apply Qle_refl|].
  inversion Hall as [|? ? Hx Hrest]; subst.
  eapply Qle_trans; [|apply IH; exact Hrest]. lra.
Qed.

Lemma py_sum_nonneg (l : list Q) : Forall (fun x => 0 <= x) l -> 0 <= py_sum l.
Proof. intros H. unfold py_sum. now apply fold_left_Qplus_ge. Qed.

Lemma Qsquare_nonneg (x : Q) : 0 <= x ^ 2.
Proof.
  change (x ^ 2) with (x * x).
  destruct (Qlt_le_dec x 0) as [H | H].
  - assert (E : x * x == (- x) * (- x)) by ring.
    rewrite E. apply Qmult_le_0_compat; lra.
  - now apply Qmult_le_0_compat.
Qed.

Lemma py_abs_le (x b : Q) : py_abs x <= b <-> - b <= x /\ x <= b.
Proof.
  unfold py_abs. destruct (Qltb x 0) eqn:E;
    [apply Qltb_lt in E | apply Qltb_ge in E]; split; intros; lra.
Qed.

Lemma fold_left_Qplus_bounds (b : Q) (l : list Q) : forall acc,
  Forall (fun x => - b <= x /\ x <= b) l ->
  acc - inject_Z (Z.of_nat (length l)) * b <= fold_left Qplus l acc
  /\ fold_left Qplus l acc <= acc + inject_Z (Z.of_nat (length l)) * b.
Proof.
  induction l as [|x rest IH]; intros acc Hall.
  - cbn [fold_left length]. change (inject_Z (Z.of_nat 0)) with 0. split; lra.
  - inversion Hall as [|? ? [Hx1 Hx2] Hrest]; subst. cbn [fold_left].
    destruct (IH (acc + x) Hrest) as [H1 H2].
    assert (E : inject_Z (Z.of_nat (length (x :: rest)))
                == inject_Z (Z.of_nat (length rest)) + 1).
    { cbn [length]. rewrite Nat2Z.inj_succ. unfold Z.succ. now rewrite inject_Z_plus. }
    rewrite E. split; lra.
Qed.

Lemma Qsquare_le (x c : Q) : - c <= x -> x <= c -> x ^ 2 <= c ^ 2.
Proof.
  intros H1 H2. change (x ^ 2) with (x * x). change (c ^ 2) with (c * c).
  assert (H : 0 <= (c - x) * (c + x)) by (apply Qmult_le_0_compat; lra).
  assert (E : (c - x) * (c + x) == c * c - x * x) by ring.
  rewrite E in H. lra.
Qed.

Lemma float_max_large : 4 * 1e150 ^ 2 <= float_max.
Proof. apply Qle_bool_imp_le. vm_compute. reflexivity. Qed.

Lemma py_pow2_ok (b x : Q) :
  4 * b ^ 2 <= float_max -> - (2 * b) <= x -> x <= 2 * b -> py_pow2 x = Ok (x ^ 2).
Proof.
  intros Hb H1 H2. unfold py_pow2.
  assert (E : Qltb float_max (x ^ 2) = false).
  { apply Qltb_ge. eapply Qle_trans; [apply (Qsquare_le x (2 * b) H1 H2)|].
    eapply Qle_trans; [|exact Hb].
    change ((2 * b) ^ 2) with ((2 * b) * (2 * b)).
    change (b ^ 2) with (b * b). apply Qle_lteq. right. ring. }
  now rewrite E.
Qed.

(** The mean of values within [[-b, b]] is within [[-b, b]]. *)
Lemma mean_bounds (b : Q) (values : list Q) :
  values <> [] -> Forall (fun x => - b <= x /\ x <= b) values ->
  - b <= py_sum values / inject_Z (Z.of_nat (length values))
  /\ py_sum values / inject_Z (Z.of_nat (length values)) <= b.
Proof.
  intros Hne Hall.
  assert (Hn : 0 < inject_Z (Z.of_nat (length values))).
  { change 0 with (inject_Z 0). rewrite <- Zlt_Qlt. destruct values; [congruence | simpl; lia]. }
  destruct (fold_left_Qplus_bounds b values 0 Hall) as [H1 H2]. fold (py_sum values) in H1, H2.
  split.
  - apply Qle_shift_div_l; [exact Hn|]. lra.
  - apply Qle_shift_div_r; [exact Hn|]. lra.
Qed.

(** The run of [stdev] on values of moderate size. *)
Lemma stdev_moderate (sqrt : Q -> Q) (values : list Q) :
  (2 <= length values)%nat -> Forall (fun v => py_abs v <= 1e150) values ->
  let n := Z.of_nat (length values) in
  let m := py_sum values / inject_Z n in
  stdev sqrt values
  = Ok (Some (sqrt (py_sum (map (fun v => (v - m) ^ 2) values) / inject_Z (n - 1)))).
Proof.
  intros Hlen Hall. cbv zeta. unfold stdev.
  assert (E : (length values <? 2)%nat = false) by (apply Nat.ltb_ge; lia).
  rewrite E.
  assert (Hn : 2 <= inject_Z (Z.of_nat (length values))).
  { change 2 with (inject_Z 2). rewrite <- Zle_Qle. lia. }
  rewrite py_div_ok by lra. cbn [mbind res_bind].
  pose proof float_max_large as Hmax. revert Hall Hmax.
  generalize 1e150. intros b Hall Hmax.
  assert (Hb : Forall (fun x => - b <= x /\ x <= b) values).
  { eapply Forall_impl; [exact Hall|]. intros v Hv. apply py_abs_le in Hv. exact Hv. }
  destruct (mean_bounds b values) as [Hm1 Hm2];
    [destruct values; [simpl in Hlen; lia | discriminate] | exact Hb |].
  rewrite (mapM_res_Forall _ (fun v =>
             (v - py_sum values / inject_Z (Z.of_nat (length values))) ^ 2)).
  2:{ eapply Forall_impl; [exact Hb|]. intros v [Hv1 Hv2]. cbv beta.
      apply (py_pow2_ok b); [exact Hmax | lra | lra]. }
  cbn [mbind res_bind].
  assert (Hn1 : inject_Z (Z.of_nat (length values) - 1)
                == inject_Z (Z.of_nat (length values)) - 1).
  { unfold Zminus. rewrite inject_Z_plus. reflexivity. }
  rewrite py_div_ok by (rewrite Hn1; lra). reflexivity.
Qed.

(** X4: [stdev] returns [None] below two values.  On values of at most
    1e150 in absolute value it neither divides by zero, nor overflows in
    the squares, nor takes the square root of a negative number: the
    result is [sqrt] of the Bessel-corrected variance, which is not
    negative.  Larger values can make a square overflow, and [stdev] then
    raises [OverflowError]. *)
Theorem stdev_defined (sqrt : Q -> Q) (values : list Q) :
  ((length values < 2)%nat -> stdev sqrt values = Ok None)
  /\ ((2 <= length values)%nat -> Forall (fun v => py_abs v <= 1e150) values ->
      let n := Z.of_nat (length values) in
      let m := py_sum values / inject_Z n in
      let var := py_sum (map (fun v => (v - m) ^ 2) values) / inject_Z (n - 1) in
      stdev sqrt values = Ok (Some (sqrt var)) /\ 0 <= var)
  /\ stdev sqrt [1e200; 0] = Raise OverflowError.
Proof.
  split; [|split].
  - intros Hlen. unfold stdev. apply Nat.ltb_lt in Hlen. now rewrite Hlen.
  - intros Hlen Hall. cbv zeta. split; [now apply stdev_moderate|].
    assert (Hn1 : 1 <= inject_Z (Z.of_nat (length values) - 1)).
    { change 1 with (inject_Z 1). rewrite <- Zle_Qle. lia. }
    apply Qle_shift_div_l; [lra|]. rewrite Qmult_0_l.
    apply py_sum_nonneg. apply Forall_forall. intros y Hy.
    apply list_elem_of_In, in_map_iff in Hy as (v & <- & _). apply Qsquare_nonneg.
  - vm_compute. reflexivity.
Qed.

Lemma stdev_defined_witness :
  stdev (fun x => x) [1; 2; 3]
  = Ok (Some (py_sum (map (fun v => (v - py_sum [1; 2; 3] / inject_Z 3) ^ 2) [1; 2; 3])
              / inject_Z (3 - 1))).
Proof.
  destruct (stdev_defined (fun x => x) [1; 2; 3]) as (_ & H & _).
  destruct H as [H _]; [simpl; lia | repeat constructor; discriminate |]. exact H.
Defined.

Lemma max_drawdown_loop_app (l1 l2 : list Q) : forall st,
  max_drawdown_loop st (l1 ++ l2)
  = st' ← max_drawdown_loop st l1; max_drawdown_loop st' l2.
Proof.
  induction l1 as [|v rest IH]; intros st; [reflexivity|].
  cbn [app max_drawdown_loop].
  destruct (max_drawdown_step st v) as [st1|e]; [|reflexivity].
  cbn [mbind res_bind]. apply IH.
Qed.

(** One step: the peak does not decrease and dominates the value, the
    drawdown does not decrease. *)
Lemma max_drawdown_step_grows (peak mdd v : Q) :
  exists peak' mdd',
    max_drawdown_step (peak, mdd) v = Ok (peak', mdd')
    /\ peak <= peak' /\ v <= peak' /\ mdd <= mdd'
    /\ (v <= peak -> peak' = peak)
    /\ (~ peak' == 0 -> (peak' - v) / peak' <= mdd').
Proof.
  unfold max_drawdown_step.
  set (p := if Qltb peak v then v else peak).
  assert (Hp : peak <= p /\ v <= p /\ (v <= peak -> p = peak)).
  { subst p. destruct (Qltb peak v) eqn:E.
    - apply Qltb_lt in E. repeat split; intros; try lra.
    - apply Qltb_ge in E. repeat split; intros; try lra; reflexivity. }
  destruct Hp as (Hp1 & Hp2 & Hp3).
  destruct (Qeq_bool p 0) eqn:E; simpl.
  - exists p, (py_max mdd 0). split; [reflexivity|].
    repeat split; try assumption.
    + py_minmax; lra.
    + intros Hne. apply Qeq_bool_iff in E. contradiction.
  - assert (Hp0 : ~ p == 0) by (intros Hc; apply Qeq_bool_iff in Hc; congruence).
    rewrite (py_div_ok _ _ Hp0). simpl.
    exists p, (py_max mdd ((p - v) / p)). split; [reflexivity|].
    repeat split; try assumption.
    + py_minmax; lra.
    + intros _. py_minmax; lra.
Qed.

Lemma max_drawdown_loop_grows (series : list Q) : forall peak mdd,
  exists peak' mdd',
    max_drawdown_loop (peak, mdd) series = Ok (peak', mdd')
    /\ peak <= peak' /\ Forall (fun v => v <= peak') series /\ mdd <= mdd'.
Proof.
  induction series as [|v rest IH]; intros peak mdd; cbn [max_drawdown_loop].
  - exists peak, mdd. repeat split; try apply Qle_refl. constructor.
  - destruct (max_drawdown_step_grows peak mdd v) as (p1 & m1 & -> & H1 & H2 & H3 & _).
    cbn [mbind res_bind].
    destruct (IH p1 m1) as (p2 & m2 & -> & H4 & H5 & H6).
    exists p2, m2. split; [reflexivity|].
    repeat split; try lra. constructor; [lra | exact H5].
Qed.

(** X5: a series that never falls has a drawdown of zero. *)
Theorem max_drawdown_nondecreasing (series : list Q) :
  (2 <= length series)%nat -> StronglySorted Qle series ->
  exists mdd, max_drawdown series = Ok (Some mdd) /\ mdd == 0.
Proof.
  intros Hlen Hs. unfold max_drawdown.
  assert (E : (length series <? 2)%nat = false) by (apply Nat.ltb_ge; lia).
  rewrite E. destruct series as [|s0 rest]; [simpl in Hlen; lia|].
  assert (Hgo : forall l peak mdd,
             StronglySorted Qle l -> Forall (fun v => peak <= v) l -> mdd == 0 ->
             exists peak' mdd', max_drawdown_loop (peak, mdd) l = Ok (peak', mdd')
                                /\ mdd' == 0).
  { induction l as [|v l IH]; intros peak mdd Hl Hpk Hm; cbn [max_drawdown_loop].
    - exists peak, mdd. split; [reflexivity | exact Hm].
    - apply StronglySorted_inv in Hl as [Hl Hv].
      inversion Hpk as [|? ? Hpv Hpl]; subst.
      destruct (max_drawdown_step_ok peak mdd v) as (p1 & m1 & Hstep & _).
      rewrite Hstep. cbn [mbind res_bind].
      unfold max_drawdown_step in Hstep.
      assert (Hp1 : (if Qltb peak v then v else peak) == v).
      { destruct (Qltb peak v) eqn:Ev; [reflexivity|]. apply Qltb_ge in Ev. lra. }
      revert Hstep Hp1. generalize (if Qltb peak v then v else peak). intros p Hstep Hp1.
      assert (Hm1 : m1 == 0 /\ p1 = p).
      { destruct (Qeq_bool p 0) eqn:Ep; simpl in Hstep.
        - injection Hstep as <- <-. split; [|reflexivity]. py_minmax; lra.
        - assert (Hp0 : ~ p == 0) by (intros Hc; apply Qeq_bool_iff in Hc; congruence).
          rewrite (py_div_ok _ _ Hp0) in Hstep. simpl in Hstep.
          injection Hstep as <- <-. split; [|reflexivity].
          assert (Hdd : (p - v) / p == 0).
          { assert (Hz : p - v == 0) by lra. rewrite Hz. unfold Qdiv. ring. }
          py_minmax; lra. }
      destruct Hm1 as [Hm1 ->].
      apply IH; [exact Hl | | exact Hm1].
      eapply Forall_impl; [exact Hv|]. intros y Hy. simpl in Hy. lra. }
  destruct (Hgo (s0 :: rest) s0 0 Hs) as (p & m & -> & Hm); [|reflexivity|].
  - constructor; [apply Qle_refl|]. now apply StronglySorted_inv in Hs as [_ Hs].
  - exists m. split; [reflexivity | exact Hm].
Qed.

Lemma max_drawdown_nondecreasing_witness :
  exists mdd, max_drawdown [100; 100; 110; 125] = Ok (Some mdd) /\ mdd == 0.
Proof.
  apply max_drawdown_nondecreasing; [simpl; lia|].
  repeat constructor; discriminate.
Defined.

Lemma max_drawdown_unfold (series : list Q) :
  (2 <= length series)%nat ->
  max_drawdown series
  = '(_, mdd) ← max_drawdown_loop (hd 0 series, 0) series; Ok (Some mdd).
Proof.
  intros Hlen. unfold max_drawdown.
  assert (E : (length series <? 2)%nat = false) by (apply Nat.ltb_ge; lia).
  rewrite E. destruct series; [simpl in Hlen; lia | reflexivity].
Qed.

(** X6: the drawdown is at least the relative decline from any positive
    value of the series to any later value that is not negative. *)
Theorem max_drawdown_covers_decline (l1 l2 l3 : list Q) (p v : Q) :
  0 < p -> 0 <= v -> v <= p ->
  exists mdd,
    max_drawdown (l1 ++ p :: l2 ++ v :: l3) = Ok (Some mdd)
    /\ (p - v) / p <= mdd.
Proof.
  intros Hp Hv Hvp. rewrite max_drawdown_unfold.
  2:{ rewrite length_app. simpl. rewrite length_app. simpl. lia. }
  generalize (hd 0 (l1 ++ p :: l2 ++ v :: l3)). intros s0.
  replace (l1 ++ p :: l2 ++ v :: l3) with ((l1 ++ p :: l2) ++ [v] ++ l3)
    by (rewrite <- app_assoc; reflexivity).
  rewrite (max_drawdown_loop_app (l1 ++ p :: l2)).
  destruct (max_drawdown_loop_grows (l1 ++ p :: l2) s0 0) as (p1 & m1 & -> & _ & Hall & _).
  cbn [mbind res_bind app max_drawdown_loop].
  assert (Hp1 : p <= p1).
  { rewrite Forall_forall in Hall. apply Hall. apply elem_of_app. right. left. }
  destruct (max_drawdown_step_grows p1 m1 v) as (p2 & m2 & -> & _ & _ & _ & Hsame & Hdd).
  cbn [mbind res_bind].
  destruct (max_drawdown_loop_grows l3 p2 m2) as (p3 & m3 & -> & _ & _ & Hm3).
  cbn [mbind res_bind].
  exists m3. split; [reflexivity|].
  rewrite Hsame in Hdd by lra.
  eapply Qle_trans; [|exact Hm3]. eapply Qle_trans; [|apply Hdd; lra].
  apply Qle_shift_div_l; [lra|].
  assert (Ediv : (p - v) / p * p1 == (p - v) * p1 / p) by (field; lra).
  rewrite Ediv. apply Qle_shift_div_r; [lra|].
  pose proof (Qmult_le_compat_r p p1 v Hp1 Hv) as Hmul.
  lra.
Qed.

(** * Further properties of the rate limiter and the transport *)

(** X7: [wait] never moves the clock back, returns no earlier than
    [min_interval_s + _cooldown] after the previous return, records the
    time of its own return, and does not sleep when that spacing has
    already elapsed; two waits in a row are therefore spaced by at least
    [min_interval_s + _cooldown]. *)
Theorem wait_spacing (rl : RateLimiter) (now : Q) :
  now <= (wait rl now).2
  /\ _last_ts rl + min_interval_s rl + _cooldown rl <= (wait rl now).2
  /\ _last_ts (wait rl now).1 = (wait rl now).2
  /\ _cooldown (wait rl now).1 = _cooldown rl
  /\ min_interval_s (wait rl now).1 = min_interval_s rl
  /\ max_interval_s (wait rl now).1 = max_interval_s rl
  /\ (_last_ts rl + min_interval_s rl + _cooldown rl <= now -> (wait rl now).2 = now)
  /\ (forall now2,
        (wait rl now).2 + min_interval_s rl + _cooldown rl
        <= (wait (wait rl now).1 now2).2).
Proof.
  assert (H : forall r t,
             t <= (wait r t).2
             /\ _last_ts r + min_interval_s r + _cooldown r <= (wait r t).2
             /\ (_last_ts r + min_interval_s r + _cooldown r <= t -> (wait r t).2 = t)).
  { intros r t. unfold wait. cbv zeta. simpl.
    destruct (Qltb t (_last_ts r + min_interval_s r + _cooldown r)) eqn:E.
    - apply Qltb_lt in E. repeat split; intros; lra.
    - apply Qltb_ge in E. repeat split; intros; try lra; reflexivity. }
  destruct (H rl now) as (H1 & H2 & H3).
  repeat split; try assumption; try reflexivity.
  intros now2. destruct (H (wait rl now).1 now2) as (_ & H4 & _).
  exact H4.
Qed.

Lemma wait_spacing_witness : (wait (mkRateLimiter 0.15 1 10 0.5) 12).2 = 12.
Proof.
  apply (wait_spacing (mkRateLimiter 0.15 1 10 0.5) 12). simpl. lra.
Defined.

(** X8: on a well-formed limiter a success never raises the cooldown and an
    error never lowers it; after an error the cooldown is at least
    [min_interval_s]. *)
Theorem note_ok_error_direction (rl : RateLimiter) :
  limiter_inv rl ->
  _cooldown (note_ok rl) <= _cooldown rl
  /\ _cooldown rl <= _cooldown (note_error rl)
  /\ min_interval_s rl <= _cooldown (note_error rl).
Proof.
  unfold limiter_inv, note_ok, note_error. destruct rl as [lo hi ts c]; simpl.
  intros (H1 & H2 & H3 & H4). repeat split; py_minmax; lra.
Qed.

Lemma note_ok_error_direction_witness :
  _cooldown (note_ok (mkRateLimiter 0.15 1 0 0.5)) <= 0.5
  /\ 0.5 <= _cooldown (note_error (mkRateLimiter 0.15 1 0 0.5))
  /\ 0.15 <= _cooldown (note_error (mkRateLimiter 0.15 1 0 0.5)).
Proof.
  apply (note_ok_error_direction (mkRateLimiter 0.15 1 0 0.5)).
  unfold limiter_inv. simpl. repeat split; lra.
Defined.

Lemma note_ok_run_bound (n : nat) : forall rl,
  0 <= _cooldown rl ->
  0 <= _cooldown (limiter_run rl (replicate n NoteOk))
  /\ (_cooldown (limiter_run rl (replicate n NoteOk)) == 0
      \/ _cooldown (limiter_run rl (replicate n NoteOk))
         <= _cooldown rl - inject_Z (Z.of_nat n) * 0.01).
Proof.
  induction n as [|n IH]; intros rl Hc.
  - change (limiter_run rl (replicate 0 NoteOk)) with rl.
    change (inject_Z (Z.of_nat 0)) with 0.
    split; [exact Hc|]. right. lra.
  - change (limiter_run rl (replicate (S n) NoteOk))
      with (limiter_run (note_ok rl) (replicate n NoteOk)).
    assert (Hstep : 0 <= _cooldown (note_ok rl)
                    /\ (_cooldown (note_ok rl) == 0
                        \/ _cooldown (note_ok rl) <= _cooldown rl - 0.01)).
    { unfold note_ok. simpl. split.
      - py_minmax; lra.
      - py_minmax; ((left; reflexivity) || (right; lra)). }
    destruct Hstep as [H0 H1].
    destruct (IH (note_ok rl) H0) as [IH0 IH1].
    split; [exact IH0|].
    assert (Hn : inject_Z (Z.of_nat (S n)) == inject_Z (Z.of_nat n) + 1).
    { rewrite Nat2Z.inj_succ. unfold Z.succ. rewrite inject_Z_plus. reflexivity. }
    assert (Hpos : 0 <= inject_Z (Z.of_nat n)).
    { change 0 with (inject_Z 0). rewrite <- Zle_Qle. lia. }
    destruct IH1 as [IH1 | IH1]; [now left|].
    destruct H1 as [H1 | H1].
    + left. lra.
    + right. rewrite Hn. lra.
Qed.

(** X9: successes bring the cooldown back to zero: after [n] calls of
    [note_ok] in a row the cooldown is 0 as soon as it started at no more
    than [n * 0.01]. *)
Theorem note_ok_decays_to_zero (rl : RateLimiter) (n : nat) :
  0 <= _cooldown rl -> _cooldown rl <= inject_Z (Z.of_nat n) * 0.01 ->
  _cooldown (limiter_run rl (replicate n NoteOk)) == 0.
Proof.
  intros H0 Hn.
  destruct (note_ok_run_bound n rl H0) as [Hge [Hz | Hle]]; [exact Hz|].
  lra.
Qed.

Lemma note_ok_decays_to_zero_witness :
  _cooldown (limiter_run (mkRateLimiter 0.15 1 0 0.03) (replicate 3 NoteOk)) == 0.
Proof.
  apply (note_ok_decays_to_zero (mkRateLimiter 0.15 1 0 0.03) 3);
    unfold Qle; simpl; lia.
Defined.

Lemma sleep_backoff_no_error (env : Env) (retry : RetryCfg) (attempt : Z) (c : Client) :
  (attempt < 1024)%Z ->
  0 <= backoff_base_s retry -> 0 <= backoff_cap_s retry -> 0 <= jitter_s retry ->
  0 <= random env (randoms c) ->
  sleep_backoff_error env retry attempt c = None.
Proof.
  intros Ha Hb Hcap Hj Hr0. unfold sleep_backoff_error.
  assert (E : (1024 <=? attempt)%Z = false) by (apply Z.leb_gt; lia).
  rewrite E. cbv zeta.
  assert (Hpow : 0 <= backoff_base_s retry * 2 ^ attempt).
  { apply Qmult_le_0_compat; [exact Hb|]. apply Qpower_0_le. discriminate. }
  assert (Hjit : 0 <= random env (randoms c) * jitter_s retry)
    by now apply Qmult_le_0_compat.
  assert (Hs : Qltb (py_min (backoff_cap_s retry) (backoff_base_s retry * 2 ^ attempt)
                     + random env (randoms c) * jitter_s retry) 0 = false).
  { apply Qltb_ge. revert Hpow Hjit.
    generalize (backoff_base_s retry * 2 ^ attempt), (random env (randoms c) * jitter_s retry).
    intros b j Hpow Hjit. py_minmax; lra. }
  now rewrite Hs.
Qed.

(** X10: for an attempt number below 1024 (from 1024 on, [2 ** attempt]
    does not convert to a float and the call raises [OverflowError]), with
    non-negative backoff settings and a random reading in [[0, 1)],
    [_sleep_backoff] does not raise, sleeps for at most
    [backoff_cap_s + jitter_s] and never a negative time, and touches
    neither the limiter nor the post counter. *)
Theorem sleep_backoff_bounded (env : Env) (retry : RetryCfg) (attempt : Z) (c : Client) :
  (attempt < 1024)%Z ->
  0 <= backoff_base_s retry -> 0 <= backoff_cap_s retry -> 0 <= jitter_s retry ->
  0 <= random env (randoms c) -> random env (randoms c) < 1 ->
  sleep_backoff_error env retry attempt c = None
  /\ clock c <= clock (_sleep_backoff env retry attempt c)
  /\ clock (_sleep_backoff env retry attempt c)
     <= clock c + backoff_cap_s retry + jitter_s retry
  /\ limiter (_sleep_backoff env retry attempt c) = limiter c
  /\ posts (_sleep_backoff env retry attempt c) = posts c.
Proof.
  intros Ha Hb Hcap Hj Hr0 Hr1.
  split; [now apply sleep_backoff_no_error|].
  unfold _sleep_backoff. cbv zeta. simpl.
  assert (Hpow : 0 <= backoff_base_s retry * 2 ^ attempt).
  { apply Qmult_le_0_compat; [exact Hb|]. apply Qpower_0_le. discriminate. }
  assert (Hjit : 0 <= random env (randoms c) * jitter_s retry
                 /\ random env (randoms c) * jitter_s retry <= jitter_s retry).
  { split; [now apply Qmult_le_0_compat|].
    rewrite <- (Qmult_1_l (jitter_s retry)) at 2.
    apply Qmult_le_compat_r; [lra | exact Hj]. }
  destruct Hjit as [Hj0 Hj1].
  revert Hpow Hj0 Hj1.
  generalize (backoff_base_s retry * 2 ^ attempt), (random env (randoms c) * jitter_s retry).
  intros b j Hpow Hj0 Hj1.
  repeat split; py_minmax; lra.
Qed.

Lemma sleep_backoff_bounded_witness :
  clock (_sleep_backoff (mkEnv (fun _ _ => PostRaises) (fun _ => 0.5)) RetryCfg_default 6
           (HLClient_init 0))
  <= 0 + 10 + 0.25.
Proof.
  destruct (sleep_backoff_bounded (mkEnv (fun _ _ => PostRaises) (fun _ => 0.5))
              RetryCfg_default 6 (HLClient_init 0)) as (_ & _ & H & _);
    [lia | simpl; lra .. | exact H].
Defined.

(** ** [_post_json] *)

Lemma wait_inv (rl : RateLimiter) (now : Q) : limiter_inv rl -> limiter_inv (wait rl now).1.
Proof. unfold limiter_inv, wait. simpl. tauto. Qed.

Lemma retry_or_give_up_facts (env : Env) (retry : RetryCfg) (attempt : Z) (c : Client) :
  posts (retry_or_give_up env retry attempt c).2 = posts c
  /\ limiter (retry_or_give_up env retry attempt c).2 = limiter c
  /\ (retry_or_give_up env retry attempt c).1
     = (if (attempt <? retries retry)%Z then Continue else Returned JNull).
Proof. unfold retry_or_give_up. now destruct (attempt <? retries retry)%Z. Qed.

Lemma post_attempt_facts (env : Env) (retry : RetryCfg) (p : payload) (attempt : Z)
    (c : Client) :
  posts (post_attempt env retry p attempt c).2 = S (posts c)
  /\ (limiter_inv (limiter c) -> limiter_inv (limiter (post_attempt env retry p attempt c).2))
  /\ (forall out, (post_attempt env retry p attempt c).1 = Returned out -> out <> JNull ->
        http_post env (posts c) p = Response 200 (Some out))
  /\ (http_post env (posts c) p = PostRaises ->
      (post_attempt env retry p attempt c).1
      = (if (attempt <? retries retry)%Z then Continue else Returned JNull)).
Proof.
  unfold post_attempt. rewrite client_wait_post.
  set (c1 := mkClient _ _ _ _ _).
  assert (Hinv1 : limiter_inv (limiter c) -> limiter_inv (limiter c1))
    by (intros H; simpl; now apply wait_inv).
  assert (Herr : limiter_inv (limiter c) ->
                 limiter_inv (limiter (retry_or_give_up env retry attempt
                                         (client_note_error c1)).2)).
  { intros H. destruct (retry_or_give_up_facts env retry attempt (client_note_error c1))
      as (_ & -> & _). simpl. apply note_error_inv. now apply wait_inv. }
  assert (Hposts : posts (retry_or_give_up env retry attempt (client_note_error c1)).2
                   = S (posts c)).
  { now destruct (retry_or_give_up_facts env retry attempt (client_note_error c1))
      as (-> & _ & _). }
  assert (Hres : forall out,
             (retry_or_give_up env retry attempt (client_note_error c1)).1 = Returned out ->
             out = JNull).
  { intros out. destruct (retry_or_give_up_facts env retry attempt (client_note_error c1))
      as (_ & _ & ->). destruct (attempt <? retries retry)%Z; [discriminate|].
    now intros [= <-]. }
  destruct (http_post env (posts c) p) as [|status body] eqn:Hp.
  - split; [exact Hposts|]. split; [exact Herr|]. split.
    + intros out Hout Hne. now apply Hres in Hout.
    + intros _. now destruct (retry_or_give_up_facts env retry attempt (client_note_error c1))
        as (_ & _ & ->).
  - destruct (status =? 200)%Z eqn:E200.
    + apply Z.eqb_eq in E200. subst status. destruct body as [out0|].
      * split; [reflexivity|]. split.
        { intros H. simpl. apply note_ok_inv. now apply wait_inv. }
        split; [|discriminate]. simpl. now intros out [= <-] _.
      * split; [exact Hposts|]. split; [exact Herr|]. split; [|discriminate].
        intros out Hout Hne. now apply Hres in Hout.
    + destruct (retryable_status status).
      * split; [exact Hposts|]. split; [exact Herr|]. split; [|discriminate].
        intros out Hout Hne. now apply Hres in Hout.
      * split; [reflexivity|]. split.
        { intros H. simpl. apply note_ok_inv. now apply wait_inv. }
        split; [|discriminate]. simpl. intros out [= <-] Hne. congruence.
Qed.

Lemma post_loop_facts (env : Env) (retry : RetryCfg) (p : payload) (n : nat) :
  forall (attempt : Z) (c : Client),
    (posts c <= posts (post_loop env retry p n attempt c).2 <= posts c + n)%nat
    /\ (limiter_inv (limiter c) ->
        limiter_inv (limiter (post_loop env retry p n attempt c).2))
    /\ ((post_loop env retry p n attempt c).1 <> JNull ->
        exists k, (posts c <= k < posts (post_loop env retry p n attempt c).2)%nat
                  /\ http_post env k p
                     = Response 200 (Some (post_loop env retry p n attempt c).1)).
Proof.
  induction n as [|n IH]; intros attempt c; cbn [post_loop].
  - simpl. split; [lia|]. split; [auto|]. congruence.
  - destruct (post_attempt_facts env retry p attempt c) as (Hposts & Hinv & Hout & _).
    destruct (post_attempt env retry p attempt c) as [[out|] c1]; simpl in *.
    + split; [lia|]. split; [exact Hinv|].
      intros Hne. exists (posts c). split; [lia|]. now apply Hout.
    + destruct (IH (attempt + 1)%Z c1) as (IH1 & IH2 & IH3).
      split; [lia|]. split; [auto|].
      intros Hne. destruct (IH3 Hne) as (k & Hk & Hresp).
      exists k. split; [lia | exact Hresp].
Qed.

(** X11: one call of [_post_json] makes at most [retries + 1] posts (none
    when [retries] is negative), and it keeps a well-formed limiter well
    formed, with its cooldown within [[0, max_interval_s]]. *)
Theorem post_json_bounded (env : Env) (retry : RetryCfg) (p : payload) (c : Client) :
  (posts c <= posts (_post_json env retry p c).2)%nat
  /\ (Z.of_nat (posts (_post_json env retry p c).2)
      <= Z.of_nat (posts c) + Z.max 0 (retries retry + 1))%Z
  /\ (limiter_inv (limiter c) -> limiter_inv (limiter (_post_json env retry p c).2)).
Proof.
  unfold _post_json.
  destruct (post_loop_facts env retry p (Z.to_nat (retries retry + 1)) 0 c) as (H1 & H2 & _).
  split; [lia|]. split; [lia | exact H2].
Qed.

Lemma post_json_bounded_witness :
  limiter_inv (limiter (_post_json (mkEnv (fun _ _ => PostRaises) (fun _ => 0.5))
                          RetryCfg_default AllMids (HLClient_init 0)).2).
Proof.
  apply (post_json_bounded (mkEnv (fun _ _ => PostRaises) (fun _ => 0.5))
           RetryCfg_default AllMids (HLClient_init 0)).
  unfold limiter_inv. simpl. repeat split; lra.
Defined.

(** X12: [_post_json] never makes data up: a result other than [None] is
    the parsed body of a status-200 response to one of the posts of this
    call. *)
Theorem post_json_result_from_response (env : Env) (retry : RetryCfg) (p : payload)
    (c : Client) :
  (_post_json env retry p c).1 <> JNull ->
  exists k, (posts c <= k < posts (_post_json env retry p c).2)%nat
            /\ http_post env k p = Response 200 (Some (_post_json env retry p c).1).
Proof.
  unfold _post_json.
  now destruct (post_loop_facts env retry p (Z.to_nat (retries retry + 1)) 0 c) as (_ & _ & H).
Qed.

Lemma post_json_result_from_response_witness :
  exists k,
    http_post (mkEnv (fun n _ => if (n <? 2)%nat then PostRaises
                                 else Response 200 (Some (JList [])))
                     (fun _ => 0.5)) k AllMids
    = Response 200 (Some (JList [])).
Proof.
  destruct (post_json_result_from_response
              (mkEnv (fun n _ => if (n <? 2)%nat then PostRaises
                                 else Response 200 (Some (JList [])))
                     (fun _ => 0.5))
              RetryCfg_default AllMids (HLClient_init 0)) as (k & _ & Hk).
  - vm_compute. discriminate.
  - exists k. exact Hk.
Defined.

Lemma post_loop_all_raise (env : Env) (retry : RetryCfg) (p : payload) (n : nat) :
  forall (attempt : Z) (c : Client),
    (forall k, (posts c <= k)%nat -> http_post env k p = PostRaises) ->
    (attempt + Z.of_nat n = retries retry + 1)%Z ->
    (post_loop env retry p n attempt c).1 = JNull
    /\ posts (post_loop env retry p n attempt c).2 = (posts c + n)%nat.
Proof.
  induction n as [|n IH]; intros attempt c Hall Hn; cbn [post_loop].
  - simpl. split; [reflexivity | lia].
  - destruct (post_attempt_facts env retry p attempt c) as (Hposts & _ & _ & Hraise).
    specialize (Hraise (Hall _ (Nat.le_refl _))).
    destruct (post_attempt env retry p attempt c) as [[out|] c1]; simpl in *.
    + destruct (attempt <? retries retry)%Z eqn:E; [discriminate|].
      injection Hraise as ->. apply Z.ltb_ge in E.
      split; [reflexivity | lia].
    + destruct (attempt <? retries retry)%Z eqn:E; [|discriminate].
      destruct (IH (attempt + 1)%Z c1) as [IH1 IH2]; [|lia|].
      * intros k Hk. apply Hall. lia.
      * split; [exact IH1 | lia].
Qed.

(** X13: when every post raises, [_post_json] gives up with [None] after
    exactly [retries + 1] posts, for a retry count of at most 1024,
    non-negative backoff settings and random readings in [[0, 1)]: under
    these no backoff sleep of the run raises. *)
Theorem post_json_exhausts_retries (env : Env) (retry : RetryCfg) (p : payload) (c : Client) :
  (0 <= retries retry <= 1024)%Z ->
  0 <= backoff_base_s retry -> 0 <= backoff_cap_s retry -> 0 <= jitter_s retry ->
  (forall n, 0 <= random env n /\ random env n < 1) ->
  (forall k, (posts c <= k)%nat -> http_post env k p = PostRaises) ->
  (forall attempt c', (attempt < retries retry)%Z ->
     sleep_backoff_error env retry attempt c' = None)
  /\ (_post_json env retry p c).1 = JNull
  /\ Z.of_nat (posts (_post_json env retry p c).2)
     = (Z.of_nat (posts c) + retries retry + 1)%Z.
Proof.
  intros Hr Hb Hcap Hj Hrand Hall. split.
  { intros attempt c' Ha. apply sleep_backoff_no_error; try assumption; [lia|].
    apply Hrand. }
  unfold _post_json.
  destruct (post_loop_all_raise env retry p (Z.to_nat (retries retry + 1)) 0 c Hall)
    as [H1 H2]; [lia|].
  split; [exact H1 | lia].
Qed.

Lemma post_json_exhausts_retries_witness :
  posts (_post_json (mkEnv (fun _ _ => PostRaises) (fun _ => 0.5)) RetryCfg_default
           AllMids (HLClient_init 0)).2 = 5%nat.
Proof.
  destruct (post_json_exhausts_retries (mkEnv (fun _ _ => PostRaises) (fun _ => 0.5))
              RetryCfg_default AllMids (HLClient_init 0)) as (_ & _ & H).
  - simpl. lia.
  - discriminate.
  - discriminate.
  - discriminate.
  - intros n. simpl. split; [discriminate | reflexivity].
  - reflexivity.
  - change (Z.of_nat (posts (HLClient_init 0)) + retries RetryCfg_default + 1)%Z
      with 5%Z in H. lia.
Defined.

Lemma max_drawdown_covers_decline_witness :
  exists mdd,
    max_drawdown [90; 100; 95; 60; 80] = Ok (Some mdd) /\ (100 - 60) / 100 <= mdd.
Proof.
  apply (max_drawdown_covers_decline [90] [95] [80] 100 60); lra.
Defined.

(** * Further properties of the adaptive batch fetcher *)



Lemma post_json_first_success (env : Env) (retry : RetryCfg) (p : payload) (c : Client)
    (out : json) :
  (0 <= retries retry)%Z ->
  http_post env (posts c) p = Response 200 (Some out) ->
  (_post_json env retry p c).1 = out /\ posts (_post_json env retry p c).2 = S (posts c).
Proof.
  intros Hr Hresp. unfold _post_json.
  destruct (Z.to_nat (retries retry + 1)) as [|n] eqn:En; [lia|].
  cbn [post_loop]. unfold post_attempt. rewrite client_wait_post, Hresp.
  simpl. split; reflexivity.
Qed.

Lemma pair_states_all_dicts (state_of : string -> list (string * json)) (part : list string) :
  forall (states : gmap string json) (failed : list string),
    (pair_states part (map (fun a => JDict (state_of a)) part) (states, failed)).2 = failed
    /\ forall a,
         (pair_states part (map (fun a => JDict (state_of a)) part) (states, failed)).1 !! a
         = if decide (a ∈ part) then Some (JDict (state_of a)) else states !! a.
Proof.
  induction part as [|x part IH]; intros states failed.
  - cbn [map pair_states]. split; [reflexivity|]. intros a.
    rewrite decide_False; [reflexivity | apply not_elem_of_nil].
  - cbn [map pair_states is_dict].
    destruct (IH (<[x := JDict (state_of x)]> states) failed) as [IH1 IH2].
    split; [exact IH1|]. intros a. rewrite IH2.
    destruct (decide (a ∈ part)) as [Hin | Hnin].
    + rewrite decide_True by now right. reflexivity.
    + destruct (decide (a = x)) as [-> | Hne].
      * rewrite decide_True by now left. apply lookup_insert_eq.
      * rewrite lookup_insert_ne by congruence.
        rewrite decide_False; [reflexivity|].
        intros H. apply elem_of_cons in H as [H | H]; contradiction.
Qed.

Section healthy.
Variables (env : Env) (retry : RetryCfg).
Variables (min_batch_size : Z) (fallback_per_user : bool).
Variable recurse : list string -> Z -> fetch fetched.
Variable state_of : string -> list (string * json).
Hypothesis retries_nonneg : (0 <= retries retry)%Z.
Hypothesis healthy : forall n part,
  http_post env n (BatchClearinghouseStates part)
  = Response 200 (Some (JList (map (fun a => JDict (state_of a)) part))).

Lemma fetch_parts_healthy (parts : list (list string)) :
  forall (acc : fetched) (c : Client),
    exists states c',
      fetch_parts env retry min_batch_size fallback_per_user recurse parts acc c
      = Ok ((states, acc.2), c')
      /\ posts c' = (posts c + length parts)%nat
      /\ forall a, states !! a
                   = if decide (a ∈ concat parts) then Some (JDict (state_of a))
                     else acc.1 !! a.
Proof.
  induction parts as [|part rest IH]; intros [states failed] c.
  - exists states, c. split; [reflexivity|]. split; [simpl; lia|].
    intros a. cbn [concat]. rewrite decide_False; [reflexivity | apply not_elem_of_nil].
  - cbn [fetch_parts]. unfold fetch_part.
    destruct (post_json_first_success env retry (BatchClearinghouseStates part) c _
                retries_nonneg (healthy (posts c) part)) as [Hout Hposts].
    destruct (_post_json env retry (BatchClearinghouseStates part) c) as [resp c1].
    simpl in Hout, Hposts. subst resp.
    unfold resp_items. rewrite length_map, Nat.eqb_refl.
    cbn [mbind res_bind].
    destruct (pair_states_all_dicts state_of part states failed) as [Hf Hs].
    destruct (pair_states part (map (fun a => JDict (state_of a)) part) (states, failed))
      as [states1 failed1].
    simpl in Hf, Hs. subst failed1.
    destruct (IH (states1, failed) c1) as (states2 & c2 & -> & Hp2 & Hs2).
    exists states2, c2. split; [reflexivity|]. split; [simpl; lia|].
    intros a. rewrite Hs2. simpl. rewrite Hs.
    cbn [concat]. destruct (decide (a ∈ concat rest)) as [Hin | Hnin].
    + rewrite decide_True; [reflexivity|]. apply elem_of_app. now right.
    + destruct (decide (a ∈ part)) as [Hp | Hp].
      * rewrite decide_True; [reflexivity|]. apply elem_of_app. now left.
      * rewrite decide_False; [reflexivity|].
        intros H. apply elem_of_app in H as [H | H]; contradiction.
Qed.
End healthy.

(** X15: when the upstream answers every batch request with one state dict
    per user, the fetcher makes exactly one post per chunk, ceil(N / batch
    size) in all, every user gets its state and nobody is reported
    failed. *)
Theorem batch_healthy_upstream (env : Env) (retry : RetryCfg) (users : list string)
    (batch_size min_batch_size : Z) (fallback_per_user : bool) (fuel : nat) (c : Client)
    (state_of : string -> list (string * json)) :
  (0 <= retries retry)%Z -> (1 <= batch_size)%Z -> (1 <= fuel)%nat ->
  (forall n part,
     http_post env n (BatchClearinghouseStates part)
     = Response 200 (Some (JList (map (fun a => JDict (state_of a)) part)))) ->
  exists states c',
    batch_clearinghouse_states_adaptive fuel env retry users batch_size min_batch_size
      fallback_per_user c = Ok ((states, []), c')
    /\ (forall a, states !! a = if decide (a ∈ users) then Some (JDict (state_of a)) else None)
    /\ posts c'
       = (posts c + (length users + Z.to_nat batch_size - 1) / Z.to_nat batch_size)%nat.
Proof.
  intros Hr Hsize Hfuel Hhealthy.
  destruct fuel as [|fuel]; [lia|].
  cbn [batch_clearinghouse_states_adaptive]. unfold chunks.
  assert (E0 : (batch_size =? 0)%Z = false) by (apply Z.eqb_neq; lia).
  assert (E1 : (batch_size <? 0)%Z = false) by (apply Z.ltb_ge; lia).
  rewrite E0, E1. cbn [mbind res_bind].
  destruct (chunks_from_spec (Z.to_nat batch_size) (length users) users) as [Hcat _];
    [lia | lia |].
  destruct (chunks_from_parts (Z.to_nat batch_size) (length users) users) as [_ Hcount];
    [lia | lia |].
  destruct (fetch_parts_healthy env retry min_batch_size fallback_per_user
              (fun half size =>
                 batch_clearinghouse_states_adaptive fuel env retry half size
                   min_batch_size fallback_per_user)
              state_of Hr Hhealthy
              (chunks_from (length users) (Z.to_nat batch_size) users)
              ((∅, []) : fetched) c) as (states & c' & -> & Hposts & Hs).
  cbn [mbind res_bind].
  exists states, c'. split; [reflexivity|]. split.
  - intros a. rewrite Hs, Hcat. simpl. now rewrite lookup_empty.
  - now rewrite Hposts, Hcount.
Qed.

Lemma batch_healthy_upstream_witness :
  exists states c',
    batch_clearinghouse_states_adaptive 1
      (mkEnv (fun _ p => match p with
                         | BatchClearinghouseStates part =>
                             Response 200 (Some (JList (map (fun a => JDict [(a, JNull)]) part)))
                         | _ => PostRaises
                         end) (fun _ => 0))
      RetryCfg_default ["0xaa"; "0xbb"; "0xcc"] 2 5 true (HLClient_init 0)
    = Ok ((states, []), c')
    /\ posts c' = 2%nat.
Proof.
  destruct (batch_healthy_upstream
              (mkEnv (fun _ p => match p with
                                 | BatchClearinghouseStates part =>
                                     Response 200
                                       (Some (JList (map (fun a => JDict [(a, JNull)]) part)))
                                 | _ => PostRaises
                                 end) (fun _ => 0))
              RetryCfg_default ["0xaa"; "0xbb"; "0xcc"] 2 5 true 1 (HLClient_init 0)
              (fun a => [(a, JNull)]))
    as (states & c' & Hrun & _ & Hposts); [simpl; lia | lia | lia | reflexivity |].
  exists states, c'. split; [exact Hrun | exact Hposts].
Defined.

(** ** Total outage *)

Lemma post_json_all_raise (env : Env) (retry : RetryCfg) (p : payload) (c : Client) :
  (forall n q, http_post env n q = PostRaises) -> (_post_json env retry p c).1 = JNull.
Proof.
  intros Hall. unfold _post_json.
  destruct (post_loop_facts env retry p (Z.to_nat (retries retry + 1)) 0 c) as (_ & _ & H).
  destruct (post_loop env retry p (Z.to_nat (retries retry + 1)) 0 c).1 eqn:E;
    [reflexivity | | | | |];
    (destruct H as (k & _ & Hk); [discriminate | rewrite Hall in Hk; discriminate]).
Qed.

Lemma fallback_states_all_raise (env : Env) (retry : RetryCfg) (part : list string) :
  (forall n q, http_post env n q = PostRaises) ->
  forall (acc : fetched) (c : Client),
    (fallback_states env retry part acc c).1 = (acc.1, acc.2 ++ part).
Proof.
  intros Hall. induction part as [|a part IH]; intros [states failed] c.
  - simpl. now rewrite app_nil_r.
  - cbn [fallback_states]. unfold clearinghouse_state.
    pose proof (post_json_all_raise env retry (ClearinghouseState a) c Hall) as Hnull.
    destruct (_post_json env retry (ClearinghouseState a) c) as [data c1].
    simpl in Hnull. subst data. cbn [truthy_state].
    rewrite IH. simpl. now rewrite <- app_assoc.
Qed.

Lemma NoDup_concat_parts (parts : list (list string)) :
  NoDup (concat parts) -> Forall NoDup parts.
Proof.
  induction parts as [|part rest IH]; intros H; [constructor|].
  cbn [concat] in H. apply NoDup_app in H as (H1 & _ & H2).
  constructor; [exact H1 | now apply IH].
Qed.

Section outage.
Variables (env : Env) (retry : RetryCfg).
Variables (min_batch_size : Z) (fallback_per_user : bool).
Variable recurse : list string -> Z -> fetch fetched.
Variable k : nat.
Hypothesis min_batch_size_pos : (1 <= min_batch_size)%Z.
Hypothesis outage : forall n q, http_post env n q = PostRaises.
Hypothesis recurse_outage : forall users size c,
  (length users < k)%nat -> (1 <= size)%Z -> NoDup users ->
  exists c', recurse users size c = Ok ((∅, users), c').

Lemma fetch_part_outage (part : list string) (acc : fetched) (c : Client) :
  (length part <= k)%nat -> NoDup part ->
  exists c',
    fetch_part env retry min_batch_size fallback_per_user recurse part acc c
    = Ok ((acc.1, acc.2 ++ part), c').
Proof.
  intros Hlen Hnd. unfold fetch_part.
  pose proof (post_json_all_raise env retry (BatchClearinghouseStates part) c outage) as Hnull.
  destruct (_post_json env retry (BatchClearinghouseStates part) c) as [resp c1].
  simpl in Hnull. subst resp. cbn [resp_items].
  destruct (min_batch_size <? Z.of_nat (length part))%Z eqn:Esplit.
  - apply Z.ltb_lt in Esplit. cbv zeta.
    set (mid := (length part / 2)%nat).
    assert (Hmid : (1 <= mid < length part)%nat).
    { subst mid. split.
      - apply Nat.div_le_lower_bound; lia.
      - apply Nat.div_lt; lia. }
    assert (Hparts : NoDup (take mid part) /\ NoDup (drop mid part)).
    { rewrite <- (take_drop mid part) in Hnd. now apply NoDup_app in Hnd as (H1 & _ & H2). }
    destruct Hparts as [Hl Hr].
    destruct (recurse_outage (take mid part)
                (Z.max min_batch_size (Z.of_nat (length (take mid part)))) c1)
      as (c2 & ->); [rewrite length_take; lia | lia | exact Hl |].
    cbn [mbind res_bind].
    destruct (recurse_outage (drop mid part)
                (Z.max min_batch_size (Z.of_nat (length (drop mid part)))) c2)
      as (c3 & ->); [rewrite length_drop; lia | lia | exact Hr |].
    cbn [mbind res_bind].
    exists c3. unfold merge_fetched. simpl.
    rewrite !(left_id_L ∅ (∪)), <- app_assoc, take_drop. reflexivity.
  - destruct fallback_per_user.
    + pose proof (fallback_states_all_raise env retry part outage acc c1) as Hf.
      destruct (fallback_states env retry part acc c1) as [acc' c2].
      simpl in Hf. subst acc'. now exists c2.
    + now exists c1.
Qed.

Lemma fetch_parts_outage (parts : list (list string)) :
  forall (acc : fetched) (c : Client),
    Forall (fun part => (length part <= k)%nat) parts -> Forall NoDup parts ->
    exists c',
      fetch_parts env retry min_batch_size fallback_per_user recurse parts acc c
      = Ok ((acc.1, acc.2 ++ concat parts), c').
Proof.
  induction parts as [|part rest IH]; intros acc c Hlen Hnd.
  - exists c. simpl. rewrite app_nil_r. now destruct acc.
  - inversion Hlen as [|? ? Hl Hlrest]; subst. inversion Hnd as [|? ? Hn Hnrest]; subst.
    cbn [fetch_parts].
    destruct (fetch_part_outage part acc c Hl Hn) as (c1 & ->).
    cbn [mbind res_bind].
    destruct (IH (acc.1, acc.2 ++ part) c1 Hlrest Hnrest) as (c2 & ->).
    exists c2. simpl. now rewrite <- app_assoc.
Qed.
End outage.

Lemma filter_all_true {A : Type} (P : A -> Prop) `{forall x, Decision (P x)} (l : list A) :
  (forall x, P x) -> filter P l = l.
Proof.
  intros HP. induction l as [|x rest IH]; [reflexivity|].
  rewrite filter_cons_True by apply HP. now rewrite IH.
Qed.

Lemma batch_outage (env : Env) (retry : RetryCfg) (min_batch_size : Z)
    (fallback_per_user : bool) :
  (1 <= min_batch_size)%Z ->
  (forall n q, http_post env n q = PostRaises) ->
  forall (fuel : nat) (users : list string) (batch_size : Z) (c : Client),
    (length users < fuel)%nat -> (1 <= batch_size)%Z -> NoDup users ->
    exists c',
      batch_clearinghouse_states_adaptive fuel env retry users batch_size min_batch_size
        fallback_per_user c = Ok ((∅, users), c').
Proof.
  intros Hmin Hall fuel. induction fuel as [|fuel IH];
    intros users batch_size c Hfuel Hsize Hnd; [lia|].
  cbn [batch_clearinghouse_states_adaptive]. unfold chunks.
  assert (E0 : (batch_size =? 0)%Z = false) by (apply Z.eqb_neq; lia).
  assert (E1 : (batch_size <? 0)%Z = false) by (apply Z.ltb_ge; lia).
  rewrite E0, E1. cbn [mbind res_bind].
  destruct (chunks_from_spec (Z.to_nat batch_size) (length users) users) as [Hcat Hparts];
    [lia | lia |].
  destruct (fetch_parts_outage env retry min_batch_size fallback_per_user
              (fun half size =>
                 batch_clearinghouse_states_adaptive fuel env retry half size
                   min_batch_size fallback_per_user)
              (length users) Hmin Hall) with
    (parts := chunks_from (length users) (Z.to_nat batch_size) users)
    (acc := ((∅, []) : fetched)) (c := c) as (c' & ->).
  { intros us size c0 Hus Hsz Hndus. apply IH; [lia | exact Hsz | exact Hndus]. }
  { exact Hparts. }
  { apply NoDup_concat_parts. now rewrite Hcat. }
  cbn [mbind res_bind]. exists c'. simpl. rewrite Hcat.
  do 3 f_equal.
  rewrite filter_all_true by (intros x; apply lookup_empty).
  apply dedupe_loop_id; [exact Hnd | set_solver].
Qed.



(** * Further properties of the activity and age inference *)

Lemma last_trade_fold (fs : list Fill) : forall (best : option Z),
  let r := fold_left last_trade_step fs best in
  (r = None <-> best = None /\ Forall (fun f => fill_time f = None) fs)
  /\ (forall t, r = Some t ->
        (best = Some t \/ exists f, f ∈ fs /\ fill_time f = Some t)
        /\ (forall b, best = Some b -> (b <= t)%Z)
        /\ (forall f t', f ∈ fs -> fill_time f = Some t' -> (t' <= t)%Z)).
Proof.
  induction fs as [|f rest IH]; intros best; cbn [fold_left].
  - cbv zeta. split.
    + split; [intros ->; split; [reflexivity | constructor] | now intros [-> _]].
    + intros t ->. split; [now left|]. split.
      * intros b [= ->]. lia.
      * intros f t' Hf. inversion Hf.
  - specialize (IH (last_trade_step best f)). cbv zeta in IH |- *.
    destruct IH as [IHn IHs].
    set (r := fold_left last_trade_step rest (last_trade_step best f)) in *.
    unfold last_trade_step in IHn, IHs.
    split.
    + rewrite IHn. split.
      * intros [Hstep Hrest]. destruct (fill_time f) as [t|] eqn:Ef.
        -- destruct best as [b|]; [destruct (b <? t)%Z|]; discriminate.
        -- split; [exact Hstep|]. now constructor.
      * intros [-> Hall]. inversion Hall as [|? ? Hf Hrest]; subst.
        rewrite Hf. split; [reflexivity | exact Hrest].
    + intros t Hr. destruct (IHs t Hr) as (Hex & Hb & Hle).
      destruct (fill_time f) as [tf|] eqn:Ef.
      * assert (Hstep : exists s, (match best with
                                    | Some b => if (b <? tf)%Z then Some tf else best
                                    | None => Some tf
                                    end) = Some s
                                   /\ (tf <= s)%Z
                                   /\ (forall b, best = Some b -> (b <= s)%Z)
                                   /\ (s = tf \/ best = Some s)).
        { destruct best as [b|].
          - destruct (b <? tf)%Z eqn:E.
            + apply Z.ltb_lt in E. exists tf.
              split; [reflexivity|]. split; [lia|]. split; [|now left].
              intros b' [= <-]. lia.
            + apply Z.ltb_ge in E. exists b.
              split; [reflexivity|]. split; [lia|]. split; [|now right].
              intros b' [= <-]. lia.
          - exists tf.
            split; [reflexivity|]. split; [lia|]. split; [discriminate | now left]. }
        destruct Hstep as (s & Hs & Htf & Hbs & Hsrc). rewrite Hs in Hex, Hb.
        specialize (Hb s eq_refl).
        split; [|split].
        -- destruct Hex as [[= <-] | (g & Hg & Hgt)].
           ++ destruct Hsrc as [-> | Hsrc]; [right; exists f; split; [left | exact Ef]|].
              now left.
           ++ right. exists g. split; [now right | exact Hgt].
        -- intros b Hbest. specialize (Hbs b Hbest). lia.
        -- intros g t' Hg Hgt. apply elem_of_cons in Hg as [-> | Hg].
           ++ rewrite Ef in Hgt. injection Hgt as <-. lia.
           ++ now apply (Hle g).
      * split; [|split].
        -- destruct Hex as [Hex | (g & Hg & Hgt)]; [now left|].
           right. exists g. split; [now right | exact Hgt].
        -- exact Hb.
        -- intros g t' Hg Hgt. apply elem_of_cons in Hg as [-> | Hg]; [congruence|].
           now apply (Hle g).
Qed.

Lemma last_trade_some (fs : list Fill) :
  last_trade_time_from_fills (Some fs)
  = match fold_left last_trade_step fs None with
    | None => Ok None
    | Some best => ts ← fromtimestamp best; Ok (Some ts)
    end.
Proof. now destruct fs. Qed.

Lemma last_trade_best_max (fs : list Fill) (t : Z) :
  fold_left last_trade_step fs None = Some t
  <-> (exists f, f ∈ fs /\ fill_time f = Some t)
      /\ forall f t', f ∈ fs -> fill_time f = Some t' -> (t' <= t)%Z.
Proof.
  destruct (last_trade_fold fs None) as [Hn Hs]. cbv zeta in Hn, Hs. split.
  - intros Hr. destruct (Hs t Hr) as ([Hex | Hex] & _ & Hle); [discriminate|].
    now split.
  - intros [(f & Hf & Hft) Hle].
    destruct (fold_left last_trade_step fs None) as [b|] eqn:E.
    + destruct (Hs b eq_refl) as ([Hex | (g & Hg & Hgt)] & _ & Hle'); [discriminate|].
      f_equal. apply Z.le_antisymm; [now apply (Hle g) | now apply (Hle' f)].
    + destruct Hn as [Hn _]. destruct (Hn eq_refl) as [_ Hall].
      rewrite Forall_forall in Hall. rewrite (Hall f Hf) in Hft. discriminate.
Qed.

Lemma last_trade_best_perm (fs fs' : list Fill) :
  fs ≡ₚ fs' -> fold_left last_trade_step fs' None = fold_left last_trade_step fs None.
Proof.
  intros Hp. destruct (fold_left last_trade_step fs None) as [t|] eqn:E.
  - apply last_trade_best_max. apply last_trade_best_max in E as [(f & Hf & Hft) Hle].
    split.
    + exists f. split; [now rewrite <- Hp | exact Hft].
    + intros g t' Hg. apply Hle. now rewrite Hp.
  - destruct (last_trade_fold fs None) as [Hn _]. cbv zeta in Hn.
    destruct (last_trade_fold fs' None) as [Hn' _]. cbv zeta in Hn'.
    apply Hn'. split; [reflexivity|]. rewrite <- Hp. now apply Hn.
Qed.

(** X17: [last_trade_time_from_fills] does not assume sorted fills.  It
    returns [None] exactly when the fills are missing or none carries a
    time that converts to an integer.  Otherwise it converts the greatest
    of these times: when that time is in the range of datetime the result is
    that time, and when it is not the call raises.  A returned time is
    carried by a fill, is the greatest one and is in range.  The result is
    the same for every ordering of the fills. *)
Theorem last_trade_time_is_max (fs : list Fill) :
  last_trade_time_from_fills None = Ok None
  /\ (last_trade_time_from_fills (Some fs) = Ok None
      <-> Forall (fun f => fill_time f = None) fs)
  /\ (forall t,
        (exists f, f ∈ fs /\ fill_time f = Some t) ->
        (forall f t', f ∈ fs -> fill_time f = Some t' -> (t' <= t)%Z) ->
        ((datetime_min_ms <= t <= datetime_max_ms)%Z ->
         last_trade_time_from_fills (Some fs) = Ok (Some t))
        /\ (~ (datetime_min_ms <= t <= datetime_max_ms)%Z ->
            exists e, last_trade_time_from_fills (Some fs) = Raise e))
  /\ (forall t, last_trade_time_from_fills (Some fs) = Ok (Some t) ->
        (exists f, f ∈ fs /\ fill_time f = Some t)
        /\ (forall f t', f ∈ fs -> fill_time f = Some t' -> (t' <= t)%Z)
        /\ (datetime_min_ms <= t <= datetime_max_ms)%Z)
  /\ (forall fs', fs ≡ₚ fs' ->
        last_trade_time_from_fills (Some fs') = last_trade_time_from_fills (Some fs)).
Proof.
  split; [reflexivity|]. split; [|split; [|split]].
  - rewrite last_trade_some.
    destruct (last_trade_fold fs None) as [Hn _]. cbv zeta in Hn.
    destruct (fold_left last_trade_step fs None) as [b|] eqn:E.
    + split.
      * unfold fromtimestamp.
        destruct ((datetime_min_ms <=? b)%Z && (b <=? datetime_max_ms)%Z); discriminate.
      * intros Hall. destruct Hn as [_ Hn]. discriminate (Hn (conj eq_refl Hall)).
    + split; [|reflexivity]. intros _. now apply Hn.
  - intros t Hex Hle. rewrite last_trade_some.
    assert (E : fold_left last_trade_step fs None = Some t)
      by now apply last_trade_best_max.
    rewrite E. unfold fromtimestamp. split.
    + intros [H1 H2]. apply Z.leb_le in H1, H2. now rewrite H1, H2.
    + intros Hout. exists ValueError.
      destruct (datetime_min_ms <=? t)%Z eqn:E1; [|reflexivity].
      destruct (t <=? datetime_max_ms)%Z eqn:E2; [|reflexivity].
      apply Z.leb_le in E1, E2. exfalso. apply Hout. now split.
  - intros t. rewrite last_trade_some.
    destruct (fold_left last_trade_step fs None) as [b|] eqn:E; [|discriminate].
    unfold fromtimestamp.
    destruct ((datetime_min_ms <=? b)%Z && (b <=? datetime_max_ms)%Z) eqn:Er;
      [|discriminate].
    cbn [mbind res_bind]. intros [= <-].
    apply last_trade_best_max in E as [Hex Hle].
    split; [exact Hex|]. split; [exact Hle|].
    apply andb_prop in Er as [E1 E2]. apply Z.leb_le in E1, E2. now split.
  - intros fs' Hp. rewrite !last_trade_some. now rewrite (last_trade_best_perm fs fs' Hp).
Qed.

(** ** Where the ages come from *)

Lemma open_time_step_source (o : option Z) (f : Fill) (t : Z) :
  open_time_step o f = Ok (Some t) -> o = Some t \/ fill_time f = Some t.
Proof.
  unfold open_time_step, fill_time.
  destruct (raw_time f) as [| |t_ms|e]; try (intros [= ->]; now left).
  destruct (fromtimestamp t_ms) as [ts|e] eqn:Ets; [|discriminate].
  apply fromtimestamp_inv in Ets. subst ts. cbn [mbind res_bind].
  unfold open_time_update. cbv zeta. intros [= Hstep].
  destruct (Qltb (startPosition f * end_pos f) 0).
  { injection Hstep as <-. now right. }
  destruct (Qltb (py_abs (end_pos f)) ages_eps); [discriminate|].
  destruct (Qltb (py_abs (startPosition f)) ages_eps && Qltb ages_eps (py_abs (end_pos f))).
  - injection Hstep as <-. now right.
  - now left.
Qed.

Lemma open_time_fold_source (l : list Fill) : forall (o : option Z) (t : Z),
  fold_res open_time_step l o = Ok (Some t) ->
  o = Some t \/ exists f, f ∈ l /\ fill_time f = Some t.
Proof.
  induction l as [|f l IH]; intros o t; cbn [fold_res].
  { intros [= ->]. now left. }
  destruct (open_time_step o f) as [o'|e] eqn:Estep; [|discriminate].
  cbn [mbind res_bind]. intros H.
  destruct (IH _ _ H) as [-> | (g & Hg & Hgt)].
  - apply open_time_step_source in Estep as [Hstep | Hstep]; [now left|].
    right. exists f. split; [left | exact Hstep].
  - right. exists g. split; [now right | exact Hgt].
Qed.

Lemma first_fill_time_source (s : list Fill) (t : Z) :
  first_fill_time s = Ok (Some t) -> exists f, f ∈ s /\ fill_time f = Some t.
Proof.
  destruct s as [|f0 rest]; [discriminate|]. unfold first_fill_time.
  destruct (raw_time f0) as [| |t_ms|e] eqn:Er; try discriminate.
  destruct (fromtimestamp t_ms) as [ts|e] eqn:Ets; [|discriminate].
  apply fromtimestamp_inv in Ets. subst ts. cbn [mbind res_bind]. intros [= <-].
  exists f0. split; [left|]. unfold fill_time. now rewrite Er.
Qed.

Lemma coin_age_source (now : Q) (cur : gmap string Q) (c : string) (fs : list Fill) (a : Q) :
  coin_age now cur c fs = Ok (Some a) ->
  (exists size, cur !! c = Some size /\ ages_eps <= py_abs size)
  /\ exists f t, f ∈ fs /\ fill_time f = Some t /\ a = age_from now t.
Proof.
  unfold coin_age.
  destruct (sorted_by_time fs) as [s|e] eqn:Es; [|discriminate].
  apply sorted_by_time_perm in Es. cbn [mbind res_bind].
  destruct (fold_res open_time_step s None) as [o|e] eqn:Eo; [|discriminate].
  cbn [mbind res_bind]. cbv zeta.
  destruct (Qltb (py_abs (default 0 (cur !! c))) ages_eps) eqn:Ecur; [discriminate|].
  apply Qltb_ge in Ecur. intros H. split.
  - destruct (cur !! c) as [size|]; [now exists size|].
    simpl in Ecur. exfalso. revert Ecur. vm_compute. auto.
  - destruct o as [t|].
    + cbn [mbind res_bind] in H. injection H as <-.
      apply open_time_fold_source in Eo as [Eo | (f & Hf & Hft)]; [discriminate|].
      exists f, t. split; [now rewrite <- Es | split; [exact Hft | reflexivity]].
    + destruct (first_fill_time s) as [[t|]|e] eqn:Ef; try discriminate.
      cbn [mbind res_bind] in H. injection H as <-.
      apply first_fill_time_source in Ef as (f & Hf & Hft).
      exists f, t. split; [now rewrite <- Es | split; [exact Hft | reflexivity]].
Qed.

Lemma ages_fold_source (now : Q) (cur : gmap string Q) (c : string) (a : Q)
    (G : list (string * list Fill)) : forall (m ages : gmap string Q),
  fold_res
    (fun ages '(coin, fs) =>
       age ← coin_age now cur coin fs;
       Ok (match age with
           | Some age => <[coin := age]> ages
           | None => ages
           end)) G m = Ok ages ->
  ages !! c = Some a ->
  m !! c = Some a \/ exists fs, (c, fs) ∈ G /\ coin_age now cur c fs = Ok (Some a).
Proof.
  induction G as [|[c0 fs0] G IH]; intros m ages; cbn [fold_res].
  { intros [= ->] Hm. now left. }
  destruct (coin_age now cur c0 fs0) as [a0|e] eqn:E0; [|discriminate].
  cbn [mbind res_bind]. intros Hfold Hlk.
  destruct (IH _ _ Hfold Hlk) as [Hin | (fs & Hin & Hage)].
  - destruct a0 as [a0|]; [|now left].
    destruct (decide (c0 = c)) as [-> | Hne].
    + rewrite lookup_insert_eq in Hin. injection Hin as ->.
      right. exists fs0. split; [left | exact E0].
    + rewrite lookup_insert_ne in Hin by exact Hne. now left.
  - right. exists fs. split; [now right | exact Hage].
Qed.

(** X18: whenever the call returns, an age is reported only for an
    instrument whose current position is not (about) zero, and it is always
    measured from the time of one of that instrument's own fills. *)
Theorem ages_come_from_fills (now : Q) (fills : list Fill) (positions : list PositionView)
    (ages : gmap string Q) (c : string) (a : Q) :
  infer_position_ages_from_fills now fills positions = Ok ages ->
  ages !! c = Some a ->
  (exists size, cur_by_coin positions !! c = Some size /\ ages_eps <= py_abs size)
  /\ exists f t,
       f ∈ fills /\ fill_coin f = Some c /\ fill_time f = Some t /\ a = age_from now t.
Proof.
  unfold infer_position_ages_from_fills. cbv zeta. intros Hok Hlk.
  destruct (ages_fold_source _ _ c a _ _ _ Hok Hlk) as [Hin | (fs & Hin & Hage)].
  { rewrite lookup_empty in Hin. discriminate. }
  apply group_by_coin_entries in Hin as (_ & _ & Hfs).
  destruct (coin_age_source _ _ _ _ _ Hage) as (Hcur & f & t & Hf & Hft & Ha).
  split; [exact Hcur|].
  exists f, t. destruct (Hfs f Hf) as [Hfin Hfc]. auto.
Qed.

Lemma ages_come_from_fills_witness :
  exists f t,
    f ∈ [mkFill (Some "BTC") (TimeInt 3000) 0 "B" 2]
    /\ fill_coin f = Some "BTC" /\ fill_time f = Some t
    /\ age_from 1000000 3000 = age_from 1000000 t.
Proof.
  destruct (ages_come_from_fills 1000000 [mkFill (Some "BTC") (TimeInt 3000) 0 "B" 2]
              [mkPositionView "BTC" LONG 2 50000 (Some 50000) 100000 0 None 10 (Some 40000)
                 5000 (Some 50) (Some 20) None]
              {[ "BTC" := age_from 1000000 3000 ]}
              "BTC" (age_from 1000000 3000)) as (_ & f & t & H).
  - vm_compute. reflexivity.
  - vm_compute. reflexivity.
  - exists f, t. exact H.
Defined.

(** ** The grouping by instrument *)

(** X19: on logs whose times are absent or integers in the range of
    datetime the call returns, and the age reported for an instrument
    depends only on the fills of that instrument (in their order in the log)
    and on its current size: fills of other instruments, fills without an
    instrument and other positions do not change it. *)
Theorem ages_per_instrument (now : Q) (fills fills' : list Fill)
    (positions positions' : list PositionView) (c : string) :
  Forall sound_time fills -> Forall sound_time fills' ->
  fills_of c fills = fills_of c fills' ->
  cur_by_coin positions !! c = cur_by_coin positions' !! c ->
  exists ages ages',
    infer_position_ages_from_fills now fills positions = Ok ages
    /\ infer_position_ages_from_fills now fills' positions' = Ok ages'
    /\ ages !! c = ages' !! c.
Proof.
  intros Hs Hs' Hf Hc.
  destruct (ages_lookup now fills positions Hs) as (ages & Hok & Hlk).
  destruct (ages_lookup now fills' positions' Hs') as (ages' & Hok' & Hlk').
  exists ages, ages'. split; [exact Hok|]. split; [exact Hok'|].
  rewrite Hlk, Hlk', Hf. unfold sound_coin_age. now rewrite Hc.
Qed.

Lemma ages_per_instrument_witness :
  exists ages ages',
    infer_position_ages_from_fills 1000000
      [mkFill (Some "ETH") (TimeInt 500) 0 "A" 3;
       mkFill (Some "BTC") (TimeInt 3000) 0 "B" 2;
       mkFill None (TimeInt 4000) 0 "B" 1]
      [mkPositionView "ETH" SHORT (-3) 2000 (Some 2000) 6000 0 None 3 None 2000 None None None;
       mkPositionView "BTC" LONG 2 50000 (Some 50000) 100000 0 None 10 (Some 40000)
         5000 (Some 50) (Some 20) None]
    = Ok ages
    /\ infer_position_ages_from_fills 1000000
         [mkFill (Some "BTC") (TimeInt 3000) 0 "B" 2]
         [mkPositionView "BTC" LONG 2 50000 (Some 50000) 100000 0 None 10 (Some 40000)
            5000 (Some 50) (Some 20) None]
       = Ok ages'
    /\ ages !! "BTC" = ages' !! "BTC".
Proof.
  apply ages_per_instrument.
  - repeat constructor; discriminate.
  - repeat constructor; discriminate.
  - vm_compute. reflexivity.
  - vm_compute. reflexivity.
Defined.

(** ** The order of the log *)

Lemma strictly_sorted_by_time (s : list Fill) :
  StronglySorted (fun x y => by_time y x = false) s ->
  NoDup (map (fun f => default 0%Z (fill_time f)) s) ->
  StronglySorted (fun x y => by_time x y = true) s.
Proof.
  induction 1 as [|x rest Hrest IH Hx]; intros Hnd; [constructor|].
  cbn [map] in Hnd. apply NoDup_cons in Hnd as [Hnew Hnd].
  constructor; [now apply IH|].
  apply Forall_forall. intros y Hy. rewrite Forall_forall in Hx.
  specialize (Hx y Hy). cbv beta in Hx. unfold by_time in Hx |- *.
  apply Z.ltb_ge in Hx. apply Z.ltb_lt.
  assert (Hne : default 0%Z (fill_time x) <> default 0%Z (fill_time y)).
  { intros Heq. apply Hnew. rewrite Heq.
    apply (list_elem_of_fmap_2 (fun f => default 0%Z (fill_time f))). exact Hy. }
  lia.
Qed.

Lemma fills_of_perm (c : string) (fills fills' : list Fill) :
  fills ≡ₚ fills' -> fills_of c fills ≡ₚ fills_of c fills'.
Proof. intros Hp. unfold fills_of. now rewrite Hp. Qed.

(** X20: on a log whose times are absent or integers in the range of
    datetime, when the fills of an instrument have pairwise distinct sort
    keys (their times, 0 standing for an absent one), the age reported for
    the instrument does not depend on the order of the log. *)
Theorem age_independent_of_order (now : Q) (fills fills' : list Fill)
    (positions : list PositionView) (c : string) :
  Forall sound_time fills ->
  NoDup (map (fun f => default 0%Z (fill_time f)) (fills_of c fills)) ->
  fills ≡ₚ fills' ->
  exists ages ages',
    infer_position_ages_from_fills now fills positions = Ok ages
    /\ infer_position_ages_from_fills now fills' positions = Ok ages'
    /\ ages !! c = ages' !! c.
Proof.
  intros Hs Hnd Hp.
  assert (Hs' : Forall sound_time fills') by now rewrite <- Hp.
  destruct (ages_lookup now fills positions Hs) as (ages & Hok & Hlk).
  destruct (ages_lookup now fills' positions Hs') as (ages' & Hok' & Hlk').
  exists ages, ages'. split; [exact Hok|]. split; [exact Hok'|].
  rewrite Hlk, Hlk'. unfold sound_coin_age.
  assert (E : py_sorted by_time (fills_of c fills')
              = py_sorted by_time (fills_of c fills)).
  { apply py_sorted_of_perm; [apply by_time_asym | apply by_time_negtrans | |].
    - apply strictly_sorted_by_time; [apply by_time_sorted|].
      assert (Hq : map (fun f => default 0%Z (fill_time f))
                     (py_sorted by_time (fills_of c fills))
                   ≡ₚ map (fun f => default 0%Z (fill_time f)) (fills_of c fills))
        by apply Permutation_map, py_sorted_perm.
      now rewrite Hq.
    - rewrite py_sorted_perm. symmetry. now apply fills_of_perm. }
  now rewrite E.
Qed.

Lemma age_independent_of_order_witness :
  exists ages ages',
    infer_position_ages_from_fills 1000000
      [mkFill (Some "BTC") (TimeInt 3000) 0 "B" 2;
       mkFill (Some "BTC") (TimeInt 1000) 0 "B" 1;
       mkFill (Some "BTC") (TimeInt 2000) 1 "A" 1]
      [mkPositionView "BTC" LONG 2 50000 (Some 50000) 100000 0 None 10 (Some 40000)
         5000 (Some 50) (Some 20) None]
    = Ok ages
    /\ infer_position_ages_from_fills 1000000
         [mkFill (Some "BTC") (TimeInt 1000) 0 "B" 1;
          mkFill (Some "BTC") (TimeInt 3000) 0 "B" 2;
          mkFill (Some "BTC") (TimeInt 2000) 1 "A" 1]
         [mkPositionView "BTC" LONG 2 50000 (Some 50000) 100000 0 None 10 (Some 40000)
            5000 (Some 50) (Some 20) None]
       = Ok ages'
    /\ ages !! "BTC" = ages' !! "BTC".
Proof.
  apply age_independent_of_order.
  - repeat constructor; discriminate.
  - vm_compute. repeat constructor; intros H; repeat (apply elem_of_cons in H as [H | H]);
      (discriminate H || inversion H).
  - apply Permutation_swap.
Defined.

(** ** The fallback on the earliest fill *)

(** X21: on a log whose times are absent or integers in the range of
    datetime, when every fill of an instrument carries a time and none opens
    or flips the position (the log starts after the position was opened),
    the call returns and a position that is not (about) zero gets its age
    from the earliest fill of the instrument. *)
Theorem age_from_earliest_fill (now : Q) (fills : list Fill)
    (positions : list PositionView) (c : string) (cur : Q) (t : Z) :
  Forall sound_time fills ->
  cur_by_coin positions !! c = Some cur -> ages_eps <= py_abs cur ->
  (exists f, f ∈ fills /\ fill_coin f = Some c /\ fill_time f = Some t) ->
  (forall g, g ∈ fills -> fill_coin g = Some c ->
     ~ opens g /\ ~ flips g /\ exists t', fill_time g = Some t' /\ (t <= t')%Z) ->
  exists ages,
    infer_position_ages_from_fills now fills positions = Ok ages
    /\ ages !! c = Some (age_from now t).
Proof.
  intros Hsound Hcur Hsz (f & Hf & Hfc & Hft) Hall.
  destruct (ages_lookup now fills positions Hsound) as (ages & Hok & Hlk).
  exists ages. split; [exact Hok|].
  rewrite Hlk. unfold sound_coin_age. cbv zeta. rewrite Hcur. simpl default.
  assert (E : Qltb (py_abs cur) ages_eps = false) by now apply Qltb_ge.
  rewrite E.
  assert (Hin : forall g, g ∈ py_sorted by_time (fills_of c fills) ->
                          g ∈ fills /\ fill_coin g = Some c).
  { intros g Hg. rewrite py_sorted_perm in Hg.
    unfold fills_of in Hg. apply list_elem_of_filter in Hg. tauto. }
  assert (Hfin : f ∈ py_sorted by_time (fills_of c fills)).
  { rewrite py_sorted_perm. unfold fills_of. now apply list_elem_of_filter. }
  rewrite open_time_fold_idle.
  2:{ apply Forall_forall. intros g Hg.
      destruct (Hin g Hg) as [Hg1 Hg2]. destruct (Hall g Hg1 Hg2) as (Ho & Hfl & _).
      now split. }
  pose proof (by_time_sorted (fills_of c fills)) as Hs.
  destruct (py_sorted by_time (fills_of c fills)) as [|f0 rest]; [inversion Hfin|].
  destruct (Hin f0 (list_elem_of_here _ _)) as [H0 H0c].
  destruct (Hall f0 H0 H0c) as (_ & _ & t0 & Ht0 & Hle0).
  rewrite Ht0. do 2 f_equal.
  apply elem_of_cons in Hfin as [-> | Hfin]; [congruence|].
  apply StronglySorted_inv in Hs as [_ Hs]. rewrite Forall_forall in Hs.
  specialize (Hs f Hfin). cbv beta in Hs. unfold by_time in Hs.
  rewrite Hft, Ht0 in Hs. simpl in Hs. apply Z.ltb_ge in Hs. lia.
Qed.

Lemma age_from_earliest_fill_witness :
  exists ages,
    infer_position_ages_from_fills 1000000
      [mkFill (Some "BTC") (TimeInt 3000) 3 "A" 1;
       mkFill (Some "BTC") (TimeInt 1000) 2 "B" 1]
      [mkPositionView "BTC" LONG 2 50000 (Some 50000) 100000 0 None 10 (Some 40000)
         5000 (Some 50) (Some 20) None]
    = Ok ages
    /\ ages !! "BTC" = Some (age_from 1000000 1000).
Proof.
  apply (age_from_earliest_fill 1000000 _ _ "BTC" 2 1000).
  - repeat constructor; discriminate.
  - vm_compute. reflexivity.
  - vm_compute. discriminate.
  - exists (mkFill (Some "BTC") (TimeInt 1000) 2 "B" 1).
    split; [right; left | split; reflexivity].
  - intros g Hg Hc.
    repeat (apply elem_of_cons in Hg as [-> | Hg]); [| | inversion Hg].
    + split; [|split].
      * intros [Ho _]. revert Ho. vm_compute. discriminate.
      * vm_compute. discriminate.
      * exists 3000%Z. split; [reflexivity | lia].
    + split; [|split].
      * intros [Ho _]. revert Ho. vm_compute. discriminate.
      * vm_compute. discriminate.
      * exists 1000%Z. split; [reflexivity | lia].
Defined.

(** * Further properties of the window metrics *)

Lemma return_bounds (e b B prev cur : Q) :
  0 < e -> e < prev -> 2 * b <= B * e -> 0 <= B ->
  py_abs prev <= b -> py_abs cur <= b ->
  py_abs ((cur - prev) / prev) <= B.
Proof.
  intros He Hprev Hb HB Hp Hc. apply py_abs_le in Hp, Hc. apply py_abs_le.
  assert (Hpos : 0 < prev) by lra.
  assert (Hmul : e * B <= prev * B) by (apply Qmult_le_compat_r; lra).
  assert (E1 : e * B == B * e) by ring. assert (E2 : prev * B == B * prev) by ring.
  rewrite E1, E2 in Hmul. clear E1 E2.
  split.
  - apply Qle_shift_div_l; [exact Hpos|].
    assert (E : - B * prev == - (B * prev)) by ring. rewrite E. lra.
  - apply Qle_shift_div_r; [exact Hpos|]. lra.
Qed.

Lemma rets_loop_moderate (e b B eps : Q) (l : list Q) :
  0 < e -> e <= eps -> 2 * b <= B * e -> 0 <= B ->
  Forall (fun v => py_abs v <= b) l ->
  exists rs, rets_loop eps l = Ok rs /\ (length rs <= pred (length l))%nat
             /\ Forall (fun r => py_abs r <= B) rs.
Proof.
  intros He Heps Hb HB. induction l as [|prev [|cur rest] IH]; intros Hall.
  - exists []. split; [reflexivity|]. split; [simpl; lia | constructor].
  - exists []. split; [reflexivity|]. split; [simpl; lia | constructor].
  - inversion Hall as [|? ? Hp Hrest]; subst.
    destruct (IH Hrest) as (rs & Hrs & Hlen & Hbound).
    change (rets_loop eps (prev :: cur :: rest)) with
      (if Qltb eps prev
       then r ← py_div (cur - prev) prev; rs ← rets_loop eps (cur :: rest); Ok (r :: rs)
       else rets_loop eps (cur :: rest)).
    destruct (Qltb eps prev) eqn:E.
    + apply Qltb_lt in E. rewrite py_div_ok by lra. cbn [mbind res_bind]. rewrite Hrs.
      cbn [mbind res_bind]. eexists. split; [reflexivity|].
      split; [simpl in *; lia|]. constructor; [|exact Hbound].
      inversion Hrest as [|? ? Hc _]; subst.
      apply (return_bounds e b B); try assumption. lra.
    + exists rs. split; [exact Hrs|]. split; [simpl in *; lia | exact Hbound].
Qed.

Lemma moderate_constants :
  0 < baseline_eps_default /\ 2 * 1e100 <= 1e150 * baseline_eps_default /\ 0 <= 1e150.
Proof.
  split; [reflexivity|]. split; apply Qle_bool_imp_le; vm_compute; reflexivity.
Qed.

Lemma stdev_ok (sqrt : Q -> Q) (values : list Q) :
  Forall (fun v => py_abs v <= 1e150) values -> exists v, stdev sqrt values = Ok v.
Proof.
  intros Hall. destruct (le_lt_dec 2 (length values)) as [Hlen | Hlen].
  - eexists. now apply stdev_moderate.
  - exists None. unfold stdev. apply Nat.ltb_lt in Hlen. now rewrite Hlen.
Qed.

Lemma window_vol_ok (sqrt : Q -> Q) (eps : Q) (l : list Q) :
  baseline_eps_default <= eps -> Forall (fun v => py_abs v <= 1e100) l ->
  exists v, window_vol_pct_daily sqrt eps l = Ok v /\ ((length l < 3)%nat -> v = None).
Proof.
  intros Heps Hall. unfold window_vol_pct_daily.
  destruct (2 <=? length l)%nat; [|now exists None].
  destruct moderate_constants as (H1 & H2 & H3).
  destruct (rets_loop_moderate baseline_eps_default 1e100 1e150 eps l H1 Heps H2 H3 Hall)
    as (rs & -> & Hlen & Hrs).
  cbn [mbind res_bind].
  destruct (2 <=? length rs)%nat eqn:E2.
  - destruct (stdev_ok sqrt rs Hrs) as [v ->]. cbn [mbind res_bind].
    eexists. split; [reflexivity|]. intros Hl. apply Nat.leb_le in E2. lia.
  - cbn [mbind res_bind]. now exists None.
Qed.

Lemma base_idx_from_some (eps : Q) (vals : list Q) : forall k i,
  base_idx_from eps k vals = Some i ->
  exists j v, i = (k + j)%nat /\ vals !! j = Some v /\ eps < v.
Proof.
  induction vals as [|v rest IH]; intros k i H; [discriminate|].
  cbn [base_idx_from] in H. unfold isfinite in H. cbn [andb] in H.
  destruct (Qltb eps v) eqn:E.
  - injection H as <-. exists 0%nat, v.
    split; [lia|]. split; [reflexivity|]. now apply Qltb_lt.
  - destruct (IH _ _ H) as (j & w & -> & Hj & Hw). exists (S j), w.
    split; [lia|]. split; assumption.
Qed.

Lemma base_idx_from_app (eps : Q) (l1 l2 : list Q) (v : Q) : forall k,
  Forall (fun x => x <= eps) l1 -> eps < v ->
  base_idx_from eps k (l1 ++ v :: l2) = Some (k + length l1)%nat.
Proof.
  induction l1 as [|x l1 IH]; intros k Hall Hv; cbn [app base_idx_from length].
  - apply Qltb_lt in Hv. unfold isfinite. rewrite Hv. simpl. f_equal. lia.
  - inversion Hall as [|? ? Hx Hl1]; subst. apply Qltb_ge in Hx.
    unfold isfinite. rewrite Hx. simpl andb. cbv iota.
    rewrite IH by assumption. f_equal. lia.
Qed.

(** X22: with a baseline threshold of at least the default 1e-9 and
    account values of at most 1e100 in absolute value,
    [window_return_metrics] never raises (no division by zero, no index out
    of range, no overflow in the squares of [stdev]); the drawdown it
    reports is not negative, a PnL percentage is reported only together
    with a growth percentage, and below three points there is no
    volatility. *)
Theorem window_metrics_safe (sqrt : Q -> Q) (win : Window) (eps : Q) :
  baseline_eps_default <= eps ->
  Forall (fun p => py_abs p.2 <= 1e100) (account_values win) ->
  exists m, window_return_metrics sqrt win eps = Ok m
    /\ (forall d, max_drawdown_pct m = Some d -> 0 <= d)
    /\ (growth_pct m = None -> pnl_pct m = None)
    /\ ((length (account_values win) < 3)%nat -> vol_pct_daily m = None).
Proof.
  intros Heps0 Hmod.
  assert (Heps : 0 <= eps).
  { eapply Qle_trans; [|exact Heps0]. discriminate. }
  unfold window_return_metrics. cbv zeta.
  destruct (length (account_values win) <? 2)%nat eqn:Elen.
  { eexists. split; [reflexivity|]. cbn.
    split; [discriminate|]. split; reflexivity. }
  apply Nat.ltb_ge in Elen.
  remember (sorted_by_ts (account_values win)) as av_sorted eqn:Eso.
  assert (Hlen : length (map snd av_sorted) = length (account_values win)).
  { subst av_sorted. unfold sorted_by_ts. now rewrite length_map, py_sorted_length. }
  assert (Hvals : Forall (fun v => py_abs v <= 1e100) (map snd av_sorted)).
  { subst av_sorted. apply Forall_forall. intros v Hv.
    apply list_elem_of_In, in_map_iff in Hv as (p & <- & Hp).
    apply list_elem_of_In in Hp. unfold sorted_by_ts in Hp. rewrite py_sorted_perm in Hp.
    rewrite Forall_forall in Hmod. now apply Hmod. }
  remember (base_idx eps (map snd av_sorted)) as bidx eqn:Eb.
  rewrite filter_isfinite.
  remember (drop (match bidx with Some i => i | None => 0%nat end) (map snd av_sorted))
    as av_slice eqn:Esl.
  assert (Hsl : (length av_slice <= length (account_values win))%nat).
  { subst av_slice. rewrite length_drop. lia. }
  assert (Hslice : Forall (fun v => py_abs v <= 1e100) av_slice).
  { subst av_slice. now apply Forall_drop. }
  clear Esl.
  destruct (window_vol_ok sqrt eps av_slice Heps0 Hslice) as (vol & -> & Hvol).
  cbn [mbind res_bind].
  assert (Hmdd : exists mdd,
             (if (2 <=? length av_slice)%nat then max_drawdown av_slice else Ok None) = Ok mdd
             /\ forall d, mdd = Some d -> 0 <= d).
  { destruct (2 <=? length av_slice)%nat eqn:E2.
    - apply Nat.leb_le in E2.
      destruct (max_drawdown_some av_slice E2) as (mdd & -> & Hm & _).
      exists (Some mdd). split; [reflexivity|]. intros d [= <-]. exact Hm.
    - exists None. split; [reflexivity | discriminate]. }
  destruct Hmdd as (mdd & -> & Hmdd). cbn [mbind res_bind].
  assert (Hdd : forall d,
             match mdd with Some mdd => Some (mdd * 100) | None => None end = Some d ->
             0 <= d).
  { intros d. destruct mdd as [x|]; [|discriminate]. intros [= <-].
    specialize (Hmdd x eq_refl). lra. }
  assert (Hvol' : (length (account_values win) < 3)%nat -> vol = None).
  { intros H. apply Hvol. lia. }
  assert (Hnone : exists m,
             Ok (mkMetrics None None vol
                   match mdd with Some mdd => Some (mdd * 100) | None => None end)
             = Ok m
             /\ (forall d, max_drawdown_pct m = Some d -> 0 <= d)
             /\ (growth_pct m = None -> pnl_pct m = None)
             /\ ((length (account_values win) < 3)%nat -> vol_pct_daily m = None)).
  { eexists. split; [reflexivity|]. cbn. split; [exact Hdd|]. split; [reflexivity | exact Hvol']. }
  destruct bidx as [i|]; [|exact Hnone].
  destruct (Z.of_nat i <? Z.of_nat (length (map snd av_sorted)) - 1)%Z; [|exact Hnone].
  symmetry in Eb. unfold base_idx in Eb.
  apply base_idx_from_some in Eb as (j & v & -> & Hj & Hv). cbn [Nat.add].
  rewrite list_lookup_fmap in Hj.
  destruct (av_sorted !! j) as [[ts b]|]; [|discriminate].
  cbn in Hj. injection Hj as ->.
  destruct (last (map snd av_sorted)) as [end_av|] eqn:El.
  2:{ apply last_None in El. rewrite El in Hlen. simpl in Hlen. lia. }
  apply Qltb_lt in Hv as Hv'. rewrite Hv'.
  rewrite py_div_ok by lra. cbn [mbind res_bind].
  destruct (window_pnl_pct_ok (pnls win) ts v) as [p ->]; [lra|].
  cbn [mbind res_bind].
  eexists. split; [reflexivity|]. cbn.
  split; [exact Hdd|]. split; [discriminate | exact Hvol'].
Qed.

Lemma window_metrics_safe_witness :
  exists m,
    window_return_metrics (fun x => x) (mkWindow [(1%Z, 0); (2%Z, 100); (3%Z, 90)] [] 0)
      baseline_eps_default = Ok m
    /\ (growth_pct m = None -> pnl_pct m = None).
Proof.
  destruct (window_metrics_safe (fun x => x)
              (mkWindow [(1%Z, 0); (2%Z, 100); (3%Z, 90)] [] 0) baseline_eps_default)
    as (m & Hm & _ & H & _);
    [apply Qle_refl | repeat constructor; apply Qle_bool_imp_le; vm_compute; reflexivity |].
  exists m. split; [exact Hm | exact H].
Defined.

Lemma sorted_by_ts_chronological (l : list (Z * Q)) :
  StronglySorted (fun x y => (x.1 <= y.1)%Z) l -> sorted_by_ts l = l.
Proof.
  intros H. apply py_sorted_in_order.
  induction H as [|x l Hl IH Hx]; [exact I|].
  destruct l as [|y rest]; [exact I|]. split; [|exact IH].
  inversion Hx as [|? ? Hxy _]; subst. apply Z.ltb_ge. exact Hxy.
Qed.

(** X23: leading account values that do not exceed the baseline threshold
    are ignored: on points in chronological order, the metrics are those of
    the window that starts at the first finite value above the threshold. *)
Theorem window_leading_zeros_ignored (sqrt : Q -> Q) (pre post : list (Z * Q))
    (ts : Z) (b : Q) (pnl_points : list (Z * Q)) (vlm eps : Q) :
  StronglySorted (fun x y => (x.1 <= y.1)%Z) (pre ++ (ts, b) :: post) ->
  Forall (fun p => p.2 <= eps) pre -> isfinite b = true -> eps < b ->
  window_return_metrics sqrt (mkWindow (pre ++ (ts, b) :: post) pnl_points vlm) eps
  = window_return_metrics sqrt (mkWindow ((ts, b) :: post) pnl_points vlm) eps.
Proof.
  intros Hs Hpre _ Hb.
  assert (Hs' : StronglySorted (fun x y => (x.1 <= y.1)%Z) ((ts, b) :: post)).
  { clear -Hs. induction pre as [|p pre IH]; [exact Hs|].
    apply IH. cbn [app] in Hs. now apply StronglySorted_inv in Hs as [Hs _]. }
  unfold window_return_metrics. cbv zeta. cbn [account_values pnls].
  rewrite (sorted_by_ts_chronological _ Hs), (sorted_by_ts_chronological _ Hs').
  rewrite !filter_isfinite.
  assert (Hb1 : base_idx eps (map snd (pre ++ (ts, b) :: post)) = Some (length pre)).
  { unfold base_idx. rewrite map_app. cbn [map snd].
    rewrite base_idx_from_app; [now rewrite length_map | | exact Hb].
    apply Forall_forall. intros x Hx. apply list_elem_of_In, in_map_iff in Hx as (p & <- & Hp).
    rewrite Forall_forall in Hpre. apply Hpre. now apply list_elem_of_In. }
  assert (Hb2 : base_idx eps (map snd ((ts, b) :: post)) = Some 0%nat).
  { unfold base_idx. cbn [map snd base_idx_from]. unfold isfinite.
    apply Qltb_lt in Hb. now rewrite Hb. }
  rewrite Hb1, Hb2.
  assert (Hdrop : drop (length pre) (map snd (pre ++ (ts, b) :: post))
                  = map snd ((ts, b) :: post)).
  { rewrite map_app. rewrite <- (length_map snd pre). apply drop_app_length. }
  rewrite Hdrop, drop_0.
  assert (Hlk : (pre ++ (ts, b) :: post) !! length pre = Some (ts, b))
    by apply list_lookup_middle, eq_refl.
  rewrite Hlk. cbn [lookup list_lookup].
  assert (Hlast : last (map snd (pre ++ (ts, b) :: post)) = last (map snd ((ts, b) :: post))).
  { rewrite map_app. cbn [map]. now rewrite last_app_cons. }
  rewrite Hlast.
  rewrite !length_map, length_app. cbn [length].
  destruct post as [|p post].
  - cbn [length map].
    assert (E1 : (Z.of_nat (length pre) <? Z.of_nat (length pre + 1) - 1)%Z = false)
      by (apply Z.ltb_ge; lia).
    rewrite E1.
    destruct (length pre + 1 <? 2)%nat; reflexivity.
  - cbn [length].
    assert (E1 : (length pre + S (S (length post)) <? 2)%nat = false)
      by (apply Nat.ltb_ge; lia).
    assert (E2 : (Z.of_nat (length pre) <? Z.of_nat (length pre + S (S (length post))) - 1)%Z
                 = true) by (apply Z.ltb_lt; lia).
    assert (E3 : (Z.of_nat 0 <? Z.of_nat (S (S (length post))) - 1)%Z = true)
      by (apply Z.ltb_lt; lia).
    rewrite E1, E2, E3. reflexivity.
Qed.

Lemma window_leading_zeros_ignored_witness :
  window_return_metrics (fun x => x)
    (mkWindow [(1%Z, 0); (2%Z, 0); (3%Z, 100); (4%Z, 110)] [] 0) baseline_eps_default
  = window_return_metrics (fun x => x)
      (mkWindow [(3%Z, 100); (4%Z, 110)] [] 0) baseline_eps_default.
Proof.
  apply (window_leading_zeros_ignored (fun x => x) [(1%Z, 0); (2%Z, 0)] [(4%Z, 110)]
           3 100 [] 0 baseline_eps_default).
  - repeat constructor; simpl; lia.
  - repeat constructor; discriminate.
  - reflexivity.
  - reflexivity.
Defined.

Lemma sorted_by_ts_strict (s : list (Z * Q)) :
  StronglySorted (fun x y => (y.1 <? x.1)%Z = false) s -> NoDup s.*1 ->
  StronglySorted (fun x y => (x.1 <? y.1)%Z = true) s.
Proof.
  induction 1 as [|x l Hl IH Hx]; intros Hnd; [constructor|].
  cbn [fmap list_fmap] in Hnd. apply NoDup_cons in Hnd as [Hx1 Hnd].
  constructor; [now apply IH|].
  apply Forall_forall. intros y Hy. rewrite Forall_forall in Hx.
  specialize (Hx y Hy). cbv beta in Hx. apply Z.ltb_ge in Hx. apply Z.ltb_lt.
  assert (Hne : x.1 <> y.1).
  { intros Heq. apply Hx1. rewrite Heq. apply list_elem_of_fmap. now exists y. }
  lia.
Qed.

Lemma sorted_by_ts_perm (l l' : list (Z * Q)) :
  l ≡ₚ l' -> NoDup l.*1 -> sorted_by_ts l = sorted_by_ts l'.
Proof.
  intros Hp Hnd. unfold sorted_by_ts. apply py_sorted_of_perm.
  - intros x y. rewrite Z.ltb_lt, Z.ltb_ge. lia.
  - intros x y z. rewrite !Z.ltb_ge. lia.
  - apply sorted_by_ts_strict.
    + apply py_sorted_sorted.
      * intros x y. rewrite Z.ltb_lt, Z.ltb_ge. lia.
      * intros x y z. rewrite !Z.ltb_ge. lia.
    + now rewrite py_sorted_perm, <- Hp.
  - now rewrite py_sorted_perm.
Qed.

(** X24: the metrics do not depend on the order in which the points of
    the window are given, provided no timestamp occurs twice in a history;
    they do not depend on the volume either. *)
Theorem window_metrics_order_independent (sqrt : Q -> Q)
    (av av' pnl_points pnl_points' : list (Z * Q)) (vlm vlm' eps : Q) :
  av ≡ₚ av' -> pnl_points ≡ₚ pnl_points' ->
  NoDup av.*1 -> NoDup pnl_points.*1 ->
  window_return_metrics sqrt (mkWindow av pnl_points vlm) eps
  = window_return_metrics sqrt (mkWindow av' pnl_points' vlm') eps.
Proof.
  intros Hav Hpn Hnd1 Hnd2.
  unfold window_return_metrics, window_pnl_pct. cbn [account_values pnls].
  rewrite <- (sorted_by_ts_perm av av' Hav Hnd1).
  rewrite <- (sorted_by_ts_perm pnl_points pnl_points' Hpn Hnd2).
  rewrite <- (Permutation_length Hav), <- (Permutation_length Hpn).
  reflexivity.
Qed.

Lemma window_metrics_order_independent_witness :
  window_return_metrics (fun x => x)
    (mkWindow [(3%Z, 90); (1%Z, 100); (2%Z, 120)] [(2%Z, 5); (1%Z, 0)] 7)
    baseline_eps_default
  = window_return_metrics (fun x => x)
      (mkWindow [(1%Z, 100); (2%Z, 120); (3%Z, 90)] [(1%Z, 0); (2%Z, 5)] 0)
      baseline_eps_default.
Proof.
  apply window_metrics_order_independent.
  - apply (Permutation_cons_append [_; _]).
  - apply Permutation_swap.
  - apply (bool_decide_unpack _). vm_compute. exact I.
  - apply (bool_decide_unpack _). vm_compute. exact I.
Defined.

(** * Output order, rank scores and styles *)

Lemma sorted_by_score_map (key : rank_key) (h : Wallet -> Wallet) (l : list Wallet) :
  (forall w, rank_scores (h w) = rank_scores w) ->
  sorted_by_score key (map h l) = map h (sorted_by_score key l).
Proof.
  intros Hh. unfold sorted_by_score. apply py_sorted_map.
  intros x y. unfold rank_score. now rewrite !Hh.
Qed.

(** [apply_ranks] in two passes: the scores, then the ranks read off the
    sorted cohort. *)
Lemma apply_ranks_unfold (wallets : list Wallet) :
  exists ws1,
    Forall2 (fun w w1 => exists s, compute_rank_scores w = Ok s /\ w1 = set_rank_scores w s)
      wallets ws1
    /\ apply_ranks wallets
       = Ok (map (fun w => set_ranks w
                    (fun k => assign_ranks 1 (sorted_by_score k ws1) ∅ !! address w)) ws1).
Proof.
  set (g := fun w => set_rank_scores w
              match compute_rank_scores w with Ok s => s | Raise _ => mkRankScores 0 0 0 0 end).
  exists (map g wallets). split.
  - apply Forall2_fmap_r, Forall_Forall2_diag, Forall_forall. intros w _.
    destruct (compute_rank_scores_ok w) as [s Hs]. exists s.
    split; [exact Hs|]. unfold g. now rewrite Hs.
  - unfold apply_ranks. rewrite (mapM_res_ok _ g); [reflexivity|].
    intros w. unfold g. now destruct (compute_rank_scores_ok w) as [s ->].
Qed.

Lemma scored_addresses (wallets ws1 : list Wallet) :
  Forall2 (fun w w1 => exists s, compute_rank_scores w = Ok s /\ w1 = set_rank_scores w s)
    wallets ws1 ->
  map address ws1 = map address wallets.
Proof.
  induction 1 as [|w w1 l l1 (s & _ & ->) _ IH]; [reflexivity|].
  cbn [map]. now rewrite IH.
Qed.

(** X25: after [apply_ranks] on a cohort with distinct addresses,
    [sort_wallets] by a rank key keeps all wallets and lists them in the
    order of their ranks for that key: the wallet at position [i] (from 0)
    has rank [i + 1]. *)
Theorem sort_wallets_follows_ranks (lower : string -> string) (wallets ws : list Wallet)
    (by_ : string) (key : rank_key) :
  NoDup (map address wallets) -> apply_ranks wallets = Ok ws ->
  rank_key_of (lower by_) = Some key ->
  sort_wallets lower ws by_ ≡ₚ ws
  /\ forall i w, sort_wallets lower ws by_ !! i = Some w -> ranks w key = Some (S i).
Proof.
  intros Hnd Happ Hkey. unfold sort_wallets. cbv zeta. rewrite Hkey.
  split; [apply py_sorted_perm|].
  destruct (apply_ranks_unfold wallets) as (ws1 & Hsc & Happ').
  rewrite Happ' in Happ. injection Happ as <-.
  rewrite sorted_by_score_map by reflexivity.
  intros i w Hi. rewrite list_lookup_fmap in Hi.
  destruct (sorted_by_score key ws1 !! i) as [w1|] eqn:E; [|discriminate].
  injection Hi as <-. cbn [ranks set_ranks].
  apply (assign_ranks_lookup _ 1 ∅ i w1); [|exact E].
  assert (Hp : map address (sorted_by_score key ws1) ≡ₚ map address ws1)
    by apply Permutation_map, py_sorted_perm.
  rewrite Hp, (scored_addresses _ _ Hsc). exact Hnd.
Qed.

Lemma sort_wallets_follows_ranks_witness :
  let w a r := mkWallet a 100000 [] (Some 50) None None None r None None (fun _ => None) in
  exists ws,
    apply_ranks [w "0xaa" 10; w "0xbb" 30; w "0xcc" 20] = Ok ws
    /\ forall i x, sort_wallets (fun s => s) ws "risk" !! i = Some x ->
                   ranks x Risk = Some (S i).
Proof.
  intros w.
  destruct (apply_ranks_unfold [w "0xaa" 10; w "0xbb" 30; w "0xcc" 20]) as (ws1 & _ & Hws).
  eexists. split; [exact Hws|].
  apply (sort_wallets_follows_ranks (fun s => s) [w "0xaa" 10; w "0xbb" 30; w "0xcc" 20]).
  - apply (bool_decide_unpack _). vm_compute. exact I.
  - exact Hws.
  - reflexivity.
Defined.

(** X26: an unknown sort key leaves the wallets as they are, and every
    sort key returns a rearrangement of the wallets: none is dropped or
    repeated. *)
Theorem sort_wallets_rearranges (lower : string -> string) (wallets : list Wallet)
    (by_ : string) :
  sort_wallets lower wallets by_ ≡ₚ wallets
  /\ (rank_key_of (lower by_) = None -> lower by_ <> "account_value" ->
      sort_wallets lower wallets by_ = wallets).
Proof.
  unfold sort_wallets. cbv zeta. split.
  - destruct (rank_key_of (lower by_)); [apply py_sorted_perm|].
    destruct (String.eqb (lower by_) "account_value"); [apply py_sorted_perm | reflexivity].
  - intros -> Hne. apply String.eqb_neq in Hne. now rewrite Hne.
Qed.

(** ** [style_label] *)

Lemma style_label_severity (risk : Q) (v d : option Q) :
  ((2 <= severity (style_label risk v d))%nat
   <-> 70 <= risk \/ 5 <= or_zero v \/ 25 <= or_zero d)
  /\ ((1 <= severity (style_label risk v d))%nat
      <-> 40 <= risk \/ 2 <= or_zero v \/ 12 <= or_zero d).
Proof.
  unfold style_label. cbv zeta.
  change (match v with Some x => x | None => 0 end) with (or_zero v).
  change (match d with Some x => x | None => 0 end) with (or_zero d).
  generalize (or_zero v) (or_zero d). intros V D.
  destruct (Qleb 70 risk) eqn:E1; [apply Qleb_le in E1 | apply Qleb_gt in E1];
  destruct (Qleb 5 V) eqn:E2; [apply Qleb_le in E2 | apply Qleb_gt in E2 |
                               apply Qleb_le in E2 | apply Qleb_gt in E2];
  destruct (Qleb 25 D) eqn:E3;
    try apply Qleb_le in E3; try apply Qleb_gt in E3; cbn [orb severity];
    try (split; split; intros; solve [lia | left; lra | right; left; lra | right; right; lra]).
  destruct (Qleb 40 risk) eqn:E4; [apply Qleb_le in E4 | apply Qleb_gt in E4];
  destruct (Qleb 2 V) eqn:E5; [apply Qleb_le in E5 | apply Qleb_gt in E5 |
                               apply Qleb_le in E5 | apply Qleb_gt in E5];
  destruct (Qleb 12 D) eqn:E6;
    try apply Qleb_le in E6; try apply Qleb_gt in E6; cbn [orb severity];
    split; split; intros H;
    solve [lia | left; lra | right; left; lra | right; right; lra
           | exfalso; destruct H as [H | [H | H]]; lra].
Qed.

(** X27: [style_label] is monotone: raising the risk score, the daily
    volatility or the drawdown (a null input counting as 0.0) never gives a
    less aggressive label. *)
Theorem style_label_monotone (risk risk' : Q) (v v' d d' : option Q) :
  risk <= risk' -> or_zero v <= or_zero v' -> or_zero d <= or_zero d' ->
  (severity (style_label risk v d) <= severity (style_label risk' v' d'))%nat.
Proof.
  intros Hr Hv Hd.
  destruct (style_label_severity risk v d) as [H2 H1].
  destruct (style_label_severity risk' v' d') as [H2' H1'].
  assert (Hs : (severity (style_label risk v d) <= 2)%nat)
    by (destruct (style_label risk v d); simpl; lia).
  destruct (severity (style_label risk v d)) as [|[|[|n]]]; [lia | | | lia].
  - apply H1'. destruct (proj1 H1 (le_n _)) as [H | [H | H]];
      [left | right; left | right; right]; lra.
  - apply H2'. destruct (proj1 H2 (le_n _)) as [H | [H | H]];
      [left | right; left | right; right]; lra.
Qed.

Lemma style_label_monotone_witness :
  (severity (style_label 35%Q (Some 1%Q) None)
   <= severity (style_label 35%Q (Some 3%Q) (Some 2%Q)))%nat.
Proof.
  apply style_label_monotone; [apply Qle_refl | discriminate | discriminate].
Defined.

(** ** [compute_rank_scores] *)

Lemma avg_age_nonneg (ages : list Q) :
  ages <> [] -> Forall (fun a => 0 <= a) ages ->
  0 <= py_sum ages / inject_Z (Z.of_nat (length ages)).
Proof.
  intros Hne Hall. apply Qle_shift_div_l.
  - change 0 with (inject_Z 0). rewrite <- Zlt_Qlt. destruct ages; [congruence | simpl; lia].
  - rewrite Qmult_0_l. now apply py_sum_nonneg.
Qed.

(** X28: [compute_rank_scores] never raises, also for a wallet without
    position ages; the risk score is passed through, the stability score is
    not negative and is at most 100 when the monthly volatility and drawdown
    are not negative, and with ages that are not negative the conviction
    score is at least half the exposure minus half the risk. *)
Theorem rank_scores_ranges (w : Wallet) :
  exists s, compute_rank_scores w = Ok s
    /\ rs_risk s = wallet_risk_score w
    /\ 0 <= rs_stability s
    /\ (0 <= or_zero (portfolio_month w ≫= vol_pct_daily) ->
        0 <= or_zero (portfolio_month w ≫= max_drawdown_pct) ->
        rs_stability s <= 100)
    /\ (Forall (fun p => forall a, age_days p = Some a -> 0 <= a) (wallet_positions w) ->
        or_zero (exposure_pct w) * 0.5 - wallet_risk_score w * 0.5 <= rs_conviction s).
Proof.
  unfold compute_rank_scores. cbv zeta.
  set (vol := or_zero (portfolio_month w ≫= vol_pct_daily)).
  set (mdd := or_zero (portfolio_month w ≫= max_drawdown_pct)).
  destruct (omap age_days (wallet_positions w)) as [|a ages] eqn:E.
  - eexists. split; [reflexivity|]. cbn [rs_risk rs_stability rs_conviction].
    split; [reflexivity|]. split; [py_minmax; lra|].
    split; [intros; py_minmax; lra | intros _; lra].
  - rewrite py_div_ok.
    2:{ unfold Qeq. simpl. lia. }
    eexists. split; [reflexivity|]. cbn [rs_risk rs_stability rs_conviction].
    split; [reflexivity|]. split; [py_minmax; lra|].
    split; [intros; py_minmax; lra|].
    intros Hall.
    assert (Havg : 0 <= py_sum (a :: ages) / inject_Z (Z.of_nat (length (a :: ages)))).
    { apply avg_age_nonneg; [discriminate|]. rewrite <- E.
      apply Forall_forall. intros x Hx. apply list_elem_of_omap in Hx as (p & Hp & Hx).
      rewrite Forall_forall in Hall. exact (Hall p Hp x Hx). }
    lra.
Qed.

(** ** [finalize_wallets] followed by [apply_ranks] *)

Lemma risk_score_range (av : Q) (ps : list PositionView) :
  exists s, risk_score av ps = Ok s /\ 0 <= s /\ s <= 100.
Proof.
  unfold risk_score.
  destruct (Qleb av 0 || bool_decide (ps = [])) eqn:E.
  - exists 0. split; [reflexivity|]. split; discriminate.
  - apply orb_false_elim in E as [E1 E2]. apply Qleb_gt in E1.
    apply bool_decide_eq_false in E2.
    rewrite py_div_ok by lra.
    eexists. split; [reflexivity|].
    apply (risk_blend_range (total_margin ps / av) (max_lev ps / 50) (closest ps)).
Qed.

Lemma compute_rank_scores_risk (w : Wallet) (s : RankScores) :
  compute_rank_scores w = Ok s -> rs_risk s = wallet_risk_score w.
Proof.
  unfold compute_rank_scores. cbv zeta.
  destruct (omap age_days (wallet_positions w)) as [|a ages].
  - intros [= <-]. reflexivity.
  - destruct (py_div _ _); [|discriminate]. intros [= <-]. reflexivity.
Qed.

(** X29: on a cohort with distinct addresses, [finalize_wallets] followed
    by [apply_ranks] never raises and keeps the wallets and their order;
    afterwards every wallet has a risk score in [[0, 100]], the style that
    [style_label] gives for that score and the monthly metrics, that score as
    its risk rank score, and a rank of at least 1 for every key. *)
Theorem finalize_then_rank (wallets : list Wallet) :
  NoDup (map address wallets) ->
  exists ws1 ws2,
    finalize_wallets wallets = Ok ws1 /\ apply_ranks ws1 = Ok ws2
    /\ map address ws2 = map address wallets
    /\ Forall (fun w =>
         0 <= wallet_risk_score w /\ wallet_risk_score w <= 100
         /\ wallet_style w
            = Some (style_label (wallet_risk_score w)
                      (portfolio_month w ≫= vol_pct_daily)
                      (portfolio_month w ≫= max_drawdown_pct))
         /\ (exists s, rank_scores w = Some s /\ rs_risk s = wallet_risk_score w)
         /\ forall key, exists n, ranks w key = Some (S n)) ws2.
Proof.
  intros Hnd.
  set (f := fun w =>
         let r := match risk_score (wallet_account_value w) (wallet_positions w) with
                  | Ok r => r | Raise _ => 0 end in
         set_risk_style w r
           (style_label r (portfolio_month w ≫= vol_pct_daily)
              (portfolio_month w ≫= max_drawdown_pct))).
  assert (Hfin : finalize_wallets wallets = Ok (map f wallets)).
  { unfold finalize_wallets. apply mapM_res_ok. intros w. unfold finalize_wallet, f.
    destruct (risk_score_range (wallet_account_value w) (wallet_positions w))
      as (r & -> & _). reflexivity. }
  assert (Hf : forall w, 0 <= wallet_risk_score (f w) /\ wallet_risk_score (f w) <= 100
             /\ wallet_style (f w)
                = Some (style_label (wallet_risk_score (f w))
                          (portfolio_month (f w) ≫= vol_pct_daily)
                          (portfolio_month (f w) ≫= max_drawdown_pct))).
  { intros w. unfold f.
    destruct (risk_score_range (wallet_account_value w) (wallet_positions w))
      as (r & -> & Hr0 & Hr1). cbn. auto. }
  destruct (apply_ranks_unfold (map f wallets)) as (ws1 & Hsc & Happ).
  assert (Haddr : map address ws1 = map address wallets).
  { rewrite (scored_addresses _ _ Hsc), map_map. reflexivity. }
  assert (Hnd1 : NoDup (map address ws1)) by now rewrite Haddr.
  eexists _, _. split; [exact Hfin|]. split; [exact Happ|]. split.
  { rewrite map_map. exact Haddr. }
  apply Forall_forall. intros w2 Hw2.
  apply list_elem_of_fmap in Hw2 as (w1 & -> & Hw1).
  assert (Hsrc : exists w s, compute_rank_scores (f w) = Ok s /\ w1 = set_rank_scores (f w) s).
  { assert (Hgo : forall l l1,
               Forall2 (fun w w1 => exists s, compute_rank_scores w = Ok s
                                              /\ w1 = set_rank_scores w s) l l1 ->
               Forall (fun x => exists w, x = f w) l -> w1 ∈ l1 ->
               exists w s, compute_rank_scores (f w) = Ok s /\ w1 = set_rank_scores (f w) s).
    { intros l l1 H2. induction H2 as [|x y l0 l2 (s & Hs & Hy) _ IH]; intros Hall Hin.
      - inversion Hin.
      - inversion Hall as [|? ? (w & ->) Hall']; subst.
        apply elem_of_cons in Hin as [-> | Hin]; [now exists w, s | now apply IH]. }
    apply (Hgo (map f wallets) ws1 Hsc); [|exact Hw1].
    apply Forall_forall. intros x Hx. apply list_elem_of_fmap in Hx as (w & -> & _).
    now exists w. }
  destruct Hsrc as (w & s & Hs & ->).
  destruct (Hf w) as (H0 & H100 & Hstyle).
  cbn [wallet_risk_score wallet_style portfolio_month rank_scores ranks address
       set_ranks set_rank_scores].
  split; [exact H0|]. split; [exact H100|]. split; [exact Hstyle|]. split.
  - exists s. split; [reflexivity | now apply compute_rank_scores_risk].
  - intros key.
    destruct (assign_ranks_sorted key ws1 Hnd1) as (Hpos & _).
    exact (Hpos _ Hw1).
Qed.

Lemma finalize_then_rank_witness :
  let w a := mkWallet a 100000 [] (Some 50) None None None 0 None None (fun _ => None) in
  exists ws1 ws2,
    finalize_wallets [w "0xaa"; w "0xbb"] = Ok ws1 /\ apply_ranks ws1 = Ok ws2.
Proof.
  intros w.
  destruct (finalize_then_rank [w "0xaa"; w "0xbb"]) as (ws1 & ws2 & H1 & H2 & _).
  - apply (bool_decide_unpack _). vm_compute. exact I.
  - exists ws1, ws2. split; assumption.
Defined.

(** * [extract_positions] *)

Lemma py_abs_nonneg (x : Q) : 0 <= py_abs x.
Proof.
  unfold py_abs. destruct (Qltb x 0) eqn:E;
    [apply Qltb_lt in E | apply Qltb_ge in E]; lra.
Qed.

Lemma pct_nonneg (x y : Q) : 0 < y -> 0 <= py_abs x / y * 100.
Proof.
  intros Hy.
  assert (H : 0 <= py_abs x / y).
  { apply Qle_shift_div_l; [exact Hy|]. rewrite Qmult_0_l. apply py_abs_nonneg. }
  lra.
Qed.

Lemma truthy_nonzero (x : Q) : truthy x = true -> ~ x == 0.
Proof.
  unfold truthy. destruct (Qeq_bool x 0) eqn:E; [discriminate|].
  intros _ Hx. apply Qeq_bool_iff in Hx. congruence.
Qed.

Lemma extract_position_spec (account_value : Q) (mids : gmap string Q) (pos : RawPosition) :
  exists r,
    extract_position account_value mids pos = Ok r
    /\ match r with
       | None => Qltb (py_abs (szi pos)) szi_eps = true
       | Some p =>
           Qltb (py_abs (szi pos)) szi_eps = false
           /\ size p = szi pos /\ position_ok account_value mids p
       end.
Proof.
  unfold extract_position.
  destruct (Qltb (py_abs (szi pos)) szi_eps) eqn:Esz; [now exists None|].
  cbv zeta.
  set (mid_px := match mids !! raw_coin pos with
                 | Some mid => if truthy mid && Qltb 0 mid then Some mid else None
                 | None => None
                 end).
  assert (Hmid : forall m, mid_px = Some m -> 0 < m /\ mids !! raw_coin pos = Some m).
  { intros m. subst mid_px. destruct (mids !! raw_coin pos) as [mid|]; [|discriminate].
    destruct (truthy mid && Qltb 0 mid) eqn:E; [|discriminate].
    intros [= <-]. apply andb_prop in E as [_ E]. apply Qltb_lt in E. now split. }
  assert (Hnot : exists n,
             (if Qltb 0 account_value
              then x ← py_div (py_abs (positionValue pos)) account_value; Ok (Some (x * 100))
              else Ok None) = Ok n
             /\ forall x, n = Some x -> 0 < account_value /\ 0 <= x).
  { destruct (Qltb 0 account_value) eqn:E.
    - apply Qltb_lt in E. rewrite py_div_ok by lra. cbn [mbind res_bind].
      eexists. split; [reflexivity|]. intros x [= <-]. split; [exact E|].
      now apply pct_nonneg.
    - exists None. split; [reflexivity | discriminate]. }
  destruct Hnot as (n & -> & Hn). cbn [mbind res_bind].
  assert (Hliq : exists ld,
             match mid_px, liquidationPx pos with
             | Some m, Some l =>
                 if truthy m && truthy l && Qltb 0 m
                 then x ← py_div (py_abs (m - l)) m; Ok (Some (x * 100))
                 else Ok None
             | _, _ => Ok None
             end = Ok ld
             /\ forall x, ld = Some x ->
                  0 <= x /\ exists m l, mid_px = Some m /\ liquidationPx pos = Some l
                                        /\ ~ l == 0).
  { destruct mid_px as [m|]; [|exists None; split; [reflexivity | discriminate]].
    destruct (liquidationPx pos) as [l|];
      [|exists None; split; [reflexivity | discriminate]].
    destruct (truthy m && truthy l && Qltb 0 m) eqn:E;
      [|exists None; split; [reflexivity | discriminate]].
    apply andb_prop in E as [E Em]. apply andb_prop in E as [_ El].
    apply Qltb_lt in Em. apply truthy_nonzero in El.
    rewrite py_div_ok by lra. cbn [mbind res_bind].
    eexists. split; [reflexivity|]. intros x [= <-].
    split; [now apply pct_nonneg|]. now exists m, l. }
  destruct Hliq as (ld & -> & Hld). cbn [mbind res_bind].
  eexists. split; [reflexivity|]. split; [reflexivity|]. split; [reflexivity|].
  unfold position_ok.
  cbn [size side mid_px coin notional_pct_equity liq_distance_pct liquidation_px age_days].
  apply Qltb_ge in Esz.
  split; [exact Esz|]. split.
  { destruct (Qltb 0 (szi pos)) eqn:E;
      [apply Qltb_lt in E | apply Qltb_ge in E].
    - split; [intros _; exact E | reflexivity].
    - split; [discriminate | intros H; lra]. }
  split; [exact Hmid|]. split; [exact Hn|]. split; [exact Hld | reflexivity].
Qed.

(** X30: [extract_positions] never raises (its two divisions are guarded);
    it reports, in their order, exactly the entries whose size is at least
    1e-12 in absolute value; a reported position is LONG exactly when its
    size is positive, has no age yet, has a mid price only when the mid is
    positive, an equity share only for positive equity, and a liquidation
    distance, which is not negative, only with a mid price and a non-zero
    liquidation price. *)
Theorem extract_positions_invariants (aps : list (option RawPosition)) (account_value : Q)
    (mids : gmap string Q) :
  exists out,
    extract_positions aps account_value mids = Ok out
    /\ map size out
       = List.filter (fun s => negb (Qltb (py_abs s) szi_eps)) (map szi (omap id aps))
    /\ Forall (position_ok account_value mids) out.
Proof.
  induction aps as [|[pos|] rest IH]; cbn [extract_positions].
  - exists []. split; [reflexivity|]. split; [reflexivity | constructor].
  - destruct IH as (out & -> & Hsz & Hok).
    destruct (extract_position_spec account_value mids pos) as (r & -> & Hr).
    cbn [mbind res_bind omap list_omap id map List.filter].
    destruct r as [p|].
    + destruct Hr as (E & Hp & Hpok). rewrite E. cbn [negb].
      exists (p :: out). split; [reflexivity|]. split.
      * cbn [map]. now rewrite Hp, Hsz.
      * now constructor.
    + rewrite Hr. cbn [negb]. exists out. split; [reflexivity|]. now split.
  - destruct IH as (out & -> & Hsz & Hok). exists out.
    split; [reflexivity|]. now split.
Qed.
